(** * Benders (L-shaped) decomposition of pyomo.pysp: a shallow embedding

    The development follows [pyomo/pysp/benders.py].

    - Numbers.  Python floats are exact rationals ([Q], compared with
      [Qeq]), extended with the two infinities the script seeds its
      histories with.  Rounding is not modelled.
    - Dictionaries.  The bound and objective histories, whose values Python
      scans in insertion order, are insertion-ordered association lists;
      the others are [gmap]s.
    - Exceptions.  [KeyError], [AssertionError], [RuntimeError] and
      [ZeroDivisionError] are [None] in the option monad.
    - Expressions.  The Pyomo expressions [add_cut] builds are a small
      syntax with its evaluation at a point of the master.
    - The outside.  The subproblem solves, the master solves and the
      acquisition of workers are section variables.  Of the two ways the
      methods of [BendersAlgorithm] reach the scenarios, the serial loop is
      the one modelled; the other sends the same [EXTERNAL_] calls through
      [phsolverserverutils], which is outside this file.
    - The log.  The states of a run carry the list of the steps taken so
      far, so that the order of the steps can be stated. *)

From Stdlib Require Import QArith Qabs Lqa ZArith Lia Sorted.
From stdpp Require Import base option list gmap strings.

Local Open Scope Q_scope.

(** ** Numbers *)

Module Num.

(** A Python float as the script uses it: a finite value or one of the two
    infinities ([float('inf')], [float('-inf')]). *)
Inductive xnum : Type :=
| NegInf
| Fin (q : Q)
| PosInf.

Definition xle (a b : xnum) : Prop :=
  match a, b with
  | NegInf, _ => True
  | _, PosInf => True
  | Fin x, Fin y => x <= y
  | _, _ => False
  end.

Definition xeq (a b : xnum) : Prop :=
  match a, b with
  | NegInf, NegInf => True
  | PosInf, PosInf => True
  | Fin x, Fin y => x == y
  | _, _ => False
  end.

(** [a < b] as Python decides it. *)
Definition Qltb (x y : Q) : bool := negb (Qle_bool y x).

Definition xltb (a b : xnum) : bool :=
  match a, b with
  | NegInf, NegInf => false
  | NegInf, _ => true
  | Fin _, NegInf => false
  | Fin x, Fin y => Qltb x y
  | Fin _, PosInf => true
  | PosInf, _ => false
  end.

Definition xleb (a b : xnum) : bool :=
  match a, b with
  | NegInf, _ => true
  | Fin _, NegInf => false
  | Fin x, Fin y => Qle_bool x y
  | Fin _, PosInf => true
  | PosInf, PosInf => true
  | PosInf, _ => false
  end.

(** Python's [max(iterable)]: the first maximal item, [ValueError] on an
    empty iterable. *)
Definition py_max {A : Type} (ltb : A -> A -> bool) (l : list A) : option A :=
  match l with
  | [] => None
  | x :: r => Some (fold_left (fun m y => if ltb m y then y else m) r x)
  end.

(** Python's [min(iterable)]. *)
Definition py_min {A : Type} (ltb : A -> A -> bool) (l : list A) : option A :=
  match l with
  | [] => None
  | x :: r => Some (fold_left (fun m y => if ltb y m then y else m) r x)
  end.

(** The constant [1e-10]. *)
Definition eps : Q := 1 # 10000000000.

(** [abs(best_master_bound-incumbent_objective)/(1e-10+abs(incumbent_objective))]
    on finite operands. *)
Definition optimality_gap (best_master_bound incumbent_objective : Q) : Q :=
  Qabs (best_master_bound - incumbent_objective) / (eps + Qabs incumbent_objective).

(** The same expression when the bound may still be an infinity: the
    numerator is then infinite and the denominator finite and positive. *)
Definition gap (best_master_bound : xnum) (incumbent_objective : Q) : xnum :=
  match best_master_bound with
  | Fin b => Fin (optimality_gap b incumbent_objective)
  | _ => PosInf
  end.

End Num.
Export Num.

(** ** Insertion-ordered dictionaries *)

Module Dict.
Section Dict.
Context {V : Type}.

Definition dict : Type := list (Z * V).

Fixpoint dict_set (k : Z) (v : V) (d : dict) : dict :=
  match d with
  | [] => [(k, v)]
  | (k', v') :: r => if (k' =? k)%Z then (k, v) :: r else (k', v') :: dict_set k v r
  end.

Fixpoint dict_get (k : Z) (d : dict) : option V :=
  match d with
  | [] => None
  | (k', v') :: r => if (k' =? k)%Z then Some v' else dict_get k r
  end.

Definition keys (d : dict) : list Z := map fst d.
Definition values (d : dict) : list V := map snd d.

End Dict.
Arguments dict : clear implicits.
End Dict.
Export Dict.

(** ** Options and worker acquisition *)

Inductive sense : Type := minimize | maximize.

Definition sense_eqb (a b : sense) : bool :=
  match a, b with
  | minimize, minimize | maximize, maximize => true
  | _, _ => false
  end.

Record Options : Type := mkOptions {
  max_iterations : Z;
  percent_gap : Q;
  multicuts : Z;
  user_bound : option Q;
  master_disable_warmstart : bool;
  phpyro_required_workers : option Z;
  phpyro_workers_timeout : Q
}.

(** The defaults of [construct_benders_options_parser]. *)
Definition Benders_DefaultOptions : Options :=
  {| max_iterations := 100;
     percent_gap := 1 # 10000;
     multicuts := 1;
     user_bound := None;
     master_disable_warmstart := false;
     phpyro_required_workers := None;
     phpyro_workers_timeout := 30 |}.

(** ** The scenario tree and the subproblem state *)

Abbreviation var_id := positive (only parsing).

Record Scenario : Type := mkScenario {
  scenario_name : string;
  scenario_probability : Q
}.

Record ScenarioBundle : Type := mkBundle {
  bundle_name : string;
  bundle_scenario_names : list string;
  bundle_probability : Q
}.

Record ScenarioTree : Type := mkTree {
  (** the names of the stages *)
  _stages : list string;
  _scenarios : list Scenario;
  _scenario_bundles : list ScenarioBundle;
  (** [findRootNode()._variable_ids] *)
  root_variable_ids : list var_id
}.

#[global] Instance Q_eq_dec : EqDecision Q.
Proof. solve_decision. Defined.

#[global] Instance Scenario_eq_dec : EqDecision Scenario.
Proof. solve_decision. Defined.

Definition contains_bundles (t : ScenarioTree) : bool :=
  match _scenario_bundles t with [] => false | _ :: _ => true end.

(** [scenario_tree.get_scenario(name)]; scenario names are the keys of the
    tree's scenario map. *)
Definition get_scenario (t : ScenarioTree) (name : string) : option Scenario :=
  find (fun s => String.eqb (scenario_name s) name) (_scenarios t).

(** What a round of subproblem solves leaves on the scenario objects and on
    the solved instances. *)
Record SubSolution : Type := mkSol {
  (** [scenario._objective] *)
  scenario_objective : string -> Q;
  (** [scenario._stage_costs[scenario._leaf_node._stage._name]] *)
  scenario_stage_cost : string -> Q;
  (** [scenario._instance.dual] on the scenario's fixing constraints *)
  instance_dual : string -> gmap var_id Q;
  (** [ph._bundle_binding_instance_map[bundle].dual] on the fixing
      constraints of the bundle's scenarios *)
  bundle_dual : string -> gmap (string * var_id) Q;
  (** [rootnode._xbars] as [update_variable_statistics] computes it *)
  scenario_average : gmap var_id Q
}.

Record ProgressiveHedging : Type := mkPH {
  _scenario_tree : ScenarioTree;
  _objective_sense : sense;
  solution : SubSolution;
  root_xbars : gmap var_id Q;
  relax_integrality : bool;
  firststage_cost_active : bool;
  initialized_for_benders : bool;
  fix_constraints_active : bool;
  fix_values : gmap var_id Q;
  _current_iteration : Z;
  (** the iteration whose solution [cacheSolutions] stored last *)
  incumbent_cache : option (Z * SubSolution)
}.

Definition set_solution (sol : SubSolution) (ph : ProgressiveHedging) : ProgressiveHedging :=
  mkPH (_scenario_tree ph) (_objective_sense ph) sol (root_xbars ph)
       (relax_integrality ph) (firststage_cost_active ph) (initialized_for_benders ph)
       (fix_constraints_active ph) (fix_values ph) (_current_iteration ph) (incumbent_cache ph).

Definition set_root_xbars (x : gmap var_id Q) (ph : ProgressiveHedging) : ProgressiveHedging :=
  mkPH (_scenario_tree ph) (_objective_sense ph) (solution ph) x
       (relax_integrality ph) (firststage_cost_active ph) (initialized_for_benders ph)
       (fix_constraints_active ph) (fix_values ph) (_current_iteration ph) (incumbent_cache ph).

Definition set_relax_integrality (b : bool) (ph : ProgressiveHedging) : ProgressiveHedging :=
  mkPH (_scenario_tree ph) (_objective_sense ph) (solution ph) (root_xbars ph)
       b (firststage_cost_active ph) (initialized_for_benders ph)
       (fix_constraints_active ph) (fix_values ph) (_current_iteration ph) (incumbent_cache ph).

Definition set_current_iteration (i : Z) (ph : ProgressiveHedging) : ProgressiveHedging :=
  mkPH (_scenario_tree ph) (_objective_sense ph) (solution ph) (root_xbars ph)
       (relax_integrality ph) (firststage_cost_active ph) (initialized_for_benders ph)
       (fix_constraints_active ph) (fix_values ph) i (incumbent_cache ph).

(** [ph.cacheSolutions(ph._incumbent_cache_id)] *)
Definition cacheSolutions (ph : ProgressiveHedging) : ProgressiveHedging :=
  mkPH (_scenario_tree ph) (_objective_sense ph) (solution ph) (root_xbars ph)
       (relax_integrality ph) (firststage_cost_active ph) (initialized_for_benders ph)
       (fix_constraints_active ph) (fix_values ph) (_current_iteration ph)
       (Some (_current_iteration ph, solution ph)).

(** [ph.restoreCachedSolutions(ph._incumbent_cache_id)] *)
Definition restoreCachedSolutions (ph : ProgressiveHedging) : ProgressiveHedging :=
  match incumbent_cache ph with
  | Some (_, sol) => set_solution sol ph
  | None => ph
  end.

(** The two assertions every [EXTERNAL_] function starts with:
    [len(ph._scenario_tree._stages) == 2] and
    [scenario in ph._scenario_tree._scenarios]. *)
Definition benders_asserts (ph : ProgressiveHedging) (scenario : Scenario) : bool :=
  (Nat.eqb (length (_stages (_scenario_tree ph))) 2
   && bool_decide (scenario ∈ _scenarios (_scenario_tree ph)))%bool.

(** [for scenario in ph._scenario_tree._scenarios: f(ph, ph._scenario_tree, scenario)],
    the serial branch of the methods of [BendersAlgorithm] that forward to
    an [EXTERNAL_] function. *)
Fixpoint for_scenarios (f : ProgressiveHedging -> Scenario -> option ProgressiveHedging)
    (scs : list Scenario) (ph : ProgressiveHedging) : option ProgressiveHedging :=
  match scs with
  | [] => Some ph
  | scenario :: rest => ph' ← f ph scenario; for_scenarios f rest ph'
  end.

(** [EXTERNAL_initialize_for_benders]: the scenario gets its fixing block,
    parameters at 0.0 and constraints deactivated.  The subproblem models
    are not part of the state: what is kept of this function, and of the
    three after it, is what the solves and the cut data depend on. *)
Definition EXTERNAL_initialize_for_benders (ph : ProgressiveHedging) (scenario : Scenario)
  : option ProgressiveHedging :=
  if benders_asserts ph scenario then
    Some (mkPH (_scenario_tree ph) (_objective_sense ph) (solution ph) (root_xbars ph)
               (relax_integrality ph) (firststage_cost_active ph) true
               false (gset_to_gmap 0 (list_to_set (root_variable_ids (_scenario_tree ph))))
               (_current_iteration ph) (incumbent_cache ph))
  else None.

Definition EXTERNAL_deactivate_firststage_cost (ph : ProgressiveHedging) (scenario : Scenario)
  : option ProgressiveHedging :=
  if benders_asserts ph scenario then
    Some (mkPH (_scenario_tree ph) (_objective_sense ph) (solution ph) (root_xbars ph)
               (relax_integrality ph) false (initialized_for_benders ph)
               (fix_constraints_active ph) (fix_values ph) (_current_iteration ph)
               (incumbent_cache ph))
  else None.

Definition EXTERNAL_activate_fix_constraints (ph : ProgressiveHedging) (scenario : Scenario)
  : option ProgressiveHedging :=
  if benders_asserts ph scenario then
    Some (mkPH (_scenario_tree ph) (_objective_sense ph) (solution ph) (root_xbars ph)
               (relax_integrality ph) (firststage_cost_active ph) (initialized_for_benders ph)
               true (fix_values ph) (_current_iteration ph) (incumbent_cache ph))
  else None.

(** [fix_param.store_values(fix_values)] *)
Definition EXTERNAL_update_fix_constraints (new_fix_values : gmap var_id Q)
    (ph : ProgressiveHedging) (scenario : Scenario) : option ProgressiveHedging :=
  if benders_asserts ph scenario then
    Some (mkPH (_scenario_tree ph) (_objective_sense ph) (solution ph) (root_xbars ph)
               (relax_integrality ph) (firststage_cost_active ph) (initialized_for_benders ph)
               (fix_constraints_active ph) new_fix_values (_current_iteration ph)
               (incumbent_cache ph))
  else None.

Definition initialize_for_benders (ph : ProgressiveHedging) : option ProgressiveHedging :=
  for_scenarios EXTERNAL_initialize_for_benders (_scenarios (_scenario_tree ph)) ph.

Definition deactivate_firststage_cost (ph : ProgressiveHedging) : option ProgressiveHedging :=
  for_scenarios EXTERNAL_deactivate_firststage_cost (_scenarios (_scenario_tree ph)) ph.

Definition activate_fix_constraints (ph : ProgressiveHedging) : option ProgressiveHedging :=
  for_scenarios EXTERNAL_activate_fix_constraints (_scenarios (_scenario_tree ph)) ph.

Definition update_fix_constraints (new_fix_values : gmap var_id Q) (ph : ProgressiveHedging)
  : option ProgressiveHedging :=
  for_scenarios (EXTERNAL_update_fix_constraints new_fix_values)
                (_scenarios (_scenario_tree ph)) ph.

(** The subproblems before and after a step are those of the same run. *)
Definition same_problem (a b : ProgressiveHedging) : Prop :=
  _scenario_tree a = _scenario_tree b /\
  _objective_sense a = _objective_sense b /\
  solution a = solution b /\
  root_xbars a = root_xbars b.

(** ** Worker acquisition *)

(** [collect_servers]: the arguments of the one call
    [solver_manager.acquire_servers(servers_expected, timeout)]. *)
Definition collect_servers (t : ScenarioTree) (options : Options) : Z * option Q :=
  let servers_expected := phpyro_required_workers options in
  let timeout := Some (phpyro_workers_timeout options) in
  let num_jobs :=
    if contains_bundles t then Z.of_nat (length (_scenario_bundles t))
    else Z.of_nat (length (_scenarios t)) in
  match servers_expected with
  | None => (num_jobs, timeout)
  | Some n => (n, None)
  end.

(** ** Cut data *)

Record scenario_results : Type := mkResults {
  SSC : Q;
  duals : gmap var_id Q
}.

(** Float division: [ZeroDivisionError] on a zero divisor. *)
Definition py_div (x y : Q) : option Q :=
  if Qeq_bool y 0 then None else Some (x / y).

(** Lines 803-816 of [EXTERNAL_collect_cut_data]: the dual suffix to read and
    the probability to scale with. *)
Definition dual_source (ph : ProgressiveHedging) (scenario : Scenario)
  : option ((var_id -> option Q) * Q) :=
  let t := _scenario_tree ph in
  let name := scenario_name scenario in
  if contains_bundles t then
    let '(found, dual_suffix, sum_probability_bundle) :=
      fold_left
        (fun (acc : nat * option (var_id -> option Q) * option Q) scenario_bundle =>
           if bool_decide (name ∈ bundle_scenario_names scenario_bundle) then
             let '(found, _, _) := acc in
             (S found,
              Some (fun v => bundle_dual (solution ph) (bundle_name scenario_bundle) !! (name, v)),
              Some (bundle_probability scenario_bundle))
           else acc)
        (_scenario_bundles t) (O, None, None) in
    if Nat.eqb found 1 then
      match dual_suffix, sum_probability_bundle with
      | Some d, Some p => Some (d, p)
      | _, _ => None
      end
    else None
  else
    Some (fun v => instance_dual (solution ph) name !! v, scenario_probability scenario).

Fixpoint collect_duals (dual_suffix : var_id -> option Q)
    (sum_probability_bundle probability : Q) (ids : list var_id)
    (acc : gmap var_id Q) : option (gmap var_id Q) :=
  match ids with
  | [] => Some acc
  | variable_id :: rest =>
      d ← dual_suffix variable_id;
      r ← py_div (d * sum_probability_bundle) probability;
      collect_duals dual_suffix sum_probability_bundle probability rest
                    (<[variable_id := r]> acc)
  end.

Definition EXTERNAL_collect_cut_data (ph : ProgressiveHedging) (scenario : Scenario)
  : option scenario_results :=
  if benders_asserts ph scenario then
    '(dual_suffix, sum_probability_bundle) ← dual_source ph scenario;
    ds ← collect_duals dual_suffix sum_probability_bundle (scenario_probability scenario)
                       (root_variable_ids (_scenario_tree ph)) ∅;
    Some (mkResults (scenario_stage_cost (solution ph) (scenario_name scenario)) ds)
  else None.

(** The serial branch of [BendersAlgorithm.collect_cut_data]. *)
Fixpoint collect_cut_data_loop (ph : ProgressiveHedging) (scs : list Scenario)
    (results : gmap string scenario_results) : option (gmap string scenario_results) :=
  match scs with
  | [] => Some results
  | scenario :: rest =>
      r ← EXTERNAL_collect_cut_data ph scenario;
      collect_cut_data_loop ph rest (<[scenario_name scenario := r]> results)
  end.

Definition collect_cut_data (ph : ProgressiveHedging) : option (gmap string scenario_results) :=
  collect_cut_data_loop ph (_scenarios (_scenario_tree ph)) ∅.

Record BendersOptimalityCut : Type := mkCut {
  cut_xbars : gmap var_id Q;
  cut_ssc : gmap string Q;
  cut_duals : gmap string (gmap var_id Q)
}.

(** ** The master problem *)

(** Pyomo expressions over the master's first-stage variables and its
    cut-storage variables, as [add_cut] and [initialize] build them. *)
Inductive expr : Type :=
| EConst (q : Q)
| EVar (variable_id : var_id)
| EAlpha
| EBundleAlpha (i : nat)
| EAdd (a b : expr)
| ESub (a b : expr)
| EMul (a b : expr).

(** A point of the master: [value(...)] of each variable. *)
Record valuation : Type := mkVal {
  val_x : var_id -> Q;
  val_alpha : Q;
  val_bundle_alpha : nat -> Q
}.

Fixpoint value (env : valuation) (e : expr) : Q :=
  match e with
  | EConst q => q
  | EVar v => val_x env v
  | EAlpha => val_alpha env
  | EBundleAlpha i => val_bundle_alpha env i
  | EAdd a b => value env a + value env b
  | ESub a b => value env a - value env b
  | EMul a b => value env a * value env b
  end.

(** Constraints: the [(lower, body, upper)] tuples given to a
    [ConstraintList], and the two relational forms used by [initialize]. *)
Inductive constraint : Type :=
| CTuple (lower : option Q) (body : expr) (upper : option Q)
| CGe (l r : expr)
| CLe (l r : expr).

Definition holds (env : valuation) (c : constraint) : Prop :=
  match c with
  | CTuple lo e hi =>
      match lo with Some l => l <= value env e | None => True end /\
      match hi with Some u => value env e <= u | None => True end
  | CGe l r => value env r <= value env l
  | CLe l r => value env l <= value env r
  end.

Record Master : Type := mkMaster {
  (** [master_alpha.fixed] *)
  alpha_fixed : bool;
  (** size of the index [RangeSet(0, multicuts-1)] of the bundle alphas *)
  bundle_alpha_index : nat;
  PYSP_BENDERS_CUT_BUNDLES : list (list string);
  PYSP_BUNDLE_AVERAGE_ALPHA_CUT : constraint;
  PYSP_BENDERS_CUTS : list constraint
}.

Definition append_cut (c : constraint) (m : Master) : Master :=
  mkMaster (alpha_fixed m) (bundle_alpha_index m) (PYSP_BENDERS_CUT_BUNDLES m)
           (PYSP_BUNDLE_AVERAGE_ALPHA_CUT m) (PYSP_BENDERS_CUTS m ++ [c]).

(** [master_alpha.free()] *)
Definition free_alpha (m : Master) : Master :=
  mkMaster false (bundle_alpha_index m) (PYSP_BENDERS_CUT_BUNDLES m)
           (PYSP_BUNDLE_AVERAGE_ALPHA_CUT m) (PYSP_BENDERS_CUTS m).

(** Python's [sum(generator)] over expressions: [0 + t1 + t2 + ...]. *)
Definition py_sum (ts : list expr) : expr := fold_left EAdd ts (EConst 0).

(** The round-robin loop of [initialize]:
    [bundles[cnt % multicuts].append(scenario._name)]. *)
Fixpoint assign_bundles (multicuts : nat) (cnt : nat) (names : list string)
    (bundles : list (list string)) : option (list (list string)) :=
  match names with
  | [] => Some bundles
  | name :: rest =>
      b ← bundles !! (cnt mod multicuts)%nat;
      assign_bundles multicuts (S cnt) rest (<[(cnt mod multicuts)%nat := b ++ [name]]> bundles)
  end.

Definition scenario_names (t : ScenarioTree) : list string :=
  map scenario_name (_scenarios t).

(** The bundles [initialize] stores in [PYSP_BENDERS_CUT_BUNDLES]. *)
Definition make_bundles (multicuts : Z) (names : list string) : option (list (list string)) :=
  let bundles := replicate (Z.to_nat multicuts) ([] : list string) in
  if ((1 <=? multicuts)%Z && (multicuts <=? Z.of_nat (length names))%Z)%bool
  then assign_bundles (Z.to_nat multicuts) 0 names bundles
  else None.

(** The part of [BendersAlgorithm.initialize] that builds the master's
    cut-storage variables, bundles, linking constraint and empty cut pool. *)
Definition initialize (options : Options) (ph : ProgressiveHedging) : option Master :=
  bundles ← make_bundles (multicuts options) (scenario_names (_scenario_tree ph));
  let n := Z.to_nat (multicuts options) in
  let total := py_sum (map EBundleAlpha (seq 0 n)) in
  Some (mkMaster false n bundles
          (if sense_eqb (_objective_sense ph) minimize
           then CGe EAlpha total else CLe EAlpha total)
          []).

(** ** Adding a cut *)

Fixpoint dual_terms (scenario_duals xbars : gmap var_id Q) (ids : list var_id)
    (acc : expr) : option expr :=
  match ids with
  | [] => Some acc
  | variable_id :: rest =>
      d ← scenario_duals !! variable_id;
      xbar ← xbars !! variable_id;
      dual_terms scenario_duals xbars rest
        (EAdd acc (EMul (EConst d) (ESub (EVar variable_id) (EConst xbar))))
  end.

(** [scenario._probability * (scenario_ssc + sum(...))] *)
Definition scenario_term (ph : ProgressiveHedging) (benders_cut : BendersOptimalityCut)
    (name : string) : option expr :=
  scenario_duals ← cut_duals benders_cut !! name;
  scenario_ssc ← cut_ssc benders_cut !! name;
  scenario ← get_scenario (_scenario_tree ph) name;
  s ← dual_terms scenario_duals (cut_xbars benders_cut)
        (root_variable_ids (_scenario_tree ph)) (EConst 0);
  Some (EMul (EConst (scenario_probability scenario)) (EAdd (EConst scenario_ssc) s)).

(** The loop [cut_expression += ...] over a list of scenario names. *)
Fixpoint cut_expression_loop (ph : ProgressiveHedging) (benders_cut : BendersOptimalityCut)
    (names : list string) (cut_expression : expr) : option expr :=
  match names with
  | [] => Some cut_expression
  | name :: rest =>
      t ← scenario_term ph benders_cut name;
      cut_expression_loop ph benders_cut rest (EAdd cut_expression t)
  end.

(** [benders_cuts.add((None,cut_expression,0.0))] under minimize,
    [benders_cuts.add((0.0,cut_expression,None))] otherwise. *)
Definition sense_cut (s : sense) (cut_expression : expr) : constraint :=
  if sense_eqb s minimize then CTuple None cut_expression (Some 0)
  else CTuple (Some 0) cut_expression None.

Fixpoint add_bundle_cuts (ph : ProgressiveHedging) (benders_cut : BendersOptimalityCut)
    (i : nat) (bundles : list (list string)) (m : Master) : option Master :=
  match bundles with
  | [] => Some m
  | cut_scenarios :: rest =>
      e ← cut_expression_loop ph benders_cut cut_scenarios (EConst 0);
      a ← (if (i <? bundle_alpha_index m)%nat then Some (EBundleAlpha i) else None);
      add_bundle_cuts ph benders_cut (S i) rest
        (append_cut (sense_cut (_objective_sense ph) (ESub e a)) m)
  end.

Definition add_cut (m : Master) (ph : ProgressiveHedging)
    (benders_cut : BendersOptimalityCut) (per_bundle : bool) : option Master :=
  if per_bundle then
    add_bundle_cuts ph benders_cut 0 (PYSP_BENDERS_CUT_BUNDLES m) m
  else
    e ← cut_expression_loop ph benders_cut (scenario_names (_scenario_tree ph)) (EConst 0);
    Some (append_cut (sense_cut (_objective_sense ph) (ESub e EAlpha)) m).

(** ** The cut as the specification writes it

    [Σ_s prob_s (SSC_s + Σ_v dual_{s,v} (x_v − xbar_v))] over a list of
    scenario names, at a point of the master.  Missing entries read as 0;
    [cut_definedb] tells that none is missing. *)

Definition Qsum (l : list Q) : Q := fold_right Qplus 0 l.

Definition cut_term (env : valuation) (t : ScenarioTree) (benders_cut : BendersOptimalityCut)
    (name : string) : Q :=
  let prob := default 0 (scenario_probability <$> get_scenario t name) in
  let ssc := default 0 (cut_ssc benders_cut !! name) in
  let dual v := default 0 (default ∅ (cut_duals benders_cut !! name) !! v) in
  let xbar v := default 0 (cut_xbars benders_cut !! v) in
  prob * (ssc + Qsum (map (fun v => dual v * (val_x env v - xbar v)) (root_variable_ids t))).

Definition cut_formula (env : valuation) (t : ScenarioTree) (benders_cut : BendersOptimalityCut)
    (names : list string) : Q :=
  Qsum (map (cut_term env t benders_cut) names).

(** Every lookup [add_cut] makes for the scenarios [names] succeeds. *)
Definition cut_definedb (t : ScenarioTree) (benders_cut : BendersOptimalityCut)
    (names : list string) : bool :=
  forallb
    (fun name =>
       match get_scenario t name, cut_ssc benders_cut !! name, cut_duals benders_cut !! name with
       | Some _, Some _, Some scenario_duals =>
           forallb
             (fun v =>
                match scenario_duals !! v, cut_xbars benders_cut !! v with
                | Some _, Some _ => true
                | _, _ => false
                end)
             (root_variable_ids t)
       | _, _, _ => false
       end)
    names.

(** The bodies of per-bundle cuts with their [alpha_b] added back, summed. *)
Definition bundle_total (env : valuation) (es : list expr) : Q :=
  Qsum (imap (fun i e => value env e + val_bundle_alpha env i) es).

(** ** The decomposition loop *)

(** What the master solver reports and what [master.solutions.load_from]
    leaves on the master. *)
Record MasterResult : Type := mkMasterResult {
  (** [value(master_objective)] *)
  master_objective_value : Q;
  (** [value(master_alpha)] *)
  master_alpha_value : Q;
  (** [value(master_bySymbol[variable_id])] *)
  master_values : var_id -> Q;
  (** [solution0.gap] when the attribute exists and is not [None] *)
  solution_gap : option Q
}.

(** The steps of a run, in the order they happen.  A row carries the
    printed log row together with the best bound its gap was computed
    from. *)
Inductive event : Type :=
| EvTrivialBound (trivial_bound : Q)
| EvGenerateCut (xbars : gmap var_id Q)
| EvAddCut (benders_cut : BendersOptimalityCut)
| EvSolveMaster (i : Z)
| EvFreeAlpha (i : Z)
| EvRow (i : Z) (current_master_bound : Q) (best_master_bound : xnum)
        (incumbent_objective : Q) (optimality_gap : xnum)
| EvCacheSolutions (i : Z)
| EvConverged (i : Z)
| EvRestore.

Record BendersState : Type := mkState {
  _master : Master;
  _ph : ProgressiveHedging;
  MASTER_bound_history : dict xnum;
  OBJECTIVE_history : dict Q;
  incumbent_objective : xnum;
  log : list event
}.

(** [sum(scenario._probability * f(scenario) for scenario in scenarios)] *)
Definition expected (f : string -> Q) (scs : list Scenario) : Q :=
  fold_left (fun acc s => acc + scenario_probability s * f (scenario_name s)) scs 0.

Fixpoint expected_ssc (ssc : gmap string Q) (scs : list Scenario) (acc : Q) : option Q :=
  match scs with
  | [] => Some acc
  | s :: rest =>
      c ← ssc !! scenario_name s;
      expected_ssc ssc rest (acc + scenario_probability s * c)
  end.

(** [extract_master_xbars] *)
Definition extract_master_xbars (results_master : MasterResult) (ph : ProgressiveHedging)
  : gmap var_id Q :=
  list_to_map (map (fun v => (v, master_values results_master v))
                   (root_variable_ids (_scenario_tree ph))).

(** Lines 1440-1447 of [solve]. *)
Definition current_master_bound_of (s : sense) (results_master : MasterResult) : Q :=
  let current_master_bound := master_objective_value results_master in
  match solution_gap results_master with
  | Some g =>
      if sense_eqb s minimize then current_master_bound - g
      else current_master_bound + g
  | None => current_master_bound
  end.

(** Lines 1370-1374 of [solve]. *)
Definition initial_bound_history (s : sense) (options : Options) (trivial_bound : Q)
  : dict xnum :=
  dict_set (-1)
    (match user_bound options with
     | Some u => Fin u
     | None => if sense_eqb s minimize then NegInf else PosInf
     end)
    (dict_set 0 (Fin trivial_bound) []).

(** Line 1375: the maximum (minimum) is taken over the dictionary itself,
    that is over its keys; the result is never read. *)
Definition first_master_bound (s : sense) (h : dict xnum) : option Z :=
  if sense_eqb s minimize then py_max Z.ltb (keys h) else py_min Z.ltb (keys h).

Definition best_bound (s : sense) (h : dict xnum) : option xnum :=
  if sense_eqb s minimize then py_max xltb (values h) else py_min xltb (values h).

Definition best_incumbent (s : sense) (h : dict Q) : option Q :=
  if sense_eqb s minimize then py_min Qltb (values h) else py_max Qltb (values h).

(** [sum(scenario._probability * scenario._objective for scenario in ...)] *)
Definition trivial_bound_of (ph : ProgressiveHedging) : Q :=
  expected (scenario_objective (solution ph)) (_scenarios (_scenario_tree ph)).

Module Benders.
Section Solve.

(** [ph.solve_subproblems()]: the subproblem solves, [None] when one fails. *)
Variable ph_solve_subproblems : ProgressiveHedging -> option SubSolution.
(** [master_solver.solve(master, warmstart=...)]: [None] when the result
    holds no solution. *)
Variable master_solver_solve : Master -> bool -> option MasterResult.
Variable warm_start_capable : bool.
Variable options : Options.

Definition solve_subproblems (ph : ProgressiveHedging) : option ProgressiveHedging :=
  sol ← ph_solve_subproblems ph;
  Some (set_solution sol ph).

Definition generate_cut (ph : ProgressiveHedging) (xbars : gmap var_id Q)
  : option (BendersOptimalityCut * ProgressiveHedging) :=
  ph0 ← update_fix_constraints xbars ph;
  ph' ← solve_subproblems ph0;
  cut_data ← collect_cut_data ph';
  Some (mkCut xbars (SSC <$> cut_data) (duals <$> cut_data), ph').

(** Lines 1363-1368: the cut generated before the first master solve. *)
Definition seed_cut (m : Master) (ph : ProgressiveHedging)
  : option (Master * ProgressiveHedging * list event) :=
  if negb (alpha_fixed m) then
    '(benders_cut, ph') ← generate_cut ph (root_xbars ph);
    m' ← add_cut m ph' benders_cut false;
    Some (m', ph', [EvGenerateCut (root_xbars ph); EvAddCut benders_cut])
  else Some (m, ph, []).

(** Whether the master is solved with [warmstart=True]. *)
Definition use_warmstart : bool :=
  (negb (master_disable_warmstart options) && warm_start_capable)%bool.

(** [ph._current_iteration += 1] *)
Definition enter_iteration (ph : ProgressiveHedging) : ProgressiveHedging :=
  set_current_iteration (_current_iteration ph + 1) ph.

(** The body of the main loop; the boolean tells whether it left the loop
    through [break]. *)
Definition benders_iteration (i : Z) (st : BendersState) : option (BendersState * bool) :=
  let objective_sense := _objective_sense (_ph st) in
  let ph0 := enter_iteration (_ph st) in
  results_master ← master_solver_solve (_master st) use_warmstart;
  '(master1, log1) ←
    (if alpha_fixed (_master st) then
       if (i =? 1)%Z then Some (free_alpha (_master st), [EvSolveMaster i; EvFreeAlpha i])
       else None
     else Some (_master st, [EvSolveMaster i]));
  let current_master_bound := current_master_bound_of objective_sense results_master in
  let bound_history := dict_set i (Fin current_master_bound) (MASTER_bound_history st) in
  let new_xbars := extract_master_xbars results_master ph0 in
  '(new_cut_info, ph1) ← generate_cut ph0 new_xbars;
  recourse ← expected_ssc (cut_ssc new_cut_info) (_scenarios (_scenario_tree ph1)) 0;
  let current_objective :=
    current_master_bound - master_alpha_value results_master + recourse in
  let objective_history := dict_set i current_objective (OBJECTIVE_history st) in
  let incumbent_objective_prev := incumbent_objective st in
  best_master_bound ← best_bound objective_sense bound_history;
  incumbent ← best_incumbent objective_sense objective_history;
  let improved :=
    if sense_eqb objective_sense minimize
    then xltb (Fin incumbent) incumbent_objective_prev
    else xltb incumbent_objective_prev (Fin incumbent) in
  let ph2 := if improved then cacheSolutions ph1 else ph1 in
  let optimality_gap := gap best_master_bound incumbent in
  let log2 :=
    log st ++ log1 ++ [EvGenerateCut new_xbars]
        ++ (if improved then [EvCacheSolutions i] else [])
        ++ [EvRow i current_master_bound best_master_bound incumbent optimality_gap] in
  if xleb optimality_gap (Fin (percent_gap options)) then
    Some (mkState master1 ph2 bound_history objective_history (Fin incumbent)
                  (log2 ++ [EvConverged i]), true)
  else
    master2 ← add_cut master1 ph2 new_cut_info false;
    Some (mkState master2 ph2 bound_history objective_history (Fin incumbent)
                  (log2 ++ [EvAddCut new_cut_info]), false).

(** [for i in range(1, max_iterations+1)], entered at [i] with [n]
    iterations left. *)
Fixpoint benders_loop (n : nat) (i : Z) (st : BendersState) : option BendersState :=
  match n with
  | O => Some st
  | S n' =>
      '(st', converged) ← benders_iteration i st;
      if (converged : bool) then Some st' else benders_loop n' (i + 1) st'
  end.

Definition solve (m : Master) (ph : ProgressiveHedging) : option BendersState :=
  let objective_sense := _objective_sense ph in
  ph1 ← solve_subproblems (set_relax_integrality true ph);
  let ph2 := set_relax_integrality false
               (set_root_xbars (scenario_average (solution ph1)) ph1) in
  let trivial_bound := trivial_bound_of ph2 in
  ph2' ← initialize_for_benders ph2;
  ph2'' ← deactivate_firststage_cost ph2';
  ph3 ← activate_fix_constraints ph2'';
  '(m1, ph4, seed_log) ← seed_cut m ph3;
  let st0 :=
    mkState m1 (set_current_iteration 1 ph4)
            (initial_bound_history objective_sense options trivial_bound)
            []
            (if sense_eqb objective_sense minimize then PosInf else NegInf)
            (EvTrivialBound trivial_bound :: seed_log) in
  st ← benders_loop (Z.to_nat (max_iterations options)) 1 st0;
  Some (mkState (_master st) (restoreCachedSolutions (_ph st))
                (MASTER_bound_history st) (OBJECTIVE_history st)
                (incumbent_objective st) (log st ++ [EvRestore])).

End Solve.
End Benders.
Export Benders.

(** [no_worse s a b]: the bound [b] is at least as tight as [a], that is
    not smaller under minimize and not larger under maximize. *)
Definition no_worse (s : sense) (a b : xnum) : Prop :=
  match s with
  | minimize => xle a b
  | maximize => xle b a
  end.

(** The best bounds of the rows of a log, oldest first. *)
Definition best_bounds (l : list event) : list xnum :=
  omap (fun e => match e with EvRow _ _ b _ _ => Some b | _ => None end) l.

(** The invariant of the loop entered at iteration [i]: the history holds
    only keys below [i] and still holds the seeded bounds, and the best
    bounds logged so far are sorted, dominate the seeds and are dominated
    by the best bound of the history. *)
Definition rows_sorted (s : sense) (seeds : list xnum) (i : Z) (st : BendersState) : Prop :=
  _objective_sense (_ph st) = s /\
  Forall (fun k => (k < i)%Z) (keys (MASTER_bound_history st)) /\
  (forall v, In v seeds -> In v (values (MASTER_bound_history st))) /\
  Forall (fun b => forall v, In v seeds -> no_worse s v b) (best_bounds (log st)) /\
  exists cb,
    best_bound s (MASTER_bound_history st) = Some cb /\
    Forall (fun b => no_worse s b cb) (best_bounds (log st)) /\
    StronglySorted (no_worse s) (best_bounds (log st)).

(** ** The runner *)

Inductive run_event : Type :=
| RunAcquireServers (servers_expected : Z) (timeout : option Q)
| RunInitialize
| RunSolve
| RunReleaseServers.

Section Run.

(** [solver_manager.acquire_servers(n, timeout)]: [false] when it raises. *)
Variable acquire_servers : Z -> option Q -> bool.
Variable ph_solve_subproblems : ProgressiveHedging -> option SubSolution.
Variable master_solver_solve : Master -> bool -> option MasterResult.
Variable warm_start_capable : bool.

(** [exec_runbenders] from the creation of the solver manager on; [phpyro]
    tells whether the manager is a [SolverManager_PHPyro].  The result is
    the final state, [None] when an exception left the [try] block, with
    the calls made on the way. *)
Definition exec_runbenders (options : Options) (phpyro : bool) (ph : ProgressiveHedging)
  : option BendersState * list run_event :=
  let finally := if phpyro then [RunReleaseServers] else [] in
  let '(acquired, acquire_log) :=
    if phpyro then
      let '(servers_expected, timeout) := collect_servers (_scenario_tree ph) options in
      (acquire_servers servers_expected timeout,
       [RunAcquireServers servers_expected timeout])
    else (true, []) in
  if acquired then
    match initialize options ph with
    | None => (None, acquire_log ++ [RunInitialize] ++ finally)
    | Some m =>
        (solve ph_solve_subproblems master_solver_solve warm_start_capable options m ph,
         acquire_log ++ [RunInitialize; RunSolve] ++ finally)
    end
  else (None, acquire_log ++ finally).

End Run.

(** ** A small instance

    Two equiprobable scenarios sharing one first-stage variable, solved by
    constant solvers; used to run the definitions on concrete inputs. *)

Module Example.

Definition s1 : Scenario := mkScenario "s1" (1 # 2).
Definition s2 : Scenario := mkScenario "s2" (1 # 2).
Definition s3 : Scenario := mkScenario "s3" (1 # 4).

Definition stages : list string := ["FirstStage"; "SecondStage"].

Definition tree : ScenarioTree := mkTree stages [s1; s2] [] [1%positive].

Definition bundled_tree : ScenarioTree :=
  mkTree stages [s1; s2] [mkBundle "b1" ["s1"; "s2"] 1] [1%positive].

Definition sol : SubSolution :=
  mkSol (fun _ => 3)
        (fun name => if String.eqb name "s1" then 1 else 2)
        (fun _ => {[ 1%positive := 2 ]})
        (fun _ => {[ ("s1"%string, 1%positive) := 2; ("s2"%string, 1%positive) := 4 ]})
        {[ 1%positive := 5 ]}.

Definition ph_of (t : ScenarioTree) (s : sense) : ProgressiveHedging :=
  mkPH t s sol ∅ false true false false ∅ 0 None.

Definition ph : ProgressiveHedging := ph_of tree minimize.

Definition sub_solver (_ : ProgressiveHedging) : option SubSolution := Some sol.

Definition master_result : MasterResult :=
  mkMasterResult 4 1 (fun _ => 5) (Some (1 # 4)).

Definition master_solver (_ : Master) (_ : bool) : option MasterResult :=
  Some master_result.

Definition master : Master := mkMaster false 1 [["s1"; "s2"]] (CGe EAlpha (py_sum [EBundleAlpha 0])) [].

Definition fixed_master : Master := mkMaster true 1 [["s1"; "s2"]] (CGe EAlpha (py_sum [EBundleAlpha 0])) [].

Definition cut : BendersOptimalityCut :=
  mkCut {[ 1%positive := 5 ]}
        {[ "s1"%string := 1; "s2"%string := 2 ]}
        {[ "s1"%string := {[ 1%positive := 2 ]}; "s2"%string := {[ 1%positive := 2 ]} ]}.

Definition options4 : Options :=
  mkOptions 100 (1 # 10000) 1 None false (Some 4%Z) 30.

Definition options2 : Options :=
  mkOptions 2 (1 # 10000) 2 None false None 30.

(** The state in which the loop is entered when no seed cut was added. *)
Definition state0 : BendersState :=
  mkState master (set_current_iteration 1 ph)
          (initial_bound_history minimize options2 3) [] PosInf [].


(** The state after the first iteration entered at [state0], and the final
    states of the runs started with alpha free and with alpha fixed. *)
Definition iteration1 : BendersState :=
  Eval vm_compute in
    match benders_iteration sub_solver master_solver true options2 1 state0 with
    | Some (st, _) => st
    | None => state0
    end.

(** A tolerance of 100% makes the first iteration converge. *)
Definition loose_options : Options :=
  mkOptions 5 1 2 None false None 30.

Definition converged1 : BendersState :=
  Eval vm_compute in
    match benders_iteration sub_solver master_solver true loose_options 1 state0 with
    | Some (st, _) => st
    | None => state0
    end.

Definition run_free : BendersState :=
  Eval vm_compute in
    match solve sub_solver master_solver true options2 master ph with
    | Some st => st
    | None => state0
    end.

Definition run_fixed : BendersState :=
  Eval vm_compute in
    match solve sub_solver master_solver true options2 fixed_master ph with
    | Some st => st
    | None => state0
    end.


Definition point : valuation := mkVal (fun _ => 7) 3 (fun _ => 3).

(** The master [initialize] builds for two cut groups. *)
Definition master2 : Master :=
  mkMaster false 2 [["s1"]; ["s2"]]
           (CGe EAlpha (py_sum [EBundleAlpha 0; EBundleAlpha 1])) [].

Definition bundled_ph : ProgressiveHedging := ph_of bundled_tree minimize.

End Example.

(** ** Reading a log

    What the properties of a run are stated on. *)

(** The iterations whose master solve is logged, oldest first. *)
Definition master_solves (l : list event) : list Z :=
  omap (fun e => match e with EvSolveMaster i => Some i | _ => None end) l.

(** The iterations logged as converged. *)
Definition converged_at (l : list event) : list Z :=
  omap (fun e => match e with EvConverged i => Some i | _ => None end) l.

(** The iterations at which alpha was freed. *)
Definition freed_at (l : list event) : list Z :=
  omap (fun e => match e with EvFreeAlpha i => Some i | _ => None end) l.

(** The cuts handed to [add_cut], oldest first. *)
Definition cuts_added (l : list event) : list BendersOptimalityCut :=
  omap (fun e => match e with EvAddCut c => Some c | _ => None end) l.

(** The incumbents of the rows, oldest first. *)
Definition incumbents (l : list event) : list Q :=
  omap (fun e => match e with EvRow _ _ _ inc _ => Some inc | _ => None end) l.

(** [b] is at least as good an incumbent as [a]: not larger under
    minimize, not smaller under maximize. *)
Definition no_worse_incumbent (s : sense) (a b : Q) : Prop :=
  match s with
  | minimize => b <= a
  | maximize => a <= b
  end.

(** The iterations [first], [first + 1], ... ([k] of them). *)
Definition iterations (first : Z) (k : nat) : list Z :=
  map (fun j => (first + Z.of_nat j)%Z) (seq 0 k).

(** How many bundles of the tree hold the scenario: the value of [found]
    when the loop of [EXTERNAL_collect_cut_data] ends. *)
Definition bundles_holding (t : ScenarioTree) (name : string) : nat :=
  length (filter (fun b => name ∈ bundle_scenario_names b) (_scenario_bundles t)).

(** The iterations that stored their solution as the incumbent's. *)
Definition cached_at (l : list event) : list Z :=
  omap (fun e => match e with EvCacheSolutions i => Some i | _ => None end) l.

(** The invariant of the loop entered at iteration [i], for the incumbents:
    the objective history holds only keys below [i]; the incumbents logged
    so far are sorted; the last of them is the state's incumbent, the best
    entry of the history and no worse than any logged before; before the
    first row the history is empty and the incumbent is the infinite
    starting value. *)
Definition incumbents_sorted (s : sense) (i : Z) (st : BendersState) : Prop :=
  _objective_sense (_ph st) = s /\
  Forall (fun k => (k < i)%Z) (keys (OBJECTIVE_history st)) /\
  StronglySorted (no_worse_incumbent s) (incumbents (log st)) /\
  match last (incumbents (log st)) with
  | Some inc =>
      incumbent_objective st = Fin inc /\
      best_incumbent s (OBJECTIVE_history st) = Some inc /\
      Forall (fun b => no_worse_incumbent s b inc) (incumbents (log st))
  | None =>
      OBJECTIVE_history st = [] /\
      incumbent_objective st = (if sense_eqb s minimize then PosInf else NegInf)
  end.

(** The rows of a log: iteration and incumbent, oldest first. *)
Definition rows (l : list event) : list (Z * Q) :=
  omap (fun e => match e with EvRow i _ _ inc _ => Some (i, inc) | _ => None end) l.

(** The test of lines 1475-1480: [incumbent_objective < incumbent_objective_prev]
    under minimize, [>] under maximize. *)
Definition improves (s : sense) (incumbent : Q) (incumbent_prev : xnum) : bool :=
  if sense_eqb s minimize then xltb (Fin incumbent) incumbent_prev
  else xltb incumbent_prev (Fin incumbent).


(** ** A forwarding method [solve] does not call *)

Definition EXTERNAL_deactivate_fix_constraints (ph : ProgressiveHedging) (scenario : Scenario)
  : option ProgressiveHedging :=
  if benders_asserts ph scenario then
    Some (mkPH (_scenario_tree ph) (_objective_sense ph) (solution ph) (root_xbars ph)
               (relax_integrality ph) (firststage_cost_active ph) (initialized_for_benders ph)
               false (fix_values ph) (_current_iteration ph) (incumbent_cache ph))
  else None.

Definition deactivate_fix_constraints (ph : ProgressiveHedging) : option ProgressiveHedging :=
  for_scenarios EXTERNAL_deactivate_fix_constraints (_scenarios (_scenario_tree ph)) ph.

(** ** Further instances

    Variations of the small instance: a negative tolerance, a scenario of
    probability zero, and subproblems already initialized for Benders. *)

Module Cases.
Import Example.

Definition negative_options : Options :=
  mkOptions 3 (-1 # 10) 1 None false None 30.

Definition zero_scenario : Scenario := mkScenario "s0" 0.

Definition zero_ph : ProgressiveHedging :=
  ph_of (mkTree stages [zero_scenario] [] [1%positive]) minimize.

Definition ready_ph : ProgressiveHedging :=
  mkPH tree minimize sol ∅ false true true false ∅ 0 None.

Definition ready_bundled_ph : ProgressiveHedging :=
  mkPH bundled_tree minimize sol ∅ false true true false ∅ 0 None.

Definition trial_point : gmap var_id Q := {[ 1%positive := 5 ]}.

End Cases.

(** * Properties *)

(** ** The gap *)

Lemma eps_pos : 0 < eps.
Proof. reflexivity. Qed.

Lemma gap_denominator_pos (i : Q) : 0 < eps + Qabs i.
Proof. pose proof (Qabs_nonneg i). pose proof eps_pos. lra. Qed.

Lemma optimality_gap_nonneg (b i : Q) : 0 <= optimality_gap b i.
Proof.
  unfold optimality_gap, Qdiv.
  apply Qmult_le_0_compat; [apply Qabs_nonneg|].
  apply Qinv_le_0_compat, Qlt_le_weak, gap_denominator_pos.
Qed.

Lemma Qabs_zero_iff (x : Q) : Qabs x == 0 <-> x == 0.
Proof.
  split; intros H.
  - pose proof (Qle_Qabs x). pose proof (Qle_Qabs (- x)).
    rewrite Qabs_opp in *. lra.
  - rewrite H. reflexivity.
Qed.

Lemma optimality_gap_zero_iff (b i : Q) : optimality_gap b i == 0 <-> b == i.
Proof.
  unfold optimality_gap, Qdiv. pose proof (gap_denominator_pos i) as Hd.
  split; intros H.
  - apply Qmult_integral in H. destruct H as [H|H].
    + apply (proj1 (Qabs_zero_iff _)) in H. lra.
    + apply Qinv_lt_0_compat in Hd. rewrite H in Hd. discriminate Hd.
  - assert (Hz : b - i == 0) by lra.
    apply (proj2 (Qabs_zero_iff _)) in Hz. rewrite Hz. ring.
Qed.

(** C4.  The gap is [|bestBound - bestIncumbent| / (1e-10 + |bestIncumbent|)];
    for every bound and every incumbent it is not negative, and it is zero
    exactly when the best bound equals the best incumbent. *)
Theorem gap_formula_nonneg_zero (b : xnum) (b' i : Q) :
  gap (Fin b') i = Fin (Qabs (b' - i) / ((1 # 10000000000) + Qabs i)) /\
  xle (Fin 0) (gap b i) /\
  (xeq (gap b i) (Fin 0) <-> xeq b (Fin i)).
Proof.
  split; [reflexivity|]. destruct b as [|q|]; simpl.
  - tauto.
  - split; [apply optimality_gap_nonneg | apply optimality_gap_zero_iff].
  - tauto.
Qed.

Lemma dict_get_set {V} (k : Z) (v : V) (d : dict V) :
  dict_get k (dict_set k v d) = Some v.
Proof.
  induction d as [|[k' v'] d IH]; simpl.
  - rewrite Z.eqb_refl. reflexivity.
  - destruct (k' =? k)%Z eqn:E; simpl.
    + rewrite Z.eqb_refl. reflexivity.
    + rewrite E. exact IH.
Qed.

Lemma xleb_xle (a b : xnum) : xleb a b = true <-> xle a b.
Proof.
  destruct a, b; simpl; try tauto; try (split; [discriminate|tauto]).
  apply Qle_bool_iff.
Qed.


(** *** Order facts on extended numbers *)

Lemma Qltb_true (x y : Q) : Qltb x y = true -> x < y.
Proof.
  unfold Qltb. intros H. apply negb_true_iff in H.
  apply Qnot_le_lt. intros Hle. apply Qle_bool_iff in Hle. congruence.
Qed.

Lemma Qltb_false (x y : Q) : Qltb x y = false -> y <= x.
Proof.
  unfold Qltb. intros H. apply negb_false_iff in H. apply Qle_bool_iff. exact H.
Qed.

Lemma xle_refl (a : xnum) : xle a a.
Proof. destruct a; simpl; auto. apply Qle_refl. Qed.

Lemma xle_trans (a b c : xnum) : xle a b -> xle b c -> xle a c.
Proof.
  destruct a, b, c; simpl; try tauto. apply Qle_trans.
Qed.

Lemma xltb_true_le (a b : xnum) : xltb a b = true -> xle a b.
Proof.
  destruct a, b; simpl; try discriminate; auto.
  intros H. apply Qlt_le_weak, Qltb_true, H.
Qed.

Lemma xltb_false_le (a b : xnum) : xltb a b = false -> xle b a.
Proof.
  destruct a, b; simpl; try discriminate; auto. apply Qltb_false.
Qed.

Lemma no_worse_refl s a : no_worse s a a.
Proof. destruct s; apply xle_refl. Qed.

Lemma no_worse_trans s a b c : no_worse s a b -> no_worse s b c -> no_worse s a c.
Proof. destruct s; simpl; eauto using xle_trans. Qed.

(** *** Python's max and min return a bound of the list that is in it *)

Lemma fold_max_spec (r : list xnum) (x : xnum) :
  let m := fold_left (fun m y => if xltb m y then y else m) r x in
  In m (x :: r) /\ Forall (fun v => xle v m) (x :: r).
Proof.
  revert x. induction r as [|y r IH]; intros x; simpl.
  - split; [auto|]. constructor; [apply xle_refl|constructor].
  - destruct (xltb x y) eqn:E.
    + destruct (IH y) as [Hin Hall]. split.
      * simpl in Hin. tauto.
      * inversion Hall as [|? ? Hy Hr]; subst. constructor; [|constructor; assumption].
        eapply xle_trans; [apply xltb_true_le, E|exact Hy].
    + destruct (IH x) as [Hin Hall]. split.
      * simpl in Hin. tauto.
      * inversion Hall as [|? ? Hx Hr]; subst. constructor; [assumption|].
        constructor; [|assumption].
        eapply xle_trans; [apply xltb_false_le, E|exact Hx].
Qed.

Lemma fold_min_spec (r : list xnum) (x : xnum) :
  let m := fold_left (fun m y => if xltb y m then y else m) r x in
  In m (x :: r) /\ Forall (fun v => xle m v) (x :: r).
Proof.
  revert x. induction r as [|y r IH]; intros x; simpl.
  - split; [auto|]. constructor; [apply xle_refl|constructor].
  - destruct (xltb y x) eqn:E.
    + destruct (IH y) as [Hin Hall]. split.
      * simpl in Hin. tauto.
      * inversion Hall as [|? ? Hy Hr]; subst. constructor; [|constructor; assumption].
        eapply xle_trans; [exact Hy|apply xltb_true_le, E].
    + destruct (IH x) as [Hin Hall]. split.
      * simpl in Hin. tauto.
      * inversion Hall as [|? ? Hx Hr]; subst. constructor; [assumption|].
        constructor; [|assumption].
        eapply xle_trans; [exact Hx|apply xltb_false_le, E].
Qed.

Lemma best_bound_spec s h b :
  best_bound s h = Some b ->
  In b (values h) /\ Forall (fun v => no_worse s v b) (values h).
Proof.
  unfold best_bound, py_max, py_min.
  destruct s; simpl; destruct (values h) as [|x r]; try discriminate;
    intros [= <-]; [apply fold_max_spec|apply fold_min_spec].
Qed.

Lemma best_bound_is_Some s h : h <> [] -> is_Some (best_bound s h).
Proof.
  unfold best_bound, py_max, py_min, values. destruct h; [congruence|].
  intros _. destruct s; simpl; eauto.
Qed.

(** *** Recording under a fresh key appends *)

Lemma dict_set_fresh {V} (k : Z) (v : V) (d : dict V) :
  ~ In k (keys d) -> dict_set k v d = d ++ [(k, v)].
Proof.
  induction d as [|[k' v'] d IH]; simpl; intros Hk; [reflexivity|].
  destruct (k' =? k)%Z eqn:E.
  - apply Z.eqb_eq in E. tauto.
  - rewrite IH by tauto. reflexivity.
Qed.

Lemma best_bound_record s h i v b b' :
  ~ In i (keys h) ->
  best_bound s h = Some b ->
  best_bound s (dict_set i v h) = Some b' ->
  no_worse s b b'.
Proof.
  intros Hi Hb Hb'. rewrite dict_set_fresh in Hb' by assumption.
  apply best_bound_spec in Hb, Hb'. destruct Hb as [Hin _]. destruct Hb' as [_ Hall].
  rewrite Forall_forall in Hall. apply Hall.
  unfold values in *. rewrite map_app. apply elem_of_app. left.
  apply list_elem_of_In. exact Hin.
Qed.

Lemma keys_dict_set {V} (P : Z -> Prop) (k : Z) (v : V) (d : dict V) :
  P k -> Forall P (keys d) -> Forall P (keys (dict_set k v d)).
Proof.
  intros Hk. induction d as [|[k' v'] d IH]; simpl; intros Hd.
  - constructor; [exact Hk|constructor].
  - inversion Hd; subst. destruct (k' =? k)%Z; simpl; constructor; auto.
Qed.

Lemma StronglySorted_snoc {A} (R : A -> A -> Prop) (l : list A) (x : A) :
  StronglySorted R l -> Forall (fun y => R y x) l -> StronglySorted R (l ++ [x]).
Proof.
  induction 1 as [|a l Hs IH Ha]; simpl; intros Hx.
  - constructor; constructor.
  - inversion Hx; subst. constructor; [auto|].
    apply Forall_app. split; [exact Ha|]. constructor; [assumption|constructor].
Qed.

Lemma best_bounds_app (a b : list event) :
  best_bounds (a ++ b) = best_bounds a ++ best_bounds b.
Proof. unfold best_bounds. apply omap_app. Qed.

(** Recording under a fresh key never worsens the best bound. *)
Corollary best_bound_record_fresh s (h : dict xnum) i v b b' :
  Forall (fun k => (k < i)%Z) (keys h) ->
  best_bound s h = Some b ->
  best_bound s (dict_set i v h) = Some b' ->
  no_worse s b b'.
Proof.
  intros Hk. apply best_bound_record. intros Hin.
  rewrite Forall_forall in Hk. apply list_elem_of_In, Hk in Hin. lia.
Qed.

(** Line 1375 takes the maximum over the keys of the history, not over its
    values: under minimize it is the key 0 whatever the seeded bounds are. *)
Remark first_master_bound_is_a_key options trivial_bound :
  first_master_bound minimize (initial_bound_history minimize options trivial_bound) = Some 0%Z.
Proof. reflexivity. Qed.

(** ** The loop and the run *)

(** *** The per-scenario loops leave the problem as it is *)

Lemma same_problem_refl ph : same_problem ph ph.
Proof. repeat split. Qed.

Lemma same_problem_trans a b c : same_problem a b -> same_problem b c -> same_problem a c.
Proof.
  intros (H1 & H2 & H3 & H4) (G1 & G2 & G3 & G4). repeat split; congruence.
Qed.

Lemma for_scenarios_same f (scs : list Scenario) :
  (forall ph s ph', f ph s = Some ph' -> same_problem ph' ph) ->
  forall ph ph', for_scenarios f scs ph = Some ph' -> same_problem ph' ph.
Proof.
  intros Hf. induction scs as [|s scs IH]; simpl; intros ph ph' H.
  - injection H as <-. apply same_problem_refl.
  - destruct (f ph s) as [ph1|] eqn:E; simpl in H; [|discriminate].
    eapply same_problem_trans; [apply IH, H|apply (Hf _ _ _ E)].
Qed.

Lemma initialize_for_benders_same ph ph' :
  initialize_for_benders ph = Some ph' -> same_problem ph' ph.
Proof.
  apply for_scenarios_same. unfold EXTERNAL_initialize_for_benders. intros a s b H.
  destruct (benders_asserts a s); [|discriminate]. injection H as <-. repeat split.
Qed.

Lemma deactivate_firststage_cost_same ph ph' :
  deactivate_firststage_cost ph = Some ph' -> same_problem ph' ph.
Proof.
  apply for_scenarios_same. unfold EXTERNAL_deactivate_firststage_cost. intros a s b H.
  destruct (benders_asserts a s); [|discriminate]. injection H as <-. repeat split.
Qed.

Lemma activate_fix_constraints_same ph ph' :
  activate_fix_constraints ph = Some ph' -> same_problem ph' ph.
Proof.
  apply for_scenarios_same. unfold EXTERNAL_activate_fix_constraints. intros a s b H.
  destruct (benders_asserts a s); [|discriminate]. injection H as <-. repeat split.
Qed.

Lemma update_fix_constraints_same x ph ph' :
  update_fix_constraints x ph = Some ph' -> same_problem ph' ph.
Proof.
  apply for_scenarios_same. unfold EXTERNAL_update_fix_constraints. intros a s b H.
  destruct (benders_asserts a s); [|discriminate]. injection H as <-. repeat split.
Qed.

Section SolveFacts.
Variable ph_solve_subproblems : ProgressiveHedging -> option SubSolution.
Variable master_solver_solve : Master -> bool -> option MasterResult.
Variable warm_start_capable : bool.
Variable options : Options.

Abbreviation benders_iteration :=
  (benders_iteration ph_solve_subproblems master_solver_solve warm_start_capable options).
Abbreviation benders_loop :=
  (benders_loop ph_solve_subproblems master_solver_solve warm_start_capable options).
Abbreviation generate_cut := (generate_cut ph_solve_subproblems).

Abbreviation warmstart_flag := (use_warmstart warm_start_capable options).
Abbreviation entered st := (enter_iteration (_ph st)).

#[local] Arguments add_cut : simpl never.

Lemma benders_iteration_inv i st st' c :
  benders_iteration i st = Some (st', c) ->
  exists res master1 log1 cutinfo ph1 recourse best inc,
    let s := _objective_sense (_ph st) in
    let cmb := current_master_bound_of s res in
    let cur := cmb - master_alpha_value res + recourse in
    let improved :=
      if sense_eqb s minimize then xltb (Fin inc) (incumbent_objective st)
      else xltb (incumbent_objective st) (Fin inc) in
    let ph2 := if improved then cacheSolutions ph1 else ph1 in
    master_solver_solve (_master st) warmstart_flag = Some res /\
    (if alpha_fixed (_master st)
     then i = 1%Z /\ master1 = free_alpha (_master st)
          /\ log1 = [EvSolveMaster i; EvFreeAlpha i]
     else master1 = _master st /\ log1 = [EvSolveMaster i]) /\
    generate_cut (entered st) (extract_master_xbars res (entered st)) = Some (cutinfo, ph1) /\
    expected_ssc (cut_ssc cutinfo) (_scenarios (_scenario_tree ph1)) 0 = Some recourse /\
    best_bound s (dict_set i (Fin cmb) (MASTER_bound_history st)) = Some best /\
    best_incumbent s (dict_set i cur (OBJECTIVE_history st)) = Some inc /\
    c = xleb (gap best inc) (Fin (percent_gap options)) /\
    MASTER_bound_history st' = dict_set i (Fin cmb) (MASTER_bound_history st) /\
    OBJECTIVE_history st' = dict_set i cur (OBJECTIVE_history st) /\
    incumbent_objective st' = Fin inc /\
    _ph st' = ph2 /\
    log st' = (log st ++ log1 ++ [EvGenerateCut (extract_master_xbars res (entered st))]
                ++ (if improved then [EvCacheSolutions i] else [])
                ++ [EvRow i cmb best inc (gap best inc)])
              ++ [if c then EvConverged i else EvAddCut cutinfo] /\
    (if c then _master st' = master1
     else add_cut master1 ph2 cutinfo false = Some (_master st')).
Proof.
  unfold Benders.benders_iteration. intros H.
  destruct (master_solver_solve (_master st) warmstart_flag) as [res|] eqn:Hres;
    simpl in H; [|discriminate].
  set (pre := if alpha_fixed (_master st) then _ else _) in H.
  destruct pre as [[master1 log1]|] eqn:Hpre; simpl in H; [|discriminate].
  destruct (generate_cut _ _) as [[cutinfo ph1]|] eqn:Hgen; simpl in H; [|discriminate].
  destruct (expected_ssc _ _ _) as [recourse|] eqn:Hrec; simpl in H; [|discriminate].
  destruct (best_bound _ _) as [best|] eqn:Hbest; simpl in H; [|discriminate].
  destruct (best_incumbent _ _) as [inc|] eqn:Hinc; simpl in H; [|discriminate].
  exists res, master1, log1, cutinfo, ph1, recourse, best, inc. cbv zeta.
  split; [reflexivity|]. split.
  { subst pre. destruct (alpha_fixed (_master st)).
    - destruct (i =? 1)%Z eqn:Ei; [|discriminate].
      apply Z.eqb_eq in Ei. injection Hpre as <- <-. auto.
    - injection Hpre as <- <-. auto. }
  split; [exact Hgen|]. split; [exact Hrec|]. split; [exact Hbest|]. split; [exact Hinc|].
  destruct (xleb (gap best inc) (Fin (percent_gap options))) eqn:Hc.
  - simpl in H. injection H as H1 H2. subst st' c. simpl. repeat split; reflexivity.
  - simpl in H.
    match type of H with
    | context [add_cut ?a ?b ?c ?d] => destruct (add_cut a b c d) as [master2|] eqn:Hadd
    end; simpl in H; [|discriminate].
    injection H as H1 H2. subst st' c. simpl. repeat split; try reflexivity. exact Hadd.
Qed.


(** C10.  When the master solve of iteration [i] reports a gap, the bound
    recorded under key [i] of the bound history is the master objective
    value minus that gap under minimize and plus that gap under maximize;
    when no gap is reported it is the master objective value itself. *)
Theorem recorded_bound_subtracts_reported_gap i st st' c res :
  master_solver_solve (_master st) warmstart_flag = Some res ->
  benders_iteration i st = Some (st', c) ->
  dict_get i (MASTER_bound_history st') =
    Some (Fin (match solution_gap res, _objective_sense (_ph st) with
               | Some g, minimize => master_objective_value res - g
               | Some g, maximize => master_objective_value res + g
               | None, _ => master_objective_value res
               end)).
Proof.
  intros Hres H. apply benders_iteration_inv in H.
  destruct H as (res' & master1 & log1 & cutinfo & ph1 & recourse & best & inc & H).
  cbv zeta in H. destruct H as (Hres' & _ & _ & _ & _ & _ & _ & Hh & _).
  rewrite Hres in Hres'. injection Hres' as <-.
  rewrite Hh, dict_get_set. unfold current_master_bound_of.
  destruct (solution_gap res), (_objective_sense (_ph st)); reflexivity.
Qed.


Lemma add_cut_aggregate_inv m ph benders_cut m' :
  add_cut m ph benders_cut false = Some m' ->
  exists e,
    cut_expression_loop ph benders_cut (scenario_names (_scenario_tree ph)) (EConst 0) = Some e /\
    m' = append_cut (sense_cut (_objective_sense ph) (ESub e EAlpha)) m.
Proof.
  unfold add_cut. intros H.
  destruct (cut_expression_loop _ _ _ _) as [e|]; simpl in H; [|discriminate].
  injection H as <-. exists e. split; reflexivity.
Qed.

(** C8.  An iteration leaves the loop without touching the cut pool exactly
    when its gap is within the tolerance; otherwise the aggregate cut of the
    cut data generated in that iteration is appended to the pool and the
    loop goes on with the next iteration. *)
Theorem cut_added_unless_converged i st st' converged :
  benders_iteration i st = Some (st', converged) ->
  exists best inc,
    best_bound (_objective_sense (_ph st)) (MASTER_bound_history st') = Some best /\
    incumbent_objective st' = Fin inc /\
    (converged = true <-> xle (gap best inc) (Fin (percent_gap options))) /\
    (forall n, benders_loop (S n) i st =
               if converged then Some st' else benders_loop n (i + 1) st') /\
    (if converged
     then PYSP_BENDERS_CUTS (_master st') = PYSP_BENDERS_CUTS (_master st)
     else exists res cutinfo ph1 e,
         master_solver_solve (_master st) warmstart_flag = Some res /\
         generate_cut (entered st) (extract_master_xbars res (entered st))
           = Some (cutinfo, ph1) /\
         cut_expression_loop (_ph st') cutinfo
           (scenario_names (_scenario_tree (_ph st'))) (EConst 0) = Some e /\
         PYSP_BENDERS_CUTS (_master st') =
           PYSP_BENDERS_CUTS (_master st)
             ++ [sense_cut (_objective_sense (_ph st')) (ESub e EAlpha)]).
Proof.
  intros H. pose proof H as Hinv. apply benders_iteration_inv in Hinv.
  destruct Hinv as (res & master1 & log1 & cutinfo & ph1 & recourse & best & inc & Hinv).
  cbv zeta in Hinv.
  destruct Hinv as (Hres & Hpre & Hgen & _ & Hbest & _ & Hc & Hh & _ & Hi & Hph & _ & Hm).
  exists best, inc. rewrite Hh. split; [exact Hbest|]. split; [exact Hi|].
  split; [rewrite Hc; apply xleb_xle|].
  split; [intros n; simpl; rewrite H; reflexivity|].
  assert (Hcuts : PYSP_BENDERS_CUTS master1 = PYSP_BENDERS_CUTS (_master st)).
  { destruct (alpha_fixed (_master st)).
    - destruct Hpre as (_ & -> & _). reflexivity.
    - destruct Hpre as (-> & _). reflexivity. }
  destruct converged.
  - rewrite Hm. exact Hcuts.
  - rewrite <- Hph in Hm. apply add_cut_aggregate_inv in Hm. destruct Hm as (e & He & Hm').
    exists res, cutinfo, ph1, e. repeat split; try assumption.
    rewrite Hm'. simpl. rewrite Hcuts. reflexivity.
Qed.

(** *** What an iteration preserves *)

Lemma generate_cut_static ph x benders_cut ph' :
  generate_cut ph x = Some (benders_cut, ph') ->
  _scenario_tree ph' = _scenario_tree ph /\
  _objective_sense ph' = _objective_sense ph /\
  cut_xbars benders_cut = x.
Proof.
  unfold Benders.generate_cut, solve_subproblems. intros H.
  destruct (update_fix_constraints x ph) as [ph0|] eqn:H0; simpl in H; [|discriminate].
  apply update_fix_constraints_same in H0. destruct H0 as (Ht & Hs & _).
  destruct (ph_solve_subproblems _) as [sol|]; simpl in H; [|discriminate].
  destruct (collect_cut_data _) as [cd|]; simpl in H; [|discriminate].
  injection H as <- <-. auto.
Qed.

Lemma benders_iteration_sense i st st' c :
  benders_iteration i st = Some (st', c) ->
  _objective_sense (_ph st') = _objective_sense (_ph st).
Proof.
  intros H. apply benders_iteration_inv in H.
  destruct H as (res & master1 & log1 & cutinfo & ph1 & recourse & best & inc & H).
  cbv zeta in H. destruct H as (_ & _ & Hgen & _ & _ & _ & _ & _ & _ & _ & Hph & _).
  apply generate_cut_static in Hgen. destruct Hgen as (_ & Hs & _).
  rewrite Hph. destruct (if sense_eqb _ _ then _ else _); simpl; exact Hs.
Qed.

Lemma benders_iteration_rows i st st' c :
  benders_iteration i st = Some (st', c) ->
  exists v best,
    MASTER_bound_history st' = dict_set i v (MASTER_bound_history st) /\
    best_bound (_objective_sense (_ph st)) (MASTER_bound_history st') = Some best /\
    best_bounds (log st') = best_bounds (log st) ++ [best].
Proof.
  intros H. apply benders_iteration_inv in H.
  destruct H as (res & master1 & log1 & cutinfo & ph1 & recourse & best & inc & H).
  cbv zeta in H.
  destruct H as (_ & Hpre & _ & _ & Hbest & _ & _ & Hh & _ & _ & _ & Hlog & _).
  eexists _, best. split; [exact Hh|]. rewrite Hh. split; [exact Hbest|].
  rewrite Hlog, !best_bounds_app.
  assert (Hl1 : best_bounds log1 = []).
  { destruct (alpha_fixed (_master st)).
    - destruct Hpre as (_ & _ & ->). reflexivity.
    - destruct Hpre as (_ & ->). reflexivity. }
  rewrite Hl1.
  destruct (if sense_eqb _ _ then _ else _); destruct c; simpl;
    rewrite ?app_nil_r; reflexivity.
Qed.

Lemma benders_iteration_log i st st' c :
  benders_iteration i st = Some (st', c) ->
  exists ext,
    log st' = log st ++ EvSolveMaster i
                :: (if alpha_fixed (_master st) then [EvFreeAlpha i] else []) ++ ext.
Proof.
  intros H. apply benders_iteration_inv in H.
  destruct H as (res & master1 & log1 & cutinfo & ph1 & recourse & best & inc & H).
  cbv zeta in H.
  destruct H as (_ & Hpre & _ & _ & _ & _ & _ & _ & _ & _ & _ & Hlog & _).
  rewrite Hlog. destruct (alpha_fixed (_master st)).
  - destruct Hpre as (_ & _ & ->). eexists. rewrite <- !app_assoc. simpl. reflexivity.
  - destruct Hpre as (_ & ->). eexists. rewrite <- !app_assoc. simpl. reflexivity.
Qed.

Lemma add_cut_alpha_fixed m ph benders_cut m' :
  add_cut m ph benders_cut false = Some m' -> alpha_fixed m' = alpha_fixed m.
Proof.
  intros H. apply add_cut_aggregate_inv in H. destruct H as (e & _ & ->). reflexivity.
Qed.

Lemma benders_iteration_frees_alpha i st st' c :
  benders_iteration i st = Some (st', c) -> alpha_fixed (_master st') = false.
Proof.
  intros H. apply benders_iteration_inv in H.
  destruct H as (res & master1 & log1 & cutinfo & ph1 & recourse & best & inc & H).
  cbv zeta in H.
  destruct H as (_ & Hpre & _ & _ & _ & _ & _ & _ & _ & _ & _ & _ & Hm).
  assert (H1 : alpha_fixed master1 = false).
  { destruct (alpha_fixed (_master st)) eqn:E.
    - destruct Hpre as (_ & -> & _). reflexivity.
    - destruct Hpre as (-> & _). exact E. }
  destruct c.
  - rewrite Hm. exact H1.
  - apply add_cut_alpha_fixed in Hm. congruence.
Qed.

(** *** The loop keeps the rows sorted *)

Lemma rows_sorted_step s seeds i st st' c :
  benders_iteration i st = Some (st', c) ->
  rows_sorted s seeds i st -> rows_sorted s seeds (i + 1) st'.
Proof.
  intros H (Hs & Hk & Hseeds & Hdom & cb & Hcb & Hall & Hsorted).
  pose proof (benders_iteration_sense _ _ _ _ H) as Hs'.
  apply benders_iteration_rows in H. destruct H as (v & best & Hh & Hbest & Hrows).
  rewrite Hs in *.
  assert (Hfresh : ~ In i (keys (MASTER_bound_history st))).
  { intros Hin. rewrite Forall_forall in Hk. apply list_elem_of_In, Hk in Hin. lia. }
  assert (Hseeds' : forall v, In v seeds -> In v (values (MASTER_bound_history st'))).
  { intros w Hw. rewrite Hh, dict_set_fresh by exact Hfresh.
    unfold values. rewrite map_app. apply in_or_app. left. apply Hseeds, Hw. }
  split; [exact Hs'|]. split.
  { rewrite Hh. apply keys_dict_set; [lia|].
    eapply Forall_impl; [exact Hk|]. simpl. intros; lia. }
  split; [exact Hseeds'|].
  assert (Hstep : no_worse s cb best).
  { rewrite Hh in Hbest. eapply best_bound_record; [exact Hfresh|exact Hcb|exact Hbest]. }
  assert (Hall' : Forall (fun b => no_worse s b best) (best_bounds (log st))).
  { eapply Forall_impl; [exact Hall|]. simpl. intros b Hb.
    eapply no_worse_trans; eassumption. }
  rewrite Hrows. split.
  { apply Forall_app. split; [exact Hdom|]. constructor; [|constructor].
    intros w Hw. apply best_bound_spec in Hbest. destruct Hbest as [_ Hub].
    rewrite Forall_forall in Hub. apply Hub, list_elem_of_In, Hseeds', Hw. }
  exists best. split; [exact Hbest|]. split.
  - apply Forall_app. split; [exact Hall'|].
    constructor; [apply no_worse_refl|constructor].
  - apply StronglySorted_snoc; assumption.
Qed.

Lemma benders_loop_rows_sorted s seeds n : forall i st final,
  benders_loop n i st = Some final ->
  rows_sorted s seeds i st ->
  exists j, rows_sorted s seeds j final.
Proof.
  induction n as [|n IH]; simpl; intros i st final H Hinv.
  - injection H as <-. eauto.
  - destruct (benders_iteration i st) as [[st' c]|] eqn:Hit; simpl in H; [|discriminate].
    pose proof (rows_sorted_step _ _ _ _ _ _ Hit Hinv) as Hinv'.
    destruct c.
    + injection H as <-. eauto.
    + eapply IH; eassumption.
Qed.

Lemma benders_loop_log n : forall i st final,
  benders_loop n i st = Some final ->
  exists ext, log final = log st ++ ext.
Proof.
  induction n as [|n IH]; simpl; intros i st final H.
  - injection H as <-. exists []. rewrite app_nil_r. reflexivity.
  - destruct (benders_iteration i st) as [[st' c]|] eqn:Hit; simpl in H; [|discriminate].
    apply benders_iteration_log in Hit. destruct Hit as (ext & Hext). destruct c.
    + injection H as <-. eexists. exact Hext.
    + apply IH in H. destruct H as (ext' & Hext'). rewrite Hext', Hext.
      eexists. rewrite <- app_assoc. reflexivity.
Qed.

Lemma benders_loop_first n i st final :
  benders_loop (S n) i st = Some final ->
  alpha_fixed (_master final) = false /\
  exists ext,
    log final = log st ++ EvSolveMaster i
                  :: (if alpha_fixed (_master st) then [EvFreeAlpha i] else []) ++ ext.
Proof.
  simpl. intros H.
  destruct (benders_iteration i st) as [[st' c]|] eqn:Hit; simpl in H; [|discriminate].
  pose proof (benders_iteration_frees_alpha _ _ _ _ Hit) as Hfree.
  apply benders_iteration_log in Hit. destruct Hit as (ext & Hext). destruct c.
  - injection H as <-. split; [exact Hfree|]. eexists. exact Hext.
  - split.
    + clear Hext. revert H Hfree. generalize (i + 1)%Z. generalize st'.
      induction n as [|n IH]; simpl; intros st1 j H Hfree.
      * injection H as <-. exact Hfree.
      * destruct (benders_iteration j st1) as [[st2 c]|] eqn:Hit; simpl in H; [|discriminate].
        apply benders_iteration_frees_alpha in Hit. destruct c.
        -- injection H as <-. exact Hit.
        -- eapply IH; eassumption.
    + apply benders_loop_log in H. destruct H as (ext' & Hext'). rewrite Hext', Hext.
      eexists. rewrite <- app_assoc. simpl. rewrite <- app_assoc. reflexivity.
Qed.

(** *** The whole run *)

Abbreviation solve :=
  (solve ph_solve_subproblems master_solver_solve warm_start_capable options).
Abbreviation seed_cut := (seed_cut ph_solve_subproblems).
Abbreviation solve_subproblems := (solve_subproblems ph_solve_subproblems).

Lemma solve_subproblems_static ph ph' :
  solve_subproblems ph = Some ph' ->
  ph' = set_solution (solution ph') ph.
Proof.
  unfold Benders.solve_subproblems. intros H.
  destruct (ph_solve_subproblems ph) as [sol|]; simpl in H; [|discriminate].
  injection H as <-. reflexivity.
Qed.

Lemma seed_cut_inv m ph m1 ph1 seed_log :
  seed_cut m ph = Some (m1, ph1, seed_log) ->
  _objective_sense ph1 = _objective_sense ph /\
  best_bounds seed_log = [] /\
  if alpha_fixed m
  then m1 = m /\ ph1 = ph /\ seed_log = []
  else exists benders_cut,
      generate_cut ph (root_xbars ph) = Some (benders_cut, ph1) /\
      add_cut m ph1 benders_cut false = Some m1 /\
      seed_log = [EvGenerateCut (root_xbars ph); EvAddCut benders_cut].
Proof.
  unfold Benders.seed_cut. intros H. destruct (alpha_fixed m); simpl in H.
  - injection H as <- <- <-. auto.
  - destruct (generate_cut ph (root_xbars ph)) as [[benders_cut ph']|] eqn:Hgen;
      simpl in H; [|discriminate].
    destruct (add_cut m ph' benders_cut false) as [m'|] eqn:Hadd; simpl in H; [|discriminate].
    injection H as <- <- <-.
    pose proof (generate_cut_static _ _ _ _ Hgen) as (_ & Hs & _).
    split; [exact Hs|]. split; [reflexivity|]. exists benders_cut. auto.
Qed.

Lemma solve_inv m ph final :
  solve m ph = Some final ->
  exists ph1 ph3 m1 ph4 seed_log st,
    solve_subproblems (set_relax_integrality true ph) = Some ph1 /\
    same_problem ph3 (set_root_xbars (scenario_average (solution ph1)) ph1) /\
    seed_cut m ph3 = Some (m1, ph4, seed_log) /\
    benders_loop (Z.to_nat (max_iterations options)) 1
      (mkState m1 (set_current_iteration 1 ph4)
         (initial_bound_history (_objective_sense ph) options (trivial_bound_of ph1))
         []
         (if sense_eqb (_objective_sense ph) minimize then PosInf else NegInf)
         (EvTrivialBound (trivial_bound_of ph1) :: seed_log)) = Some st /\
    _master final = _master st /\
    log final = log st ++ [EvRestore].
Proof.
  unfold Benders.solve. intros H.
  destruct (solve_subproblems _) as [ph1|] eqn:H1; simpl in H; [|discriminate].
  destruct (initialize_for_benders _) as [pa|] eqn:Ha; simpl in H; [|discriminate].
  destruct (deactivate_firststage_cost pa) as [pb|] eqn:Hb; simpl in H; [|discriminate].
  destruct (activate_fix_constraints pb) as [ph3|] eqn:Hc; simpl in H; [|discriminate].
  destruct (seed_cut m ph3) as [[[m1 ph4] seed_log]|] eqn:H2; simpl in H; [|discriminate].
  match type of H with
  | context [benders_loop ?n ?i ?s] => destruct (benders_loop n i s) as [st|] eqn:H3
  end; simpl in H; [|discriminate].
  injection H as <-. exists ph1, ph3, m1, ph4, seed_log, st.
  split; [reflexivity|]. split.
  { apply activate_fix_constraints_same in Hc. apply deactivate_firststage_cost_same in Hb.
    apply initialize_for_benders_same in Ha.
    eapply same_problem_trans; [exact Hc|]. eapply same_problem_trans; [exact Hb|].
    eapply same_problem_trans; [exact Ha|]. repeat split. }
  split; [exact H2|]. split; [exact H3|]. split; reflexivity.
Qed.

(** C5.  Along a run the best bounds of successive iterations, each the
    maximum (minimize) or minimum (maximize) over all entries of the bound
    history including the trivial bound under key 0 and the user bound
    under key -1, never get worse: they are non-decreasing under minimize
    and non-increasing under maximize, and none is worse than a seed. *)
Theorem best_bound_monotone m ph final :
  solve m ph = Some final ->
  StronglySorted (no_worse (_objective_sense ph)) (best_bounds (log final)) /\
  exists tb,
    head (log final) = Some (EvTrivialBound tb) /\
    Forall (fun b =>
              no_worse (_objective_sense ph) (Fin tb) b /\
              forall u, user_bound options = Some u ->
                        no_worse (_objective_sense ph) (Fin u) b)
           (best_bounds (log final)).
Proof.
  intros H. apply solve_inv in H.
  destruct H as (ph1 & ph3 & m1 & ph4 & seed_log & st & H).
  destruct H as (H1 & (_ & Hs3 & _) & H2 & H3 & _ & Hlog).
  apply solve_subproblems_static in H1.
  apply seed_cut_inv in H2. destruct H2 as (Hs & Hrows0 & _).
  set (s := _objective_sense ph) in *.
  set (tb := trivial_bound_of ph1) in *.
  set (h0 := initial_bound_history s options tb) in *.
  assert (Hsense : _objective_sense ph4 = s).
  { rewrite Hs, Hs3. simpl. rewrite H1. reflexivity. }
  pose proof (benders_loop_log _ _ _ _ H3) as (ext & Hext). simpl in Hext.
  eapply (benders_loop_rows_sorted s (values h0)) in H3.
  - destruct H3 as (j & _ & _ & _ & Hdom & cb & _ & _ & Hsorted).
    assert (Hbb : best_bounds (log final) = best_bounds (log st)).
    { rewrite Hlog, best_bounds_app. simpl. apply app_nil_r. }
    rewrite Hbb. split; [exact Hsorted|]. exists tb. split.
    + rewrite Hlog, Hext. reflexivity.
    + eapply Forall_impl; [exact Hdom|]. simpl. intros b Hb. split.
      * apply Hb. subst h0. unfold initial_bound_history. simpl. auto.
      * intros u Hu. apply Hb. subst h0. unfold initial_bound_history.
        rewrite Hu. simpl. auto.
  - split; [exact Hsense|]. split.
    { subst h0. unfold initial_bound_history. simpl. repeat constructor. }
    split; [auto|]. simpl. unfold best_bounds in *. simpl. rewrite Hrows0.
    split; [constructor|].
    destruct (best_bound_is_Some s h0) as (cb & Hcb).
    { subst h0. unfold initial_bound_history. simpl. discriminate. }
    exists cb. split; [exact Hcb|]. split; constructor.
Qed.

End SolveFacts.

(** *** Worker acquisition *)

Section RunFacts.
Variable acquire_servers : Z -> option Q -> bool.
Variable ph_solve_subproblems : ProgressiveHedging -> option SubSolution.
Variable master_solver_solve : Master -> bool -> option MasterResult.
Variable warm_start_capable : bool.

(** C9, as the code has it.  The acquisition call carries the configured
    timeout (30 seconds by default) only when the number of workers is
    inferred from the number of scenario or bundle jobs; when the user
    sets the number of workers the call asks for that many with no
    timeout.  In both cases an acquisition that fails ends the run before
    the master is initialized or anything is solved. *)
Theorem acquisition_timeout_only_when_inferred options ph :
  let t := _scenario_tree ph in
  let num_jobs :=
    Z.of_nat (if contains_bundles t then length (_scenario_bundles t)
              else length (_scenarios t)) in
  let servers_expected :=
    match phpyro_required_workers options with Some n => n | None => num_jobs end in
  let timeout :=
    match phpyro_required_workers options with
    | Some _ => None
    | None => Some (phpyro_workers_timeout options)
    end in
  let run := exec_runbenders acquire_servers ph_solve_subproblems master_solver_solve
               warm_start_capable options true ph in
  phpyro_workers_timeout Benders_DefaultOptions = 30 /\
  phpyro_required_workers Benders_DefaultOptions = None /\
  collect_servers t options = (servers_expected, timeout) /\
  head (snd run) = Some (RunAcquireServers servers_expected timeout) /\
  (acquire_servers servers_expected timeout = false ->
   run = (None, [RunAcquireServers servers_expected timeout; RunReleaseServers])).
Proof.
  cbv zeta. split; [reflexivity|]. split; [reflexivity|].
  assert (Hcs : collect_servers (_scenario_tree ph) options =
                (match phpyro_required_workers options with
                 | Some n => n
                 | None => Z.of_nat (if contains_bundles (_scenario_tree ph)
                                     then length (_scenario_bundles (_scenario_tree ph))
                                     else length (_scenarios (_scenario_tree ph)))
                 end,
                 match phpyro_required_workers options with
                 | Some _ => None
                 | None => Some (phpyro_workers_timeout options)
                 end)).
  { unfold collect_servers.
    destruct (phpyro_required_workers options); [reflexivity|].
    destruct (contains_bundles (_scenario_tree ph)); reflexivity. }
  split; [exact Hcs|]. unfold exec_runbenders. rewrite Hcs. split.
  - destruct (acquire_servers _ _); [|reflexivity].
    destruct (initialize options ph); reflexivity.
  - intros ->. reflexivity.
Qed.

End RunFacts.

(** *** Cut data *)

Lemma py_div_nonzero (x y : Q) : ~ y == 0 -> py_div x y = Some (x / y).
Proof.
  intros Hy. unfold py_div. destruct (Qeq_bool y 0) eqn:E; [|reflexivity].
  apply Qeq_bool_iff in E. contradiction.
Qed.

Lemma collect_duals_spec (src : var_id -> option Q) (pb p : Q) (ids : list var_id) :
  ~ p == 0 ->
  (forall v, v ∈ ids -> is_Some (src v)) ->
  forall acc, exists res,
    collect_duals src pb p ids acc = Some res /\
    forall v, res !! v = if decide (v ∈ ids)
                         then (fun d => d * pb / p) <$> src v
                         else acc !! v.
Proof.
  intros Hp. induction ids as [|v0 rest IH]; intros Hsrc acc; cbn [collect_duals].
  - exists acc. split; [reflexivity|]. intros v.
    rewrite decide_False by apply not_elem_of_nil. reflexivity.
  - destruct (Hsrc v0) as [d Hd]; [apply elem_of_cons; auto|]. rewrite Hd.
    cbn [mbind option_bind]. rewrite py_div_nonzero by exact Hp. cbn [mbind option_bind].
    destruct (IH (fun v H => Hsrc v (proj2 (elem_of_cons _ _ _) (or_intror H)))
                 (<[v0 := d * pb / p]> acc))
      as (res & Hres & Hlook).
    exists res. split; [exact Hres|]. intros v. rewrite Hlook.
    destruct (decide (v ∈ rest)) as [Hin|Hnin].
    + rewrite decide_True by (apply elem_of_cons; auto). reflexivity.
    + destruct (decide (v0 = v)) as [->|Hne].
      * rewrite decide_True by (apply elem_of_cons; auto).
        rewrite lookup_insert_eq, Hd. reflexivity.
      * rewrite decide_False.
        -- apply lookup_insert_ne. exact Hne.
        -- rewrite elem_of_cons. intros [->|?]; tauto.
Qed.

Lemma bundle_scan (sol : SubSolution) (name : string) (l : list ScenarioBundle) :
  forall f d p f' d' p',
  fold_left
    (fun (acc : nat * option (var_id -> option Q) * option Q) scenario_bundle =>
       if bool_decide (name ∈ bundle_scenario_names scenario_bundle) then
         let '(found, _, _) := acc in
         (S found,
          Some (fun v => bundle_dual sol (bundle_name scenario_bundle) !! (name, v)),
          Some (bundle_probability scenario_bundle))
       else acc)
    l (f, d, p) = (f', d', p') ->
  (f <= f')%nat /\
  (f' = f -> d' = d /\ p' = p) /\
  ((f < f')%nat ->
   exists b, b ∈ l /\ name ∈ bundle_scenario_names b /\
             d' = Some (fun v => bundle_dual sol (bundle_name b) !! (name, v)) /\
             p' = Some (bundle_probability b)).
Proof.
  induction l as [|b l IH]; simpl; intros f d p f' d' p' H.
  - injection H as <- <- <-. split; [lia|]. split; [auto|]. intros; lia.
  - destruct (bool_decide (name ∈ bundle_scenario_names b)) eqn:E.
    + apply IH in H. destruct H as (Hle & Hsame & Hex). split; [lia|].
      split; [intros; lia|]. intros _.
      destruct (decide (f' = S f)) as [Heq|Hne].
      * destruct (Hsame Heq) as [-> ->]. exists b.
        apply bool_decide_eq_true in E.
        split; [apply elem_of_cons; auto|]. auto.
      * destruct Hex as (b' & Hin & Hrest); [lia|]. exists b'.
        split; [apply elem_of_cons; auto|exact Hrest].
    + apply IH in H. destruct H as (Hle & Hsame & Hex). split; [exact Hle|].
      split; [exact Hsame|]. intros Hlt.
      destruct (Hex Hlt) as (b' & Hin & Hrest). exists b'.
      split; [apply elem_of_cons; auto|exact Hrest].
Qed.

Lemma dual_source_spec ph scenario src pb :
  dual_source ph scenario = Some (src, pb) ->
  if contains_bundles (_scenario_tree ph)
  then exists b,
      b ∈ _scenario_bundles (_scenario_tree ph) /\
      scenario_name scenario ∈ bundle_scenario_names b /\
      pb = bundle_probability b /\
      src = (fun v => bundle_dual (solution ph) (bundle_name b) !! (scenario_name scenario, v))
  else pb = scenario_probability scenario /\
       src = (fun v => instance_dual (solution ph) (scenario_name scenario) !! v).
Proof.
  unfold dual_source. destruct (contains_bundles (_scenario_tree ph)).
  - destruct (fold_left _ _ _) as [[found d] p] eqn:Hfold.
    destruct (Nat.eqb found 1) eqn:Hfound; [|discriminate].
    apply Nat.eqb_eq in Hfound. subst found.
    apply bundle_scan in Hfold. destruct Hfold as (_ & _ & Hex).
    destruct Hex as (b & Hin & Hname & -> & ->); [lia|].
    intros [= <- <-]. exists b. auto.
  - intros [= <- <-]. auto.
Qed.

(** C2.  For a scenario of nonzero probability whose duals are all
    reported, the cut data map every first-stage variable to the dual price
    on the scenario's fixing constraint times
    [bundleProbability / scenarioProbability], the bundle being the one that
    holds the scenario; without bundles the factor is 1 and the dual price
    itself is returned. *)
Theorem collect_cut_data_scales_duals ph scenario src pb :
  benders_asserts ph scenario = true ->
  ~ scenario_probability scenario == 0 ->
  dual_source ph scenario = Some (src, pb) ->
  Forall (fun v => is_Some (src v)) (root_variable_ids (_scenario_tree ph)) ->
  exists res,
    EXTERNAL_collect_cut_data ph scenario = Some res /\
    SSC res = scenario_stage_cost (solution ph) (scenario_name scenario) /\
    (forall v, v ∈ root_variable_ids (_scenario_tree ph) ->
       exists d r,
         src v = Some d /\ duals res !! v = Some r /\
         r == d * (pb / scenario_probability scenario) /\
         (contains_bundles (_scenario_tree ph) = false -> r == d)) /\
    (if contains_bundles (_scenario_tree ph)
     then exists b,
         b ∈ _scenario_bundles (_scenario_tree ph) /\
         scenario_name scenario ∈ bundle_scenario_names b /\
         pb = bundle_probability b /\
         src = (fun v => bundle_dual (solution ph) (bundle_name b)
                           !! (scenario_name scenario, v))
     else pb = scenario_probability scenario /\
          src = (fun v => instance_dual (solution ph) (scenario_name scenario) !! v)).
Proof.
  intros Hpre Hp Hsrc Hall. rewrite Forall_forall in Hall.
  destruct (collect_duals_spec src pb _ _ Hp Hall ∅) as (ds & Hds & Hlook).
  exists (mkResults (scenario_stage_cost (solution ph) (scenario_name scenario)) ds).
  unfold EXTERNAL_collect_cut_data. rewrite Hpre, Hsrc. simpl. rewrite Hds. simpl.
  split; [reflexivity|]. split; [reflexivity|].
  pose proof (dual_source_spec _ _ _ _ Hsrc) as Hspec. split; [|exact Hspec].
  intros v Hv. destruct (Hall v Hv) as [d Hd]. exists d, (d * pb / scenario_probability scenario).
  split; [exact Hd|]. split.
  { rewrite Hlook, decide_True by exact Hv. rewrite Hd. reflexivity. }
  split.
  - unfold Qdiv. ring.
  - intros Hnb. rewrite Hnb in Hspec. destruct Hspec as [-> _]. field. exact Hp.
Qed.

(** *** Round-robin bundles *)

Lemma concat_insert_snoc {A} (l : list (list A)) (i : nat) (b : list A) (x : A) :
  l !! i = Some b -> concat (<[i := b ++ [x]]> l) ≡ₚ x :: concat l.
Proof.
  revert i. induction l as [|a l IH]; intros [|i] H; try discriminate; simpl in *.
  - injection H as ->. rewrite <- app_assoc. simpl. symmetry. apply Permutation_middle.
  - rewrite (IH i H). symmetry. apply Permutation_middle.
Qed.

Lemma assign_bundles_spec (B : nat) (names : list string) :
  (0 < B)%nat ->
  forall cnt bundles, length bundles = B ->
  exists bs,
    assign_bundles B cnt names bundles = Some bs /\
    length bs = B /\
    concat bs ≡ₚ concat bundles ++ names /\
    (forall j b, bundles !! j = Some b ->
                 exists b', bs !! j = Some b' /\ forall x, x ∈ b -> x ∈ b') /\
    (forall k name, names !! k = Some name ->
                    exists b, bs !! ((cnt + k) mod B)%nat = Some b /\ name ∈ b).
Proof.
  intros HB. induction names as [|name rest IH]; intros cnt bundles Hlen; simpl.
  - exists bundles. split; [reflexivity|]. split; [exact Hlen|].
    split; [rewrite app_nil_r; reflexivity|]. split; [eauto|]. intros k n H. discriminate.
  - assert (Hi : (cnt mod B < length bundles)%nat).
    { rewrite Hlen. apply Nat.mod_upper_bound. lia. }
    destruct (lookup_lt_is_Some_2 _ _ Hi) as [b Hb]. rewrite Hb. simpl.
    destruct (IH (S cnt) (<[(cnt mod B)%nat := b ++ [name]]> bundles)) as
      (bs & Hbs & Hlen' & Hperm & Hgrow & Hmem).
    { rewrite length_insert. exact Hlen. }
    exists bs. split; [exact Hbs|]. split; [exact Hlen'|]. split.
    { rewrite Hperm, (concat_insert_snoc _ _ _ _ Hb). apply Permutation_middle. }
    split.
    + intros j b0 Hj. destruct (decide (j = cnt mod B)%nat) as [->|Hne].
      * destruct (Hgrow (cnt mod B)%nat (b ++ [name])) as (b' & Hb' & Hsub).
        { apply list_lookup_insert_eq. exact Hi. }
        exists b'. split; [exact Hb'|]. intros x Hx. apply Hsub.
        rewrite Hb in Hj. injection Hj as <-. apply elem_of_app. auto.
      * apply Hgrow. rewrite list_lookup_insert_ne by auto. exact Hj.
    + intros [|k] n Hk; simpl in Hk.
      * injection Hk as <-. rewrite Nat.add_0_r.
        destruct (Hgrow (cnt mod B)%nat (b ++ [name])) as (b' & Hb' & Hsub).
        { apply list_lookup_insert_eq. exact Hi. }
        exists b'. split; [exact Hb'|]. apply Hsub, elem_of_app. right.
        apply list_elem_of_singleton. reflexivity.
      * replace (cnt + S k)%nat with (S cnt + k)%nat by lia. apply Hmem. exact Hk.
Qed.

Lemma NoDup_concat_unique {A} (l : list (list A)) (x : A) :
  NoDup (concat l) ->
  forall j j' b b', l !! j = Some b -> l !! j' = Some b' -> x ∈ b -> x ∈ b' -> j = j'.
Proof.
  induction l as [|a l IH]; intros Hnd j j' b b' Hj Hj' Hx Hx'; [discriminate|].
  simpl in Hnd. apply NoDup_app in Hnd. destruct Hnd as (_ & Hdisj & Hnd).
  assert (Hin : forall i c, l !! i = Some c -> x ∈ c -> x ∈ concat l).
  { intros i c Hi Hc. apply list_elem_of_In, in_concat. exists c. split.
    - apply list_elem_of_In, list_elem_of_lookup. eauto.
    - apply list_elem_of_In. exact Hc. }
  destruct j as [|j], j' as [|j']; simpl in *.
  - reflexivity.
  - injection Hj as <-. exfalso. eapply Hdisj; eauto.
  - injection Hj' as <-. exfalso. eapply Hdisj; eauto.
  - f_equal. eapply IH; eauto.
Qed.

Lemma concat_replicate_nil {A} (n : nat) : concat (replicate n ([] : list A)) = [].
Proof. induction n as [|n IH]; [reflexivity|]. exact IH. Qed.

Lemma make_bundles_spec (multicuts : Z) (names : list string) :
  (1 <= multicuts <= Z.of_nat (length names))%Z ->
  exists bundles,
    make_bundles multicuts names = Some bundles /\
    length bundles = Z.to_nat multicuts /\
    concat bundles ≡ₚ names /\
    (forall k name, names !! k = Some name ->
       exists b, bundles !! (k mod Z.to_nat multicuts)%nat = Some b /\ name ∈ b).
Proof.
  intros [H1 H2]. unfold make_bundles.
  rewrite (proj2 (Z.leb_le _ _) H1), (proj2 (Z.leb_le _ _) H2). simpl.
  destruct (assign_bundles_spec (Z.to_nat multicuts) names ltac:(lia) 0%nat
              (replicate (Z.to_nat multicuts) [])) as (bs & Hbs & Hlen & Hperm & _ & Hmem).
  { apply length_replicate. }
  exists bs. split; [exact Hbs|]. split; [exact Hlen|]. split; [|exact Hmem].
  rewrite Hperm, concat_replicate_nil. reflexivity.
Qed.

(** C6.  For a number of cut groups [B] with [1 <= B <= number of
    scenarios], the scenario of enumeration index [k] is put in bundle
    [k mod B]; every scenario is in exactly one bundle and the bundles
    together hold exactly the scenarios. *)
Theorem round_robin_partition (multicuts : Z) (names : list string) :
  (1 <= multicuts <= Z.of_nat (length names))%Z ->
  NoDup names ->
  exists bundles,
    make_bundles multicuts names = Some bundles /\
    length bundles = Z.to_nat multicuts /\
    (forall k name, names !! k = Some name ->
       exists b, bundles !! (k mod Z.to_nat multicuts)%nat = Some b /\ name ∈ b) /\
    (forall name j j' b b',
       bundles !! j = Some b -> bundles !! j' = Some b' ->
       name ∈ b -> name ∈ b' -> j = j') /\
    (forall name, name ∈ names <-> exists b, b ∈ bundles /\ name ∈ b) /\
    concat bundles ≡ₚ names.
Proof.
  intros HB Hnd. destruct (make_bundles_spec multicuts names HB)
    as (bundles & Hmk & Hlen & Hperm & Hmem).
  exists bundles. split; [exact Hmk|]. split; [exact Hlen|]. split; [exact Hmem|].
  split; [|split; [|exact Hperm]].
  - intros name. apply NoDup_concat_unique. rewrite Hperm. exact Hnd.
  - intros name. rewrite <- Hperm. rewrite !list_elem_of_In, in_concat.
    split; intros (b & Hb & Hn); exists b; rewrite ?list_elem_of_In in *; auto.
Qed.

(** *** The expressions built by [add_cut] *)

Lemma Qsum_app (a b : list Q) : Qsum (a ++ b) == Qsum a + Qsum b.
Proof.
  induction a as [|x a IH]; simpl.
  - ring.
  - rewrite IH. ring.
Qed.

Lemma cut_formula_app env t benders_cut (a b : list string) :
  cut_formula env t benders_cut (a ++ b)
  == cut_formula env t benders_cut a + cut_formula env t benders_cut b.
Proof. unfold cut_formula. rewrite map_app. apply Qsum_app. Qed.

Lemma cut_formula_perm env t benders_cut (a b : list string) :
  a ≡ₚ b -> cut_formula env t benders_cut a == cut_formula env t benders_cut b.
Proof.
  unfold cut_formula. induction 1 as [|x a b _ IH|x y a|a b c _ IH1 _ IH2]; simpl.
  - reflexivity.
  - rewrite IH. reflexivity.
  - ring.
  - rewrite IH1. exact IH2.
Qed.

Lemma cut_formula_concat env t benders_cut (bundles : list (list string)) :
  cut_formula env t benders_cut (concat bundles)
  == Qsum (map (cut_formula env t benders_cut) bundles).
Proof.
  induction bundles as [|b bundles IH]; simpl.
  - reflexivity.
  - rewrite cut_formula_app, IH. reflexivity.
Qed.

Lemma cut_definedb_elem t benders_cut names name :
  cut_definedb t benders_cut names = true ->
  name ∈ names ->
  cut_definedb t benders_cut [name] = true.
Proof.
  unfold cut_definedb. intros H Hin. rewrite forallb_forall in H.
  simpl. rewrite (H name) by (apply list_elem_of_In; exact Hin). reflexivity.
Qed.

Lemma cut_definedb_perm t benders_cut (a b : list string) :
  a ≡ₚ b -> cut_definedb t benders_cut a = true -> cut_definedb t benders_cut b = true.
Proof.
  unfold cut_definedb. intros Hp H. rewrite forallb_forall in *.
  intros x Hx. apply H. apply list_elem_of_In. rewrite Hp. apply list_elem_of_In, Hx.
Qed.

Lemma cut_definedb_app t benders_cut (a b : list string) :
  cut_definedb t benders_cut (a ++ b)
  = (cut_definedb t benders_cut a && cut_definedb t benders_cut b)%bool.
Proof. apply forallb_app. Qed.

Lemma dual_terms_spec (sd xb : gmap var_id Q) (ids : list var_id) :
  forallb (fun v => match sd !! v, xb !! v with
                    | Some _, Some _ => true
                    | _, _ => false
                    end) ids = true ->
  forall acc, exists e,
    dual_terms sd xb ids acc = Some e /\
    forall env,
      value env e ==
      value env acc
      + Qsum (map (fun v => default 0 (sd !! v) * (val_x env v - default 0 (xb !! v))) ids).
Proof.
  induction ids as [|v ids IH]; simpl; intros H acc.
  - exists acc. split; [reflexivity|]. intros env. ring.
  - apply andb_true_iff in H. destruct H as [Hv Hrest].
    destruct (sd !! v) as [d|]; [|discriminate].
    destruct (xb !! v) as [x|]; [|discriminate]. simpl.
    destruct (IH Hrest (EAdd acc (EMul (EConst d) (ESub (EVar v) (EConst x)))))
      as (e & He & Hval).
    exists e. split; [exact He|]. intros env. rewrite Hval. simpl. ring.
Qed.

Lemma scenario_term_spec ph benders_cut name :
  cut_definedb (_scenario_tree ph) benders_cut [name] = true ->
  exists e,
    scenario_term ph benders_cut name = Some e /\
    forall env, value env e == cut_term env (_scenario_tree ph) benders_cut name.
Proof.
  unfold cut_definedb, scenario_term, cut_term. simpl. intros H.
  destruct (get_scenario (_scenario_tree ph) name) as [sc|]; [|discriminate].
  destruct (cut_ssc benders_cut !! name) as [ssc|]; [|discriminate].
  destruct (cut_duals benders_cut !! name) as [sd|]; [|discriminate]. simpl.
  rewrite andb_true_r in H.
  destruct (dual_terms_spec sd (cut_xbars benders_cut) _ H (EConst 0)) as (e & He & Hval).
  rewrite He. simpl. eexists. split; [reflexivity|].
  intros env. simpl. rewrite Hval. simpl. ring.
Qed.

Lemma cut_expression_loop_spec ph benders_cut (names : list string) :
  cut_definedb (_scenario_tree ph) benders_cut names = true ->
  forall acc, exists e,
    cut_expression_loop ph benders_cut names acc = Some e /\
    forall env,
      value env e == value env acc + cut_formula env (_scenario_tree ph) benders_cut names.
Proof.
  induction names as [|name names IH]; intros H acc.
  - exists acc. split; [reflexivity|]. intros env. unfold cut_formula. simpl. ring.
  - change (name :: names) with ([name] ++ names) in H.
    rewrite cut_definedb_app in H. apply andb_true_iff in H. destruct H as [H1 H2].
    destruct (scenario_term_spec ph benders_cut name H1) as (t & Ht & Htv).
    destruct (IH H2 (EAdd acc t)) as (e & He & Hval).
    exists e. split.
    + simpl. rewrite Ht. simpl. exact He.
    + intros env. rewrite Hval. unfold cut_formula. simpl. rewrite Htv. ring.
Qed.

Lemma holds_sense_cut env s e :
  holds env (sense_cut s e) <->
  match s with
  | minimize => value env e <= 0
  | maximize => 0 <= value env e
  end.
Proof. destruct s; simpl; tauto. Qed.

Lemma add_bundle_cuts_spec ph benders_cut (bundles : list (list string)) :
  cut_definedb (_scenario_tree ph) benders_cut (concat bundles) = true ->
  forall i m,
    (i + length bundles <= bundle_alpha_index m)%nat ->
    exists m' es,
      add_bundle_cuts ph benders_cut i bundles m = Some m' /\
      PYSP_BENDERS_CUTS m' =
        PYSP_BENDERS_CUTS m ++ map (sense_cut (_objective_sense ph)) es /\
      length es = length bundles /\
      forall k b, bundles !! k = Some b ->
        exists e, es !! k = Some e /\
          forall env,
            value env e ==
            cut_formula env (_scenario_tree ph) benders_cut b
            - val_bundle_alpha env (i + k)%nat.
Proof.
  induction bundles as [|b bundles IH]; intros H i m Hi.
  - exists m, []. split; [reflexivity|]. split; [simpl; rewrite app_nil_r; reflexivity|].
    split; [reflexivity|]. intros k b Hk. discriminate.
  - simpl in H. rewrite cut_definedb_app in H. apply andb_true_iff in H.
    destruct H as [H1 H2]. simpl in Hi.
    destruct (cut_expression_loop_spec ph benders_cut b H1 (EConst 0)) as (e & He & Hval).
    destruct (IH H2 (S i) (append_cut (sense_cut (_objective_sense ph)
                                          (ESub e (EBundleAlpha i))) m))
      as (m' & es & Hm' & Hcuts & Hlen & Hes).
    { simpl. lia. }
    exists m', (ESub e (EBundleAlpha i) :: es). split.
    { simpl. rewrite He. simpl.
      rewrite (proj2 (Nat.ltb_lt i (bundle_alpha_index m))) by lia. simpl. exact Hm'. }
    split; [rewrite Hcuts; simpl; rewrite <- app_assoc; reflexivity|].
    split; [simpl; rewrite Hlen; reflexivity|].
    intros [|k] b0 Hk; simpl in Hk.
    + injection Hk as <-. exists (ESub e (EBundleAlpha i)). split; [reflexivity|].
      intros env. simpl. rewrite Hval. simpl. rewrite Nat.add_0_r. ring.
    + destruct (Hes k b0 Hk) as (e' & He' & Hv'). exists e'. split; [exact He'|].
      intros env. rewrite Hv'. replace (S i + k)%nat with (i + S k)%nat by lia. reflexivity.
Qed.

(** [initialize] leaves alpha free, the cut pool empty and one bundle alpha
    per bundle. *)
Lemma initialize_spec options ph m :
  initialize options ph = Some m ->
  alpha_fixed m = false /\
  PYSP_BENDERS_CUTS m = [] /\
  bundle_alpha_index m = length (PYSP_BENDERS_CUT_BUNDLES m) /\
  concat (PYSP_BENDERS_CUT_BUNDLES m) ≡ₚ scenario_names (_scenario_tree ph).
Proof.
  unfold initialize. intros H.
  destruct (make_bundles _ _) as [bundles|] eqn:Hmk; simpl in H; [|discriminate].
  injection H as <-. simpl.
  assert (HB : (1 <= multicuts options
                <= Z.of_nat (length (scenario_names (_scenario_tree ph))))%Z).
  { unfold make_bundles in Hmk.
    destruct (1 <=? multicuts options)%Z eqn:E1; [|discriminate].
    destruct (multicuts options <=? _)%Z eqn:E2; [|discriminate]. lia. }
  destruct (make_bundles_spec _ _ HB) as (bundles' & Hmk' & Hlen & Hperm & _).
  rewrite Hmk in Hmk'. injection Hmk' as <-. auto.
Qed.

(** C1.  [add_cut] appends to the cut pool, under minimize, the inequality
    [Σ_s prob_s (SSC_s + Σ_v dual_{s,v} (x_v - xbar_v)) - alpha <= 0], and
    with [per_bundle] one such inequality per bundle, summed over that
    bundle's scenarios with [alpha_b] in place of [alpha]; under maximize
    the inequality is [>= 0]. *)
Theorem add_cut_appends_optimality_cut m ph benders_cut :
  cut_definedb (_scenario_tree ph) benders_cut (scenario_names (_scenario_tree ph)) = true ->
  cut_definedb (_scenario_tree ph) benders_cut (concat (PYSP_BENDERS_CUT_BUNDLES m)) = true ->
  (length (PYSP_BENDERS_CUT_BUNDLES m) <= bundle_alpha_index m)%nat ->
  (exists m' e,
      add_cut m ph benders_cut false = Some m' /\
      PYSP_BENDERS_CUTS m' = PYSP_BENDERS_CUTS m ++ [sense_cut (_objective_sense ph) e] /\
      forall env,
        value env e ==
        cut_formula env (_scenario_tree ph) benders_cut (scenario_names (_scenario_tree ph))
        - val_alpha env) /\
  (exists m' es,
      add_cut m ph benders_cut true = Some m' /\
      PYSP_BENDERS_CUTS m' =
        PYSP_BENDERS_CUTS m ++ map (sense_cut (_objective_sense ph)) es /\
      length es = length (PYSP_BENDERS_CUT_BUNDLES m) /\
      forall i b, PYSP_BENDERS_CUT_BUNDLES m !! i = Some b ->
        exists e, es !! i = Some e /\
          forall env,
            value env e ==
            cut_formula env (_scenario_tree ph) benders_cut b - val_bundle_alpha env i) /\
  (forall env e,
      holds env (sense_cut (_objective_sense ph) e) <->
      match _objective_sense ph with
      | minimize => value env e <= 0
      | maximize => 0 <= value env e
      end).
Proof.
  intros Hall Hbundles Hidx. split; [|split].
  - destruct (cut_expression_loop_spec ph benders_cut _ Hall (EConst 0)) as (e & He & Hval).
    exists (append_cut (sense_cut (_objective_sense ph) (ESub e EAlpha)) m), (ESub e EAlpha).
    split; [unfold add_cut; rewrite He; reflexivity|]. split; [reflexivity|].
    intros env. simpl. rewrite Hval. simpl. ring.
  - destruct (add_bundle_cuts_spec ph benders_cut _ Hbundles 0%nat m ltac:(simpl; lia))
      as (m' & es & Hm' & Hcuts & Hlen & Hes).
    exists m', es. split; [exact Hm'|]. split; [exact Hcuts|]. split; [exact Hlen|].
    exact Hes.
  - intros env e. apply holds_sense_cut.
Qed.

Lemma bundle_total_spec env t benders_cut (bundles : list (list string)) (es : list expr) :
  length es = length bundles ->
  forall i,
  (forall k b, bundles !! k = Some b ->
     exists e, es !! k = Some e /\
       value env e == cut_formula env t benders_cut b - val_bundle_alpha env (i + k)%nat) ->
  Qsum (imap (fun k e => value env e + val_bundle_alpha env (i + k)%nat) es)
  == Qsum (map (cut_formula env t benders_cut) bundles).
Proof.
  revert es. induction bundles as [|b bundles IH]; intros [|e es] Hlen i H;
    try discriminate; [reflexivity|].
  simpl. destruct (H 0%nat b eq_refl) as (e' & He' & Hv). simpl in He'. injection He' as <-.
  rewrite Hv, Nat.add_0_r.
  assert (Hrest : Qsum (imap (fun k e0 => value env e0 + val_bundle_alpha env (S i + k)%nat) es)
                  == Qsum (map (cut_formula env t benders_cut) bundles)).
  { apply IH; [simpl in Hlen; lia|]. intros k b0 Hk.
    destruct (H (S k) b0 Hk) as (e0 & He0 & Hv0). exists e0. split; [exact He0|].
    rewrite Hv0. replace (S i + k)%nat with (i + S k)%nat by lia. reflexivity. }
  rewrite <- Hrest.
  assert (Heq : imap ((fun k e0 => value env e0 + val_bundle_alpha env (i + k)%nat) ∘ S) es
                = imap (fun k e0 => value env e0 + val_bundle_alpha env (S i + k)%nat) es).
  { apply imap_ext. intros k x _. simpl. replace (i + S k)%nat with (S (i + k)) by lia.
    reflexivity. }
  rewrite Heq. ring.
Qed.

(** C7.  For one trial point and one set of subproblem costs and duals, the
    bodies of the per-bundle cuts, each without its [- alpha_b], sum to the
    body of the aggregate cut without its [- alpha]. *)
Theorem bundle_cuts_sum_to_aggregate options m0 m ph benders_cut :
  initialize options ph = Some m0 ->
  PYSP_BENDERS_CUT_BUNDLES m = PYSP_BENDERS_CUT_BUNDLES m0 ->
  bundle_alpha_index m = bundle_alpha_index m0 ->
  cut_definedb (_scenario_tree ph) benders_cut (scenario_names (_scenario_tree ph)) = true ->
  exists m1 e m2 es,
    add_cut m ph benders_cut false = Some m1 /\
    PYSP_BENDERS_CUTS m1 = PYSP_BENDERS_CUTS m ++ [sense_cut (_objective_sense ph) e] /\
    add_cut m ph benders_cut true = Some m2 /\
    PYSP_BENDERS_CUTS m2 =
      PYSP_BENDERS_CUTS m ++ map (sense_cut (_objective_sense ph)) es /\
    length es = Z.to_nat (multicuts options) /\
    forall env, bundle_total env es == value env e + val_alpha env.
Proof.
  intros Hinit Hb Hidx Hall. unfold initialize in Hinit.
  destruct (make_bundles _ _) as [bundles|] eqn:Hmk; simpl in Hinit; [|discriminate].
  injection Hinit as <-. simpl in Hb, Hidx.
  assert (HB : (1 <= multicuts options
                <= Z.of_nat (length (scenario_names (_scenario_tree ph))))%Z).
  { unfold make_bundles in Hmk.
    destruct (1 <=? multicuts options)%Z eqn:E1; [|discriminate].
    destruct (multicuts options <=? _)%Z eqn:E2; [|discriminate]. lia. }
  destruct (make_bundles_spec _ _ HB) as (bundles' & Hmk' & Hlen & Hperm & _).
  rewrite Hmk in Hmk'. injection Hmk' as <-.
  assert (Hbundles : cut_definedb (_scenario_tree ph) benders_cut
                       (concat (PYSP_BENDERS_CUT_BUNDLES m)) = true).
  { rewrite Hb. eapply cut_definedb_perm; [symmetry; exact Hperm|exact Hall]. }
  destruct (cut_expression_loop_spec ph benders_cut _ Hall (EConst 0)) as (e & He & Hval).
  destruct (add_bundle_cuts_spec ph benders_cut _ Hbundles 0%nat m
              ltac:(rewrite Hb, Hidx, Hlen; simpl; lia))
    as (m2 & es & Hm2 & Hcuts & Hles & Hes).
  exists (append_cut (sense_cut (_objective_sense ph) (ESub e EAlpha)) m), (ESub e EAlpha),
    m2, es.
  split; [unfold add_cut; rewrite He; reflexivity|]. split; [reflexivity|].
  split; [exact Hm2|]. split; [exact Hcuts|]. split; [rewrite Hles, Hb; exact Hlen|].
  intros env. unfold bundle_total.
  rewrite (bundle_total_spec env (_scenario_tree ph) benders_cut
             (PYSP_BENDERS_CUT_BUNDLES m) es Hles 0%nat).
  - rewrite <- cut_formula_concat, Hb, (cut_formula_perm _ _ _ _ _ Hperm).
    simpl. rewrite Hval. simpl. ring.
  - intros k b Hk. destruct (Hes k b Hk) as (e' & He' & Hv'). eauto.
Qed.

(** ** Further properties of the code *)

(** ** When [add_cut] raises, and what it leaves alone *)

Lemma dual_terms_defined (sd xb : gmap var_id Q) (ids : list var_id) :
  forall acc e,
    dual_terms sd xb ids acc = Some e ->
    forallb (fun v => match sd !! v, xb !! v with
                      | Some _, Some _ => true
                      | _, _ => false
                      end) ids = true.
Proof.
  induction ids as [|v ids IH]; simpl; intros acc e H; [reflexivity|].
  destruct (sd !! v) as [d|]; simpl in H; [|discriminate].
  destruct (xb !! v) as [x|]; simpl in H; [|discriminate].
  simpl. eapply IH. exact H.
Qed.

Lemma scenario_term_defined ph benders_cut name e :
  scenario_term ph benders_cut name = Some e ->
  cut_definedb (_scenario_tree ph) benders_cut [name] = true.
Proof.
  unfold scenario_term, cut_definedb. simpl. intros H.
  destruct (cut_duals benders_cut !! name) as [sd|]; simpl in H; [|discriminate].
  destruct (cut_ssc benders_cut !! name) as [ssc|]; simpl in H; [|discriminate].
  destruct (get_scenario (_scenario_tree ph) name) as [sc|]; simpl in H; [|discriminate].
  destruct (dual_terms sd _ _ _) as [s|] eqn:Hs; simpl in H; [|discriminate].
  rewrite (dual_terms_defined _ _ _ _ _ Hs). reflexivity.
Qed.

Lemma cut_expression_loop_defined ph benders_cut (names : list string) :
  forall acc e,
    cut_expression_loop ph benders_cut names acc = Some e ->
    cut_definedb (_scenario_tree ph) benders_cut names = true.
Proof.
  induction names as [|name names IH]; intros acc e H; [reflexivity|].
  simpl in H.
  destruct (scenario_term ph benders_cut name) as [t|] eqn:Ht; simpl in H; [|discriminate].
  change (name :: names) with ([name] ++ names).
  rewrite cut_definedb_app, (scenario_term_defined _ _ _ _ Ht). simpl.
  eapply IH. exact H.
Qed.

Lemma add_bundle_cuts_defined ph benders_cut (bundles : list (list string)) :
  forall i m m',
    add_bundle_cuts ph benders_cut i bundles m = Some m' ->
    cut_definedb (_scenario_tree ph) benders_cut (concat bundles) = true /\
    (bundles <> [] -> (i + length bundles <= bundle_alpha_index m)%nat).
Proof.
  induction bundles as [|b bundles IH]; intros i m m' H.
  - split; [reflexivity|]. congruence.
  - simpl in H.
    destruct (cut_expression_loop ph benders_cut b (EConst 0)) as [e|] eqn:He;
      simpl in H; [|discriminate].
    destruct (i <? bundle_alpha_index m)%nat eqn:Hi; simpl in H; [|discriminate].
    apply Nat.ltb_lt in Hi. apply IH in H. destruct H as [Hd Hlen]. simpl in Hlen. split.
    + simpl. rewrite cut_definedb_app, Hd, (cut_expression_loop_defined _ _ _ _ _ He).
      reflexivity.
    + intros _. simpl. destruct bundles as [|b' bundles]; [simpl; lia|].
      specialize (Hlen ltac:(discriminate)). simpl in *. lia.
Qed.

Lemma add_cut_total m ph benders_cut :
  cut_definedb (_scenario_tree ph) benders_cut (scenario_names (_scenario_tree ph)) = true ->
  is_Some (add_cut m ph benders_cut false).
Proof.
  intros H. destruct (cut_expression_loop_spec ph benders_cut _ H (EConst 0)) as (e & He & _).
  unfold add_cut. rewrite He. simpl. eauto.
Qed.

(** X1.  [add_cut] returns exactly when every dictionary lookup it makes is
    defined; with [per_bundle] there must also be a bundle alpha for every
    bundle. *)
Theorem add_cut_raises_iff_lookup_missing m ph benders_cut :
  (is_Some (add_cut m ph benders_cut false) <->
   cut_definedb (_scenario_tree ph) benders_cut (scenario_names (_scenario_tree ph)) = true) /\
  (is_Some (add_cut m ph benders_cut true) <->
   cut_definedb (_scenario_tree ph) benders_cut (concat (PYSP_BENDERS_CUT_BUNDLES m)) = true /\
   (length (PYSP_BENDERS_CUT_BUNDLES m) <= bundle_alpha_index m)%nat).
Proof.
  split; split.
  - intros [m' H]. unfold add_cut in H.
    destruct (cut_expression_loop _ _ _ _) as [e|] eqn:He; simpl in H; [|discriminate].
    eapply cut_expression_loop_defined. exact He.
  - apply add_cut_total.
  - intros [m' H]. unfold add_cut in H. apply add_bundle_cuts_defined in H.
    destruct H as [Hd Hlen]. split; [exact Hd|].
    destruct (PYSP_BENDERS_CUT_BUNDLES m) as [|b l]; [simpl; lia|].
    apply Hlen. discriminate.
  - intros [Hd Hlen].
    destruct (add_bundle_cuts_spec ph benders_cut _ Hd 0%nat m ltac:(simpl; lia))
      as (m' & es & Hm' & _).
    unfold add_cut. rewrite Hm'. eauto.
Qed.

Lemma add_bundle_cuts_frame ph benders_cut (bundles : list (list string)) :
  forall i m m',
    add_bundle_cuts ph benders_cut i bundles m = Some m' ->
    alpha_fixed m' = alpha_fixed m /\
    bundle_alpha_index m' = bundle_alpha_index m /\
    PYSP_BENDERS_CUT_BUNDLES m' = PYSP_BENDERS_CUT_BUNDLES m /\
    PYSP_BUNDLE_AVERAGE_ALPHA_CUT m' = PYSP_BUNDLE_AVERAGE_ALPHA_CUT m /\
    exists es,
      PYSP_BENDERS_CUTS m' =
        PYSP_BENDERS_CUTS m ++ map (sense_cut (_objective_sense ph)) es /\
      length es = length bundles.
Proof.
  induction bundles as [|b bundles IH]; intros i m m' H.
  - injection H as <-. repeat split. exists []. simpl. rewrite app_nil_r. auto.
  - simpl in H.
    destruct (cut_expression_loop ph benders_cut b (EConst 0)) as [e|]; simpl in H;
      [|discriminate].
    destruct (i <? bundle_alpha_index m)%nat; simpl in H; [|discriminate].
    apply IH in H. simpl in H. destruct H as (H1 & H2 & H3 & H4 & es & H5 & H6).
    repeat split; try assumption.
    exists (ESub e (EBundleAlpha i) :: es). split; [|simpl; lia].
    rewrite H5, <- app_assoc. reflexivity.
Qed.

(** X2.  [add_cut] only appends to the cut pool: one constraint, or one per
    bundle with [per_bundle].  The cuts already there stay in place, and
    alpha, the bundle alphas, the bundles and the constraint linking them
    are as before.  Every constraint appended is one-sided, bounded by 0
    above under minimize and below under maximize. *)
Theorem add_cut_only_appends m ph benders_cut per_bundle m' :
  add_cut m ph benders_cut per_bundle = Some m' ->
  alpha_fixed m' = alpha_fixed m /\
  bundle_alpha_index m' = bundle_alpha_index m /\
  PYSP_BENDERS_CUT_BUNDLES m' = PYSP_BENDERS_CUT_BUNDLES m /\
  PYSP_BUNDLE_AVERAGE_ALPHA_CUT m' = PYSP_BUNDLE_AVERAGE_ALPHA_CUT m /\
  exists es,
    PYSP_BENDERS_CUTS m' =
      PYSP_BENDERS_CUTS m
        ++ map (fun e => match _objective_sense ph with
                         | minimize => CTuple None e (Some 0)
                         | maximize => CTuple (Some 0) e None
                         end) es /\
    length es = if per_bundle then length (PYSP_BENDERS_CUT_BUNDLES m) else 1%nat.
Proof.
  intros H.
  assert (Hs : forall es, map (sense_cut (_objective_sense ph)) es =
                          map (fun e => match _objective_sense ph with
                                        | minimize => CTuple None e (Some 0)
                                        | maximize => CTuple (Some 0) e None
                                        end) es).
  { intros es. apply map_ext. intros e. unfold sense_cut.
    destruct (_objective_sense ph); reflexivity. }
  destruct per_bundle.
  - unfold add_cut in H. apply add_bundle_cuts_frame in H.
    destruct H as (H1 & H2 & H3 & H4 & es & H5 & H6).
    repeat split; try assumption. exists es. rewrite <- Hs. auto.
  - apply add_cut_aggregate_inv in H. destruct H as (e & _ & ->).
    repeat split. exists [ESub e EAlpha]. rewrite <- Hs. auto.
Qed.

(** ** The cut data of one scenario *)

Lemma bundle_scan_count (sol : SubSolution) (name : string) (l : list ScenarioBundle) :
  forall f d p,
  (fold_left
    (fun (acc : nat * option (var_id -> option Q) * option Q) scenario_bundle =>
       if bool_decide (name ∈ bundle_scenario_names scenario_bundle) then
         let '(found, _, _) := acc in
         (S found,
          Some (fun v => bundle_dual sol (bundle_name scenario_bundle) !! (name, v)),
          Some (bundle_probability scenario_bundle))
       else acc)
    l (f, d, p)).1.1
  = (f + length (filter (fun b => name ∈ bundle_scenario_names b) l))%nat.
Proof.
  induction l as [|b l IH]; intros f d p; simpl.
  - lia.
  - rewrite filter_cons. destruct (decide (name ∈ bundle_scenario_names b)) as [Hin|Hnin].
    + rewrite bool_decide_eq_true_2 by exact Hin. rewrite IH. simpl. lia.
    + rewrite bool_decide_eq_false_2 by exact Hnin. apply IH.
Qed.

(** X3.  On a tree with bundles and subproblems initialized for Benders
    (so that every bundle instance has its dual suffix), the dual suffix
    of a scenario is found exactly when one bundle, and only one, holds
    the scenario; with none or with several the assertion [found == 1]
    fails and no cut data are returned. *)
Theorem collect_cut_data_needs_one_bundle ph scenario :
  contains_bundles (_scenario_tree ph) = true ->
  initialized_for_benders ph = true ->
  (is_Some (dual_source ph scenario) <->
   bundles_holding (_scenario_tree ph) (scenario_name scenario) = 1%nat) /\
  (bundles_holding (_scenario_tree ph) (scenario_name scenario) <> 1%nat ->
   EXTERNAL_collect_cut_data ph scenario = None).
Proof.
  intros Hb _.
  assert (Hiff : is_Some (dual_source ph scenario) <->
                 bundles_holding (_scenario_tree ph) (scenario_name scenario) = 1%nat).
  { unfold dual_source, bundles_holding. rewrite Hb.
    pose proof (bundle_scan_count (solution ph) (scenario_name scenario)
                  (_scenario_bundles (_scenario_tree ph)) 0%nat None None) as Hcount.
    pose proof (bundle_scan (solution ph) (scenario_name scenario)
                  (_scenario_bundles (_scenario_tree ph)) 0%nat None None) as Hscan.
    destruct (fold_left _ _ _) as [[found d] p]. simpl in Hcount.
    specialize (Hscan found d p eq_refl). destruct Hscan as (_ & _ & Hex).
    rewrite <- Hcount. split.
    - intros [x Hx]. destruct (Nat.eqb found 1) eqn:E; [|discriminate].
      apply Nat.eqb_eq in E. exact E.
    - intros ->. simpl. destruct Hex as (b & _ & _ & -> & ->); [lia|]. eauto. }
  split; [exact Hiff|]. intros Hne. unfold EXTERNAL_collect_cut_data.
  destruct (benders_asserts ph scenario); [|reflexivity].
  destruct (dual_source ph scenario) as [x|] eqn:E; [|reflexivity].
  exfalso. apply Hne, Hiff. eauto.
Qed.

Lemma collect_duals_dom (src : var_id -> option Q) (pb p : Q) (ids : list var_id) :
  forall acc res,
    collect_duals src pb p ids acc = Some res ->
    dom res = dom acc ∪ list_to_set ids /\
    (ids <> [] -> ~ p == 0).
Proof.
  induction ids as [|v ids IH]; intros acc res H.
  - injection H as <-. split; [set_solver|congruence].
  - cbn [collect_duals] in H.
    destruct (src v) as [d|]; cbn [mbind option_bind] in H; [|discriminate].
    unfold py_div in H. destruct (Qeq_bool p 0) eqn:E; cbn [mbind option_bind] in H;
      [discriminate|].
    apply IH in H. destruct H as [Hdom _]. split.
    + rewrite Hdom, dom_insert_L. set_solver.
    + intros _ Hp. apply Qeq_bool_iff in Hp. congruence.
Qed.

Lemma EXTERNAL_collect_cut_data_dom ph scenario res :
  EXTERNAL_collect_cut_data ph scenario = Some res ->
  dom (duals res) = list_to_set (root_variable_ids (_scenario_tree ph)) /\
  (root_variable_ids (_scenario_tree ph) <> [] -> ~ scenario_probability scenario == 0).
Proof.
  unfold EXTERNAL_collect_cut_data. intros H.
  destruct (benders_asserts ph scenario); [|discriminate].
  destruct (dual_source ph scenario) as [[src pb]|]; cbn [mbind option_bind] in H;
    [|discriminate].
  destruct (collect_duals _ _ _ _ _) as [ds|] eqn:Hds; cbn [mbind option_bind] in H;
    [|discriminate].
  injection H as <-. apply collect_duals_dom in Hds. destruct Hds as [Hdom Hp]. simpl.
  split; [rewrite Hdom; set_solver|exact Hp].
Qed.

(** X4.  Whenever [EXTERNAL_collect_cut_data] returns, the duals it returns
    are keyed by exactly the first-stage variable ids of the root node, the
    scenario cost is the scenario's leaf-stage cost, and the scenario's
    probability is not zero unless there is no first-stage variable at
    all. *)
Theorem collect_cut_data_keys ph scenario res :
  EXTERNAL_collect_cut_data ph scenario = Some res ->
  dom (duals res) = list_to_set (root_variable_ids (_scenario_tree ph)) /\
  SSC res = scenario_stage_cost (solution ph) (scenario_name scenario) /\
  (root_variable_ids (_scenario_tree ph) <> [] -> ~ scenario_probability scenario == 0) /\
  benders_asserts ph scenario = true.
Proof.
  intros H. pose proof (EXTERNAL_collect_cut_data_dom _ _ _ H) as (Hdom & Hp).
  split; [exact Hdom|]. unfold EXTERNAL_collect_cut_data in H.
  destruct (benders_asserts ph scenario); [|discriminate].
  destruct (dual_source ph scenario) as [[src pb]|]; cbn [mbind option_bind] in H;
    [|discriminate].
  destruct (collect_duals _ _ _ _ _) as [ds|]; cbn [mbind option_bind] in H; [|discriminate].
  injection H as <-. simpl. auto.
Qed.

(** X5.  A scenario of probability zero has no cut data as soon as there is
    a first-stage variable: the scaling divides by the probability. *)
Theorem collect_cut_data_zero_probability ph scenario :
  scenario_probability scenario == 0 ->
  root_variable_ids (_scenario_tree ph) <> [] ->
  EXTERNAL_collect_cut_data ph scenario = None.
Proof.
  intros Hp Hids. destruct (EXTERNAL_collect_cut_data ph scenario) as [res|] eqn:E;
    [|reflexivity].
  apply EXTERNAL_collect_cut_data_dom in E. destruct E as (_ & Hnz).
  exfalso. exact (Hnz Hids Hp).
Qed.

(** ** The cut data of all scenarios *)

Lemma collect_cut_data_loop_spec ph (scs : list Scenario) :
  forall results out,
    collect_cut_data_loop ph scs results = Some out ->
    dom out = dom results ∪ list_to_set (map scenario_name scs) /\
    (forall name,
        out !! name =
        match last (filter (fun s => scenario_name s = name) scs) with
        | Some s => EXTERNAL_collect_cut_data ph s
        | None => results !! name
        end) /\
    Forall (fun s => is_Some (EXTERNAL_collect_cut_data ph s)) scs.
Proof.
  induction scs as [|s scs IH]; intros results out H.
  - injection H as <-. split; [set_solver|]. split; [reflexivity|constructor].
  - cbn [collect_cut_data_loop] in H.
    destruct (EXTERNAL_collect_cut_data ph s) as [r|] eqn:Hr; cbn [mbind option_bind] in H;
      [|discriminate].
    apply IH in H. destruct H as (Hdom & Hlook & Hall). split; [|split].
    + rewrite Hdom, dom_insert_L. set_solver.
    + intros name. rewrite Hlook, filter_cons.
      destruct (decide (scenario_name s = name)) as [Heq|Hne].
      * destruct (filter _ scs) as [|s' l] eqn:Hf.
        -- simpl. rewrite <- Heq, lookup_insert_eq. congruence.
        -- change (last (s :: s' :: l)) with (last (s' :: l)).
           destruct (last (s' :: l)) eqn:Hl; [reflexivity|].
           apply last_None in Hl. discriminate.
      * destruct (last (filter _ scs)); [reflexivity|]. apply lookup_insert_ne. exact Hne.
    + constructor; [rewrite Hr; eauto|exact Hall].
Qed.

Lemma collect_cut_data_loop_total ph (scs : list Scenario) :
  Forall (fun s => is_Some (EXTERNAL_collect_cut_data ph s)) scs ->
  forall results, is_Some (collect_cut_data_loop ph scs results).
Proof.
  induction 1 as [|s scs [r Hr] _ IH]; intros results; simpl; [eauto|].
  rewrite Hr. simpl. apply IH.
Qed.

Lemma last_filter_unique (scs : list Scenario) (s : Scenario) :
  NoDup (map scenario_name scs) ->
  s ∈ scs ->
  last (filter (fun s' => scenario_name s' = scenario_name s) scs) = Some s.
Proof.
  induction scs as [|a scs IH]; intros Hnd Hin; [inversion Hin|].
  simpl in Hnd. apply NoDup_cons in Hnd. destruct Hnd as [Ha Hnd].
  rewrite filter_cons. apply elem_of_cons in Hin. destruct Hin as [->|Hin].
  - rewrite decide_True by reflexivity.
    assert (Hnil : filter (fun s' => scenario_name s' = scenario_name a) scs = []).
    { destruct (filter _ scs) as [|x l] eqn:Hf; [reflexivity|]. exfalso.
      assert (Hx : x ∈ filter (fun s' => scenario_name s' = scenario_name a) scs).
      { rewrite Hf. apply elem_of_cons. auto. }
      apply list_elem_of_filter in Hx. destruct Hx as [Heq Hx]. apply Ha.
      rewrite <- Heq. apply (list_elem_of_fmap_2 scenario_name). exact Hx. }
    rewrite Hnil. reflexivity.
  - rewrite decide_False.
    + apply IH; assumption.
    + intros Heq. apply Ha. rewrite Heq. apply (list_elem_of_fmap_2 scenario_name).
      exact Hin.
Qed.

(** X6.  The serial collection of cut data does not depend on the order in
    which the scenarios are visited, as long as their names are distinct:
    the result is keyed by scenario name and holds, for every scenario, the
    cut data of that scenario. *)
Theorem collect_cut_data_order_independent ph (scs scs' : list Scenario) :
  NoDup (map scenario_name scs) ->
  scs ≡ₚ scs' ->
  collect_cut_data_loop ph scs ∅ = collect_cut_data_loop ph scs' ∅ /\
  forall out s,
    collect_cut_data_loop ph scs ∅ = Some out ->
    s ∈ scs ->
    out !! scenario_name s = EXTERNAL_collect_cut_data ph s.
Proof.
  intros Hnd Hperm.
  assert (Hnd' : NoDup (map scenario_name scs')).
  { rewrite <- Hperm. exact Hnd. }
  assert (Hpoint : forall l out s, NoDup (map scenario_name l) ->
             collect_cut_data_loop ph l ∅ = Some out -> s ∈ l ->
             out !! scenario_name s = EXTERNAL_collect_cut_data ph s).
  { intros l out s Hl Hout Hs. apply collect_cut_data_loop_spec in Hout.
    destruct Hout as (_ & Hlook & _). rewrite Hlook, (last_filter_unique _ _ Hl Hs).
    reflexivity. }
  split; [|intros out s; apply Hpoint; exact Hnd].
  destruct (collect_cut_data_loop ph scs ∅) as [out|] eqn:H1;
    destruct (collect_cut_data_loop ph scs' ∅) as [out'|] eqn:H2.
  - f_equal. apply map_eq. intros name.
    pose proof (collect_cut_data_loop_spec _ _ _ _ H1) as (Hd1 & _ & _).
    pose proof (collect_cut_data_loop_spec _ _ _ _ H2) as (Hd2 & _ & _).
    destruct (decide (name ∈ map scenario_name scs)) as [Hin|Hnin].
    + apply list_elem_of_fmap in Hin. destruct Hin as (s & -> & Hs).
      rewrite (Hpoint _ _ _ Hnd H1 Hs).
      rewrite (Hpoint _ _ _ Hnd' H2 ltac:(rewrite <- Hperm; exact Hs)). reflexivity.
    + assert (Hn1 : name ∉ dom out) by (rewrite Hd1; set_solver).
      assert (Hn2 : name ∉ dom out').
      { rewrite Hd2. rewrite <- Hperm. set_solver. }
      apply not_elem_of_dom in Hn1, Hn2. congruence.
  - exfalso. apply collect_cut_data_loop_spec in H1. destruct H1 as (_ & _ & Hall).
    rewrite Hperm in Hall.
    destruct (collect_cut_data_loop_total ph scs' Hall ∅) as [x Hx]. congruence.
  - exfalso. apply collect_cut_data_loop_spec in H2. destruct H2 as (_ & _ & Hall).
    rewrite <- Hperm in Hall.
    destruct (collect_cut_data_loop_total ph scs Hall ∅) as [x Hx]. congruence.
  - reflexivity.
Qed.

(** ** Generating a cut *)

Lemma get_scenario_some t (s : Scenario) :
  s ∈ _scenarios t -> is_Some (get_scenario t (scenario_name s)).
Proof.
  unfold get_scenario. induction (_scenarios t) as [|a l IH]; intros Hin; [inversion Hin|].
  simpl. destruct (String.eqb (scenario_name a) (scenario_name s)) eqn:E; [eauto|].
  apply elem_of_cons in Hin. destruct Hin as [->|Hin]; [|auto].
  rewrite String.eqb_refl in E. discriminate.
Qed.

Lemma extract_master_xbars_lookup results_master ph v :
  extract_master_xbars results_master ph !! v =
  if decide (v ∈ root_variable_ids (_scenario_tree ph))
  then Some (master_values results_master v) else None.
Proof.
  unfold extract_master_xbars. induction (root_variable_ids (_scenario_tree ph)) as [|a l IH].
  - rewrite decide_False by apply not_elem_of_nil. apply lookup_empty.
  - rewrite map_cons, list_to_map_cons. cbn [fst snd].
    destruct (decide (a = v)) as [->|Hne].
    + rewrite lookup_insert_eq. rewrite decide_True by (apply elem_of_cons; auto). reflexivity.
    + rewrite lookup_insert_ne by exact Hne. rewrite IH.
      destruct (decide (v ∈ l)) as [Hin|Hnin].
      * rewrite decide_True by (apply elem_of_cons; auto). reflexivity.
      * rewrite decide_False; [reflexivity|]. rewrite elem_of_cons. intros [->|?]; tauto.
Qed.

Section GenerateFacts.
Variable ph_solve_subproblems : ProgressiveHedging -> option SubSolution.
Variable master_solver_solve : Master -> bool -> option MasterResult.
Variable warm_start_capable : bool.
Variable options : Options.

Abbreviation generate_cut := (generate_cut ph_solve_subproblems).
Abbreviation benders_iteration :=
  (benders_iteration ph_solve_subproblems master_solver_solve warm_start_capable options).

Lemma generate_cut_keys ph xbars benders_cut ph' :
  generate_cut ph xbars = Some (benders_cut, ph') ->
  cut_xbars benders_cut = xbars /\
  _scenario_tree ph' = _scenario_tree ph /\
  dom (cut_ssc benders_cut) = list_to_set (scenario_names (_scenario_tree ph)) /\
  dom (cut_duals benders_cut) = list_to_set (scenario_names (_scenario_tree ph)) /\
  (forall name scenario_duals,
      cut_duals benders_cut !! name = Some scenario_duals ->
      dom scenario_duals = list_to_set (root_variable_ids (_scenario_tree ph))).
Proof.
  intros H. pose proof (generate_cut_static _ _ _ _ _ H) as (Ht & _ & Hx).
  unfold Benders.generate_cut, Benders.solve_subproblems in H.
  destruct (update_fix_constraints xbars ph) as [ph0|] eqn:H0; simpl in H; [|discriminate].
  pose proof (update_fix_constraints_same _ _ _ H0) as (Ht0 & _).
  destruct (ph_solve_subproblems ph0) as [sol|]; simpl in H; [|discriminate].
  destruct (collect_cut_data _) as [cd|] eqn:Hcd; simpl in H; [|discriminate].
  injection H as <- <-. simpl.
  unfold collect_cut_data in Hcd. simpl in Hcd.
  apply collect_cut_data_loop_spec in Hcd. destruct Hcd as (Hdom & Hlook & _).
  rewrite dom_empty_L, left_id_L in Hdom; [|apply _].
  split; [reflexivity|].
  split; [exact Ht0|]. rewrite !dom_fmap_L, Hdom, Ht0.
  split; [reflexivity|]. split; [reflexivity|].
  intros name sd Hsd. rewrite lookup_fmap in Hsd.
  destruct (cd !! name) as [r|] eqn:Hr; [|discriminate]. injection Hsd as <-.
  rewrite Hlook in Hr. destruct (last _) as [s|]; [|rewrite lookup_empty in Hr; discriminate].
  apply EXTERNAL_collect_cut_data_dom in Hr. destruct Hr as (Hd & _). rewrite Hd. simpl.
  rewrite Ht0. reflexivity.
Qed.

(** X7.  A cut that [generate_cut] returns records the trial point it was
    asked for; its costs and duals are keyed by exactly the scenario names,
    the duals of every scenario by exactly the first-stage variable ids;
    and the cost it holds for a scenario is that scenario's stage cost in
    the solution the subproblem solve left. *)
Theorem generate_cut_shape ph xbars benders_cut ph' :
  generate_cut ph xbars = Some (benders_cut, ph') ->
  cut_xbars benders_cut = xbars /\
  _scenario_tree ph' = _scenario_tree ph /\
  dom (cut_ssc benders_cut) = list_to_set (scenario_names (_scenario_tree ph)) /\
  dom (cut_duals benders_cut) = list_to_set (scenario_names (_scenario_tree ph)) /\
  (forall name scenario_duals,
      cut_duals benders_cut !! name = Some scenario_duals ->
      dom scenario_duals = list_to_set (root_variable_ids (_scenario_tree ph))) /\
  (forall name,
      name ∈ scenario_names (_scenario_tree ph) ->
      cut_ssc benders_cut !! name = Some (scenario_stage_cost (solution ph') name)).
Proof.
  intros H. pose proof (generate_cut_keys _ _ _ _ H) as (Hx & Ht & Hs & Hd & Hsd).
  split; [exact Hx|]. split; [exact Ht|]. split; [exact Hs|]. split; [exact Hd|].
  split; [exact Hsd|].
  intros name Hname. unfold Benders.generate_cut, Benders.solve_subproblems in H.
  destruct (update_fix_constraints xbars ph) as [ph0|] eqn:H0; simpl in H; [|discriminate].
  destruct (ph_solve_subproblems ph0) as [sol|]; simpl in H; [|discriminate].
  destruct (collect_cut_data _) as [cd|] eqn:Hcd; simpl in H; [|discriminate].
  injection H as <- <-. simpl in *.
  assert (Hin : name ∈ dom (SSC <$> cd)) by (rewrite Hs; apply elem_of_list_to_set, Hname).
  apply elem_of_dom in Hin. destruct Hin as [c Hc]. rewrite Hc. f_equal.
  rewrite lookup_fmap in Hc. destruct (cd !! name) as [r|] eqn:Hr; [|discriminate].
  injection Hc as <-. unfold collect_cut_data in Hcd.
  apply collect_cut_data_loop_spec in Hcd. destruct Hcd as (_ & Hlook & _).
  rewrite Hlook in Hr.
  destruct (last _) as [s|] eqn:El; [|rewrite lookup_empty in Hr; discriminate].
  apply last_Some_elem_of, list_elem_of_filter in El. destruct El as (Hn & _).
  unfold EXTERNAL_collect_cut_data in Hr.
  destruct (benders_asserts _ s); [|discriminate].
  destruct (dual_source _ s) as [[src pb]|]; cbn [mbind option_bind] in Hr; [|discriminate].
  destruct (collect_duals _ _ _ _ _) as [ds|]; cbn [mbind option_bind] in Hr; [|discriminate].
  injection Hr as <-. simpl. rewrite Hn. reflexivity.
Qed.

Lemma generated_cut_defined ph xbars benders_cut ph' :
  generate_cut ph xbars = Some (benders_cut, ph') ->
  Forall (fun v => is_Some (xbars !! v)) (root_variable_ids (_scenario_tree ph)) ->
  cut_definedb (_scenario_tree ph') benders_cut (scenario_names (_scenario_tree ph')) = true.
Proof.
  intros H Hx. apply generate_cut_keys in H.
  destruct H as (Hcx & Ht & Hs & Hd & Hsd). rewrite Forall_forall in Hx.
  unfold cut_definedb. rewrite forallb_forall. intros name Hname.
    apply list_elem_of_In in Hname. rewrite Ht in *.
    assert (Hname' := Hname). unfold scenario_names in Hname'.
    apply list_elem_of_fmap in Hname'. destruct Hname' as (s & -> & Hin).
    destruct (get_scenario_some _ _ Hin) as [sc ->].
    assert (Hin1 : scenario_name s ∈ dom (cut_ssc benders_cut)).
    { rewrite Hs. apply elem_of_list_to_set. exact Hname. }
    assert (Hin2 : scenario_name s ∈ dom (cut_duals benders_cut)).
    { rewrite Hd. apply elem_of_list_to_set. exact Hname. }
    apply elem_of_dom in Hin1, Hin2. destruct Hin1 as [c ->]. destruct Hin2 as [sd Hsd'].
    rewrite Hsd'. rewrite forallb_forall. intros v Hv. apply list_elem_of_In in Hv.
    assert (Hv1 : v ∈ dom sd).
    { rewrite (Hsd _ _ Hsd'). apply elem_of_list_to_set. exact Hv. }
    apply elem_of_dom in Hv1. destruct Hv1 as [d ->].
    rewrite Hcx. destruct (Hx v Hv) as [xb ->]. reflexivity.
Qed.

(** X8.  A cut that [generate_cut] returns for a trial point that gives a
    value to every first-stage variable is always accepted by [add_cut]: no
    lookup of the aggregate cut can fail. *)
Theorem generated_cut_is_accepted ph xbars benders_cut ph' m :
  generate_cut ph xbars = Some (benders_cut, ph') ->
  Forall (fun v => is_Some (xbars !! v)) (root_variable_ids (_scenario_tree ph)) ->
  cut_definedb (_scenario_tree ph') benders_cut (scenario_names (_scenario_tree ph')) = true /\
  is_Some (add_cut m ph' benders_cut false).
Proof.
  intros H Hx. pose proof (generated_cut_defined _ _ _ _ H Hx) as Hdef.
  split; [exact Hdef|]. apply add_cut_total. exact Hdef.
Qed.

Lemma expected_ssc_total (ssc : gmap string Q) (scs : list Scenario) :
  Forall (fun s => is_Some (ssc !! scenario_name s)) scs ->
  forall acc, is_Some (expected_ssc ssc scs acc).
Proof.
  induction 1 as [|s scs [c Hc] _ IH]; intros acc; simpl; [eauto|].
  rewrite Hc. simpl. apply IH.
Qed.

Lemma dict_set_not_nil {V} (k : Z) (v : V) (d : dict V) : dict_set k v d <> [].
Proof. destruct d as [|[k' v'] d]; simpl; [discriminate|]. destruct (k' =? k)%Z; discriminate. Qed.

Lemma best_incumbent_is_Some s (h : dict Q) : h <> [] -> is_Some (best_incumbent s h).
Proof.
  unfold best_incumbent, py_max, py_min, values. destruct h; [congruence|].
  intros _. destruct s; simpl; eauto.
Qed.

(** X9.  Of the steps of an iteration that the model follows (the timing
    statistics printed with the row are not among them), three only can
    fail: the master solve returns no solution, alpha is found fixed at an
    iteration other than the first, or the generation of the cut fails (a
    subproblem solve or the collection of its cut data).  Recording the
    bounds, summing the expected cost, taking the best bound and incumbent,
    computing the gap and adding the cut never fail. *)
Theorem benders_iteration_failure_modes i st :
  is_Some (benders_iteration i st) <->
  exists results_master,
    master_solver_solve (_master st) (use_warmstart warm_start_capable options)
      = Some results_master /\
    (alpha_fixed (_master st) = true -> i = 1%Z) /\
    is_Some (generate_cut (enter_iteration (_ph st))
               (extract_master_xbars results_master (enter_iteration (_ph st)))).
Proof.
  split.
  - intros [[st' c] H]. apply benders_iteration_inv in H.
    destruct H as (res & master1 & log1 & cutinfo & ph1 & recourse & best & inc & H).
    cbv zeta in H. destruct H as (Hres & Hpre & Hgen & _).
    exists res. split; [exact Hres|]. split; [|rewrite Hgen; eauto].
    intros Hf. rewrite Hf in Hpre. tauto.
  - intros (res & Hres & Hfix & [[cutinfo ph1] Hgen]).
    unfold Benders.benders_iteration. rewrite Hres. cbn [mbind option_bind].
    set (pre := if alpha_fixed (_master st) then _ else _).
    assert (Hpre : exists master1 log1, pre = Some (master1, log1)).
    { subst pre. destruct (alpha_fixed (_master st)); [|eauto].
      rewrite (Hfix eq_refl). simpl. eauto. }
    destruct Hpre as (master1 & log1 & ->). cbn [mbind option_bind].
    rewrite Hgen. cbn [mbind option_bind].
    pose proof (generate_cut_keys _ _ _ _ Hgen) as (_ & Ht & Hs & _).
    destruct (expected_ssc_total (cut_ssc cutinfo) (_scenarios (_scenario_tree ph1)))
      with (acc := 0) as [recourse Hrec].
    { rewrite Forall_forall. intros s Hin. rewrite Ht in Hin. apply elem_of_dom. rewrite Hs.
      apply elem_of_list_to_set. apply (list_elem_of_fmap_2 scenario_name). exact Hin. }
    rewrite Hrec. cbn [mbind option_bind].
    match goal with
    | |- context [best_bound ?s ?h] =>
        destruct (best_bound_is_Some s h) as [best Hbest]; [apply dict_set_not_nil|]
    end.
    rewrite Hbest. cbn [mbind option_bind].
    match goal with
    | |- context [best_incumbent ?s ?h] =>
        destruct (best_incumbent_is_Some s h) as [inc Hinc]; [apply dict_set_not_nil|]
    end.
    rewrite Hinc. cbn [mbind option_bind].
    destruct (xleb _ _); [eauto|].
    match goal with
    | |- context [add_cut ?m ?p ?c false] =>
        assert (Hadd : is_Some (add_cut m p c false))
    end.
    { apply add_cut_total.
      assert (Hdef : cut_definedb (_scenario_tree ph1) cutinfo
                       (scenario_names (_scenario_tree ph1)) = true).
      { eapply generated_cut_defined; [exact Hgen|].
        rewrite Forall_forall. intros v Hv. rewrite extract_master_xbars_lookup.
        rewrite decide_True by exact Hv. eauto. }
      destruct (if sense_eqb _ _ then _ else _); exact Hdef. }
    destruct Hadd as [m2 Hm2]. rewrite Hm2. cbn [mbind option_bind]. eauto.
Qed.

End GenerateFacts.

(** ** The master built by [initialize] *)

Lemma round_robin_step (B cnt j : nat) :
  (0 < B)%nat -> (j < B)%nat ->
  (S cnt / B + (if (j <? S cnt mod B)%nat then 1 else 0)
   = cnt / B + (if (j <? cnt mod B)%nat then 1 else 0)
     + (if (j =? cnt mod B)%nat then 1 else 0))%nat.
Proof.
  intros HB Hj.
  pose proof (Nat.div_mod_eq cnt B) as Hdm.
  pose proof (Nat.mod_upper_bound cnt B ltac:(lia)) as Hr.
  destruct (decide (cnt mod B = B - 1)%nat) as [Hlast|Hmid].
  - assert (Hq : (S cnt / B = S (cnt / B))%nat).
    { symmetry. apply (Nat.div_unique (S cnt) B (S (cnt / B)) 0); lia. }
    assert (Hm : (S cnt mod B = 0)%nat).
    { symmetry. apply (Nat.mod_unique (S cnt) B (S (cnt / B)) 0); lia. }
    rewrite Hq, Hm. destruct (Nat.ltb_spec j 0); [lia|].
    destruct (Nat.ltb_spec j (cnt mod B)); destruct (Nat.eqb_spec j (cnt mod B)); lia.
  - assert (Hq : (S cnt / B = cnt / B)%nat).
    { symmetry. apply (Nat.div_unique (S cnt) B (cnt / B) (S (cnt mod B))); lia. }
    assert (Hm : (S cnt mod B = S (cnt mod B))%nat).
    { symmetry. apply (Nat.mod_unique (S cnt) B (cnt / B) (S (cnt mod B))); lia. }
    rewrite Hq, Hm.
    destruct (Nat.ltb_spec j (S (cnt mod B))); destruct (Nat.ltb_spec j (cnt mod B));
      destruct (Nat.eqb_spec j (cnt mod B)); lia.
Qed.

Lemma assign_bundles_sizes (B : nat) (names : list string) :
  (0 < B)%nat ->
  forall cnt bundles bs,
    length bundles = B ->
    (forall j b, bundles !! j = Some b ->
       length b = (cnt / B + (if (j <? cnt mod B)%nat then 1 else 0))%nat) ->
    assign_bundles B cnt names bundles = Some bs ->
    forall j b, bs !! j = Some b ->
      length b = ((cnt + length names) / B
                  + (if (j <? (cnt + length names) mod B)%nat then 1 else 0))%nat.
Proof.
  intros HB. induction names as [|name rest IH]; intros cnt bundles bs Hlen Hinv H.
  - injection H as <-. simpl. rewrite Nat.add_0_r. exact Hinv.
  - cbn [assign_bundles] in H.
    destruct (bundles !! (cnt mod B)%nat) as [b0|] eqn:Hb0; cbn [mbind option_bind] in H;
      [|discriminate].
    intros j b Hj. simpl length. replace (cnt + S (length rest))%nat
      with (S cnt + length rest)%nat by lia.
    eapply (IH (S cnt)); [| |exact H|exact Hj].
    + rewrite length_insert. exact Hlen.
    + intros k bk Hk.
      assert (HkB : (k < B)%nat).
      { apply lookup_lt_Some in Hk. rewrite length_insert in Hk. lia. }
      rewrite (round_robin_step B cnt k HB HkB).
      destruct (Nat.eqb_spec k (cnt mod B)) as [->|Hne].
      * rewrite list_lookup_insert_eq in Hk by (apply lookup_lt_Some in Hb0; exact Hb0).
        injection Hk as <-. rewrite length_app. simpl.
        rewrite (Hinv _ _ Hb0). lia.
      * rewrite list_lookup_insert_ne in Hk by auto. rewrite (Hinv _ _ Hk). lia.
Qed.

(** X10.  The round-robin bundles are balanced: with [n] scenarios and [B]
    cut groups, bundle [j] holds [n / B] scenarios and one more when
    [j < n mod B].  No bundle is empty and two bundles differ by at most
    one scenario. *)
Theorem round_robin_bundles_balanced (multicuts : Z) (names : list string)
    (bundles : list (list string)) :
  make_bundles multicuts names = Some bundles ->
  (forall j b, bundles !! j = Some b ->
     length b = (length names / Z.to_nat multicuts
                 + (if (j <? length names mod Z.to_nat multicuts)%nat then 1 else 0))%nat) /\
  (forall b, b ∈ bundles -> b <> []) /\
  (forall b b', b ∈ bundles -> b' ∈ bundles -> (length b <= S (length b'))%nat).
Proof.
  intros H. unfold make_bundles in H.
  destruct (1 <=? multicuts)%Z eqn:E1; [|discriminate].
  destruct (multicuts <=? Z.of_nat (length names))%Z eqn:E2; [|discriminate].
  simpl in H. apply Z.leb_le in E1, E2.
  set (B := Z.to_nat multicuts) in *.
  assert (HB : (0 < B)%nat) by lia.
  assert (HBn : (B <= length names)%nat) by lia.
  assert (Hsize : forall j b, bundles !! j = Some b ->
            length b = (length names / B
                        + (if (j <? length names mod B)%nat then 1 else 0))%nat).
  { intros j b Hj.
    apply (assign_bundles_sizes B names HB 0%nat (replicate B []) bundles); auto.
    - apply length_replicate.
    - intros k bk Hk. apply lookup_replicate in Hk. destruct Hk as [-> Hk].
      rewrite Nat.Div0.div_0_l, Nat.Div0.mod_0_l. reflexivity. }
  assert (Hq : (1 <= length names / B)%nat).
  { apply Nat.div_le_lower_bound; lia. }
  split; [exact Hsize|]. split.
  - intros b Hb Hnil. apply list_elem_of_lookup in Hb. destruct Hb as [j Hj].
    apply Hsize in Hj. rewrite Hnil in Hj. simpl in Hj. lia.
  - intros b b' Hb Hb'. apply list_elem_of_lookup in Hb, Hb'.
    destruct Hb as [j Hj]. destruct Hb' as [j' Hj'].
    rewrite (Hsize _ _ Hj), (Hsize _ _ Hj').
    destruct (j <? _)%nat; destruct (j' <? _)%nat; lia.
Qed.

Lemma value_py_sum env (ts : list expr) :
  value env (py_sum ts) == Qsum (map (value env) ts).
Proof.
  unfold py_sum.
  assert (H : forall acc, value env (fold_left EAdd ts acc)
                          == value env acc + Qsum (map (value env) ts)).
  { induction ts as [|t ts IH]; intros acc; simpl.
    - ring.
    - rewrite IH. simpl. ring. }
  rewrite H. simpl. ring.
Qed.

(** X11.  [initialize] fails exactly when the number of cut groups is not
    between 1 and the number of scenarios.  The master it builds ties alpha
    to the bundle alphas: at every point the linking constraint holds iff
    [alpha >= Σ_b alpha_b] under minimize and [alpha <= Σ_b alpha_b] under
    maximize, the sum running over one bundle alpha per cut group. *)
Theorem initialize_range_and_link options ph :
  (initialize options ph = None <->
   ~ (1 <= multicuts options
      <= Z.of_nat (length (_scenarios (_scenario_tree ph))))%Z) /\
  (forall m env,
      initialize options ph = Some m ->
      bundle_alpha_index m = Z.to_nat (multicuts options) /\
      (holds env (PYSP_BUNDLE_AVERAGE_ALPHA_CUT m) <->
       match _objective_sense ph with
       | minimize =>
           Qsum (map (val_bundle_alpha env) (seq 0 (bundle_alpha_index m))) <= val_alpha env
       | maximize =>
           val_alpha env <= Qsum (map (val_bundle_alpha env) (seq 0 (bundle_alpha_index m)))
       end)).
Proof.
  assert (Hn : length (scenario_names (_scenario_tree ph))
               = length (_scenarios (_scenario_tree ph))).
  { unfold scenario_names. apply length_map. }
  split.
  - unfold initialize. rewrite <- Hn. split.
    + intros H HB. destruct (make_bundles_spec _ _ HB) as (bundles & Hmk & _).
      rewrite Hmk in H. discriminate.
    + intros HB. unfold make_bundles.
      destruct (1 <=? multicuts options)%Z eqn:E1; [|reflexivity].
      destruct (multicuts options <=? _)%Z eqn:E2; [|reflexivity].
      exfalso. apply HB. apply Z.leb_le in E1, E2. lia.
  - intros m env H. unfold initialize in H.
    destruct (make_bundles _ _) as [bundles|]; simpl in H; [|discriminate].
    injection H as <-. simpl. split; [reflexivity|].
    assert (Hsum : value env (py_sum (map EBundleAlpha (seq 0 (Z.to_nat (multicuts options)))))
                   == Qsum (map (val_bundle_alpha env)
                              (seq 0 (Z.to_nat (multicuts options))))).
    { rewrite value_py_sum, map_map. reflexivity. }
    destruct (_objective_sense ph); simpl; rewrite Hsum; reflexivity.
Qed.

(** ** The loop, step by step *)

Lemma iterations_S (first : Z) (k : nat) :
  iterations first (S k) = first :: iterations (first + 1) k.
Proof.
  unfold iterations. simpl. rewrite Z.add_0_r. f_equal.
  rewrite <- seq_shift, map_map. apply map_ext. intros j. lia.
Qed.

Lemma iterations_1 (first : Z) : iterations first 1 = [first].
Proof. unfold iterations. simpl. rewrite Z.add_0_r. reflexivity. Qed.

Lemma keys_dict_set_fresh {V} (k : Z) (v : V) (d : dict V) :
  ~ In k (keys d) -> keys (dict_set k v d) = keys d ++ [k].
Proof.
  intros H. rewrite dict_set_fresh by exact H. unfold keys. rewrite map_app. reflexivity.
Qed.

Lemma dict_get_set_ne {V} (k k' : Z) (v : V) (d : dict V) :
  k <> k' -> dict_get k' (dict_set k v d) = dict_get k' d.
Proof.
  intros Hne. induction d as [|[a w] d IH]; simpl.
  - destruct (k =? k')%Z eqn:E; [apply Z.eqb_eq in E; congruence|reflexivity].
  - destruct (a =? k)%Z eqn:E; simpl.
    + apply Z.eqb_eq in E. subst a.
      destruct (k =? k')%Z eqn:E'; [apply Z.eqb_eq in E'; congruence|reflexivity].
    + destruct (a =? k')%Z; [reflexivity|exact IH].
Qed.

(** [for_scenarios] over an [EXTERNAL_] function runs its assertions on
    every scenario. *)
Lemma for_scenarios_asserts f (scs : list Scenario) :
  (forall ph s ph', f ph s = Some ph' ->
     benders_asserts ph s = true /\ _scenario_tree ph' = _scenario_tree ph) ->
  forall ph ph',
    for_scenarios f scs ph = Some ph' ->
    scs <> [] ->
    length (_stages (_scenario_tree ph)) = 2%nat.
Proof.
  intros Hf ph ph' H Hne. destruct scs as [|s rest]; [congruence|].
  cbn [for_scenarios] in H. destruct (f ph s) as [pa|] eqn:E; [|discriminate].
  apply Hf in E. destruct E as (E & _). unfold benders_asserts in E.
  apply andb_prop in E. destruct E as (E & _). apply Nat.eqb_eq in E. exact E.
Qed.

Lemma Qltb_true_lt (x y : Q) : Qltb x y = true -> x < y.
Proof.
  unfold Qltb. intros H. apply negb_true_iff in H. apply Qnot_le_lt. intros Hle.
  apply Qle_bool_iff in Hle. congruence.
Qed.

Lemma no_worse_incumbent_refl s a : no_worse_incumbent s a a.
Proof. destruct s; simpl; apply Qle_refl. Qed.

Lemma no_worse_incumbent_trans s a b c :
  no_worse_incumbent s a b -> no_worse_incumbent s b c -> no_worse_incumbent s a c.
Proof. destruct s; simpl; intros H1 H2; eapply Qle_trans; eassumption. Qed.

(** Recording under a fresh key keeps the old incumbent unless the new
    entry is strictly better. *)
Lemma best_incumbent_record s (h : dict Q) i v cb :
  ~ In i (keys h) ->
  best_incumbent s h = Some cb ->
  best_incumbent s (dict_set i v h)
  = Some (if (if sense_eqb s minimize then Qltb v cb else Qltb cb v) then v else cb).
Proof.
  intros Hfresh Hcb. rewrite dict_set_fresh by exact Hfresh.
  unfold best_incumbent, values in *. rewrite map_app. simpl.
  destruct (map snd h) as [|x r]; [destruct s; discriminate|].
  destruct s; simpl in *; injection Hcb as <-; rewrite fold_left_app; reflexivity.
Qed.

Lemma incumbents_app (a b : list event) :
  incumbents (a ++ b) = incumbents a ++ incumbents b.
Proof. apply omap_app. Qed.

Lemma improves_start s inc :
  improves s inc (if sense_eqb s minimize then PosInf else NegInf) = true.
Proof. destruct s; reflexivity. Qed.

Section LoopFacts.
Variable ph_solve_subproblems : ProgressiveHedging -> option SubSolution.
Variable master_solver_solve : Master -> bool -> option MasterResult.
Variable warm_start_capable : bool.
Variable options : Options.

Abbreviation generate_cut := (generate_cut ph_solve_subproblems).
Abbreviation benders_iteration :=
  (benders_iteration ph_solve_subproblems master_solver_solve warm_start_capable options).
Abbreviation benders_loop :=
  (benders_loop ph_solve_subproblems master_solver_solve warm_start_capable options).
Abbreviation solve :=
  (solve ph_solve_subproblems master_solver_solve warm_start_capable options).
Abbreviation seed_cut := (seed_cut ph_solve_subproblems).
Abbreviation solve_subproblems := (solve_subproblems ph_solve_subproblems).

(** What one iteration adds to the log, to the cut pool and to the
    histories. *)
Lemma benders_iteration_step i st st' c :
  benders_iteration i st = Some (st', c) ->
  exists cutinfo cmb cur inc ext,
    log st' = log st ++ ext /\
    master_solves ext = [i] /\
    freed_at ext = (if alpha_fixed (_master st) then [i] else []) /\
    converged_at ext = (if c then [i] else []) /\
    cuts_added ext = (if c then [] else [cutinfo]) /\
    incumbents ext = [inc] /\
    incumbent_objective st' = Fin inc /\
    best_incumbent (_objective_sense (_ph st)) (OBJECTIVE_history st') = Some inc /\
    MASTER_bound_history st' = dict_set i (Fin cmb) (MASTER_bound_history st) /\
    OBJECTIVE_history st' = dict_set i cur (OBJECTIVE_history st) /\
    (c = true -> (0 <= percent_gap options)) /\
    alpha_fixed (_master st') = false /\
    bundle_alpha_index (_master st') = bundle_alpha_index (_master st) /\
    PYSP_BENDERS_CUT_BUNDLES (_master st') = PYSP_BENDERS_CUT_BUNDLES (_master st) /\
    PYSP_BUNDLE_AVERAGE_ALPHA_CUT (_master st') = PYSP_BUNDLE_AVERAGE_ALPHA_CUT (_master st) /\
    exists es,
      PYSP_BENDERS_CUTS (_master st') =
        PYSP_BENDERS_CUTS (_master st) ++ map (sense_cut (_objective_sense (_ph st'))) es /\
      length es = length (cuts_added ext).
Proof.
  intros H. pose proof (benders_iteration_frees_alpha _ _ _ _ _ _ _ _ H) as Hfree.
  apply benders_iteration_inv in H.
  destruct H as (res & master1 & log1 & cutinfo & ph1 & recourse & best & inc & H).
  cbv zeta in H.
  destruct H as (_ & Hpre & _ & _ & _ & Hinc & Hc & Hh & Ho & Hi & Hph & Hlog & Hm).
  set (s := _objective_sense (_ph st)) in *.
  set (cmb := current_master_bound_of s res) in *.
  set (cur := cmb - master_alpha_value res + recourse) in *.
  set (improved := if sense_eqb s minimize then _ else _) in *.
  assert (Hm1 : log1 = EvSolveMaster i ::
                  (if alpha_fixed (_master st) then [EvFreeAlpha i] else []) /\
                bundle_alpha_index master1 = bundle_alpha_index (_master st) /\
                PYSP_BENDERS_CUT_BUNDLES master1 = PYSP_BENDERS_CUT_BUNDLES (_master st) /\
                PYSP_BUNDLE_AVERAGE_ALPHA_CUT master1
                  = PYSP_BUNDLE_AVERAGE_ALPHA_CUT (_master st) /\
                PYSP_BENDERS_CUTS master1 = PYSP_BENDERS_CUTS (_master st)).
  { destruct (alpha_fixed (_master st)) eqn:E.
    - destruct Hpre as (_ & -> & ->). repeat split.
    - destruct Hpre as (-> & ->). repeat split. }
  destruct Hm1 as (Hl1 & Hi1 & Hb1 & Hk1 & Hc1).
  exists cutinfo, cmb, cur, inc.
  exists (log1 ++ [EvGenerateCut (extract_master_xbars res (enter_iteration (_ph st)))]
            ++ (if improved then [EvCacheSolutions i] else [])
            ++ [EvRow i cmb best inc (gap best inc)]
            ++ [if c then EvConverged i else EvAddCut cutinfo]).
  split; [rewrite Hlog, <- !app_assoc; reflexivity|].
  split.
  { unfold master_solves. rewrite !omap_app, Hl1.
    destruct (alpha_fixed (_master st)), improved, c; reflexivity. }
  split.
  { unfold freed_at. rewrite !omap_app, Hl1.
    destruct (alpha_fixed (_master st)), improved, c; reflexivity. }
  split.
  { unfold converged_at. rewrite !omap_app, Hl1.
    destruct (alpha_fixed (_master st)), improved, c; reflexivity. }
  assert (Hadded : cuts_added
            (log1 ++ [EvGenerateCut (extract_master_xbars res (enter_iteration (_ph st)))]
               ++ (if improved then [EvCacheSolutions i] else [])
               ++ [EvRow i cmb best inc (gap best inc)]
               ++ [if c then EvConverged i else EvAddCut cutinfo])
            = if c then [] else [cutinfo]).
  { unfold cuts_added. rewrite !omap_app, Hl1.
    destruct (alpha_fixed (_master st)), improved, c; reflexivity. }
  split; [exact Hadded|].
  split.
  { unfold incumbents. rewrite !omap_app, Hl1.
    destruct (alpha_fixed (_master st)), improved, c; reflexivity. }
  split; [exact Hi|]. split; [rewrite Ho; exact Hinc|].
  split; [exact Hh|]. split; [exact Ho|].
  split.
  { intros ->. symmetry in Hc. apply xleb_xle in Hc.
    destruct best as [|b|]; simpl in Hc; try contradiction.
    eapply Qle_trans; [apply optimality_gap_nonneg|exact Hc]. }
  split; [exact Hfree|].
  rewrite Hadded. destruct c.
  - rewrite Hm. split; [exact Hi1|]. split; [exact Hb1|]. split; [exact Hk1|].
    exists []. rewrite Hc1, app_nil_r. split; reflexivity.
  - apply add_cut_aggregate_inv in Hm. destruct Hm as (e & _ & Hm). rewrite Hm.
    split; [exact Hi1|]. split; [exact Hb1|]. split; [exact Hk1|].
    exists [ESub e EAlpha]. simpl. rewrite Hc1, Hph. split; reflexivity.
Qed.

(** What a run of the loop adds. *)
Lemma benders_loop_run n : forall i st st',
  benders_loop n i st = Some st' ->
  Forall (fun k => (k < i)%Z) (keys (MASTER_bound_history st)) ->
  Forall (fun k => (k < i)%Z) (keys (OBJECTIVE_history st)) ->
  exists k ext,
    (k <= n)%nat /\
    log st' = log st ++ ext /\
    master_solves ext = iterations i k /\
    (converged_at ext = [] /\ k = n \/
     (1 <= k)%nat /\ converged_at ext = [(i + Z.of_nat k - 1)%Z]
     /\ 0 <= percent_gap options) /\
    freed_at ext = (if (alpha_fixed (_master st) && (0 <? k)%nat)%bool then [i] else []) /\
    keys (MASTER_bound_history st') = keys (MASTER_bound_history st) ++ iterations i k /\
    keys (OBJECTIVE_history st') = keys (OBJECTIVE_history st) ++ iterations i k /\
    (forall key, (key < i)%Z ->
       dict_get key (MASTER_bound_history st') = dict_get key (MASTER_bound_history st)) /\
    ((1 <= k)%nat -> alpha_fixed (_master st') = false) /\
    (k = 0%nat -> st' = st) /\
    _objective_sense (_ph st') = _objective_sense (_ph st) /\
    bundle_alpha_index (_master st') = bundle_alpha_index (_master st) /\
    PYSP_BENDERS_CUT_BUNDLES (_master st') = PYSP_BENDERS_CUT_BUNDLES (_master st) /\
    PYSP_BUNDLE_AVERAGE_ALPHA_CUT (_master st') = PYSP_BUNDLE_AVERAGE_ALPHA_CUT (_master st) /\
    exists es,
      PYSP_BENDERS_CUTS (_master st') =
        PYSP_BENDERS_CUTS (_master st) ++ map (sense_cut (_objective_sense (_ph st))) es /\
      length es = length (cuts_added ext) /\
      (length es + length (converged_at ext) = k)%nat.
Proof.
  induction n as [|n IH]; intros i st st' H Hk Ho.
  - simpl in H. injection H as <-. exists 0%nat, []. rewrite !app_nil_r.
    rewrite andb_false_r.
    split; [lia|]. split; [reflexivity|]. split; [reflexivity|].
    split; [left; split; reflexivity|]. split; [reflexivity|].
    split; [reflexivity|]. split; [reflexivity|]. split; [reflexivity|].
    split; [lia|]. split; [reflexivity|]. split; [reflexivity|].
    split; [reflexivity|]. split; [reflexivity|]. split; [reflexivity|].
    exists []. rewrite app_nil_r. split; [reflexivity|]. split; reflexivity.
  - simpl in H.
    destruct (benders_iteration i st) as [[st1 c]|] eqn:Hit; simpl in H; [|discriminate].
    pose proof (benders_iteration_sense _ _ _ _ _ _ _ _ Hit) as Hs1.
    apply benders_iteration_step in Hit.
    destruct Hit as (cutinfo & cmb & cur & inc & ext1 & Hlog1 & Hms1 & Hfr1 & Hcv1 & Hca1
                     & _ & _ & _ & Hh1 & Ho1 & Hgap1 & Hfree1 & Hi1 & Hb1 & Hl1
                     & es1 & Hes1 & Hlen1).
    assert (Hfresh : ~ In i (keys (MASTER_bound_history st))).
    { intros Hin. rewrite Forall_forall in Hk. apply list_elem_of_In, Hk in Hin. lia. }
    assert (Hfresho : ~ In i (keys (OBJECTIVE_history st))).
    { intros Hin. rewrite Forall_forall in Ho. apply list_elem_of_In, Ho in Hin. lia. }
    assert (Hget : forall key, (key < i)%Z ->
               dict_get key (MASTER_bound_history st1)
               = dict_get key (MASTER_bound_history st)).
    { intros key Hkey. rewrite Hh1. apply dict_get_set_ne. lia. }
    assert (Hkeys1 : keys (MASTER_bound_history st1)
                     = keys (MASTER_bound_history st) ++ [i]).
    { rewrite Hh1. apply keys_dict_set_fresh. exact Hfresh. }
    assert (Hkeyso1 : keys (OBJECTIVE_history st1)
                      = keys (OBJECTIVE_history st) ++ [i]).
    { rewrite Ho1. apply keys_dict_set_fresh. exact Hfresho. }
    rewrite Hs1 in Hes1.
    destruct c.
    + injection H as <-. exists 1%nat, ext1. rewrite iterations_1.
      split; [lia|]. split; [exact Hlog1|]. split; [rewrite Hms1; reflexivity|].
      split.
      { right. split; [lia|]. split; [rewrite Hcv1; f_equal; lia|]. apply Hgap1. reflexivity. }
      split; [rewrite Hfr1, andb_true_r; reflexivity|].
      split; [exact Hkeys1|]. split; [exact Hkeyso1|].
      split; [exact Hget|]. split; [auto|]. split; [discriminate|].
      split; [exact Hs1|]. split; [exact Hi1|]. split; [exact Hb1|]. split; [exact Hl1|].
      exists es1. split; [exact Hes1|]. split; [exact Hlen1|].
      rewrite Hlen1, Hca1, Hcv1. reflexivity.
    + apply IH in H.
      * destruct H as (k & ext & Hkn & Hlog & Hms & Hcv & Hfr & Hkh & Hko & Hg & Hfree
                       & Hzero & Hs & Hi2 & Hb2 & Hl2 & es & Hes & Hlen & Hcount).
        exists (S k), (ext1 ++ ext). split; [lia|].
        split; [rewrite Hlog, Hlog1, <- app_assoc; reflexivity|].
        split.
        { unfold master_solves in *. rewrite omap_app, Hms1, Hms, iterations_S. reflexivity. }
        split.
        { unfold converged_at in *. rewrite omap_app, Hcv1. simpl.
          destruct Hcv as [[-> ->]|(Hk1 & -> & Hpg)]; [left; auto|].
          right. split; [lia|]. split; [f_equal; lia|exact Hpg]. }
        split.
        { unfold freed_at in *. rewrite omap_app, Hfr1, Hfr, Hfree1. simpl.
          rewrite andb_true_r, app_nil_r. reflexivity. }
        split.
        { rewrite Hkh, Hkeys1, iterations_S, <- app_assoc. reflexivity. }
        split.
        { rewrite Hko, Hkeyso1, iterations_S, <- app_assoc. reflexivity. }
        split; [intros key Hkey; rewrite Hg by lia; apply Hget; exact Hkey|].
        split.
        { intros _. destruct k as [|k]; [rewrite (Hzero eq_refl); exact Hfree1|].
          apply Hfree. lia. }
        split; [discriminate|].
        split; [congruence|]. split; [congruence|]. split; [congruence|].
        split; [congruence|].
        exists (es1 ++ es). rewrite Hs1 in Hes.
        split; [rewrite Hes, Hes1, map_app, <- app_assoc; reflexivity|].
        unfold cuts_added, converged_at in *.
        rewrite !omap_app, !length_app, Hcv1, Hlen1, Hlen. split; [reflexivity|].
        rewrite Hca1 in *. simpl in *. lia.
      * rewrite Hkeys1. apply Forall_app. split.
        -- eapply Forall_impl; [exact Hk|]. simpl. intros; lia.
        -- repeat constructor. lia.
      * rewrite Hkeyso1. apply Forall_app. split.
        -- eapply Forall_impl; [exact Ho|]. simpl. intros; lia.
        -- repeat constructor. lia.
Qed.

Lemma solve_unfold m ph final :
  solve m ph = Some final ->
  exists ph1 ph3 m1 ph4 seed_log st,
    solve_subproblems (set_relax_integrality true ph) = Some ph1 /\
    is_Some (initialize_for_benders
               (set_relax_integrality false
                  (set_root_xbars (scenario_average (solution ph1)) ph1))) /\
    _objective_sense ph3 = _objective_sense ph /\
    _scenario_tree ph1 = _scenario_tree ph /\
    same_problem ph3 (set_root_xbars (scenario_average (solution ph1)) ph1) /\
    seed_cut m ph3 = Some (m1, ph4, seed_log) /\
    benders_loop (Z.to_nat (max_iterations options)) 1
      (mkState m1 (set_current_iteration 1 ph4)
         (initial_bound_history (_objective_sense ph) options (trivial_bound_of ph1))
         []
         (if sense_eqb (_objective_sense ph) minimize then PosInf else NegInf)
         (EvTrivialBound (trivial_bound_of ph1) :: seed_log)) = Some st /\
    final = mkState (_master st) (restoreCachedSolutions (_ph st))
                    (MASTER_bound_history st) (OBJECTIVE_history st)
                    (incumbent_objective st) (log st ++ [EvRestore]).
Proof.
  unfold Benders.solve. intros H.
  destruct (solve_subproblems _) as [ph1|] eqn:H1; simpl in H; [|discriminate].
  destruct (initialize_for_benders _) as [pa|] eqn:Ha; simpl in H; [|discriminate].
  destruct (deactivate_firststage_cost pa) as [pb|] eqn:Hb; simpl in H; [|discriminate].
  destruct (activate_fix_constraints pb) as [ph3|] eqn:Hc; simpl in H; [|discriminate].
  destruct (seed_cut m ph3) as [[[m1 ph4] seed_log]|] eqn:H2; simpl in H; [|discriminate].
  match type of H with
  | context [Benders.benders_loop _ _ _ _ ?n ?i ?s] =>
      destruct (benders_loop n i s) as [st|] eqn:H3
  end; simpl in H; [|discriminate].
  injection H as <-. exists ph1, ph3, m1, ph4, seed_log, st.
  pose proof (solve_subproblems_static _ _ _ H1) as Hst.
  split; [reflexivity|]. split; [eauto|]. split.
  { apply activate_fix_constraints_same in Hc. apply deactivate_firststage_cost_same in Hb.
    apply initialize_for_benders_same in Ha.
    destruct Hc as (_ & Hc & _), Hb as (_ & Hb & _), Ha as (_ & Ha & _).
    rewrite Hc, Hb, Ha. simpl. rewrite Hst. reflexivity. }
  split; [rewrite Hst; reflexivity|].
  split.
  { apply activate_fix_constraints_same in Hc. apply deactivate_firststage_cost_same in Hb.
    apply initialize_for_benders_same in Ha.
    eapply same_problem_trans; [exact Hc|]. eapply same_problem_trans; [exact Hb|].
    eapply same_problem_trans; [exact Ha|]. repeat split. }
  split; [exact H2|]. split; [exact H3|]. reflexivity.
Qed.

(** What a whole run logs and leaves behind. *)
Lemma solve_run m ph final :
  solve m ph = Some final ->
  exists ph1 seed k ext,
    solve_subproblems (set_relax_integrality true ph) = Some ph1 /\
    log final = EvTrivialBound (trivial_bound_of ph1) :: seed ++ ext ++ [EvRestore] /\
    master_solves seed = [] /\ converged_at seed = [] /\ freed_at seed = [] /\
    incumbents seed = [] /\
    length (cuts_added seed) = (if alpha_fixed m then 0 else 1)%nat /\
    (k <= Z.to_nat (max_iterations options))%nat /\
    master_solves ext = iterations 1 k /\
    (converged_at ext = [] /\ k = Z.to_nat (max_iterations options) \/
     (1 <= k)%nat /\ converged_at ext = [Z.of_nat k] /\ 0 <= percent_gap options) /\
    freed_at ext = (if (alpha_fixed m && (0 <? k)%nat)%bool then [1%Z] else []) /\
    keys (MASTER_bound_history final) = 0%Z :: (-1)%Z :: iterations 1 k /\
    keys (OBJECTIVE_history final) = iterations 1 k /\
    dict_get 0 (MASTER_bound_history final) = Some (Fin (trivial_bound_of ph1)) /\
    dict_get (-1) (MASTER_bound_history final) =
      Some (match user_bound options with
            | Some u => Fin u
            | None => if sense_eqb (_objective_sense ph) minimize then NegInf else PosInf
            end) /\
    bundle_alpha_index (_master final) = bundle_alpha_index m /\
    PYSP_BENDERS_CUT_BUNDLES (_master final) = PYSP_BENDERS_CUT_BUNDLES m /\
    PYSP_BUNDLE_AVERAGE_ALPHA_CUT (_master final) = PYSP_BUNDLE_AVERAGE_ALPHA_CUT m /\
    exists es,
      PYSP_BENDERS_CUTS (_master final) =
        PYSP_BENDERS_CUTS m ++ map (sense_cut (_objective_sense ph)) es /\
      length es = length (cuts_added (seed ++ ext)) /\
      (length es + length (converged_at ext)
       = k + (if alpha_fixed m then 0 else 1))%nat.
Proof.
  intros H. apply solve_unfold in H.
  destruct H as (ph1 & ph3 & m1 & ph4 & seed & st & H1 & _ & Hs3 & _ & _ & Hseed & Hloop & ->).
  apply seed_cut_inv in Hseed. destruct Hseed as (Hs4 & _ & Hseed).
  apply benders_loop_run in Hloop;
    [|repeat constructor; lia|constructor].
  destruct Hloop as (k & ext & Hkn & Hlog & Hms & Hcv & Hfr & Hkh & Hko & Hg & _
                     & _ & _ & Hi & Hb & Hl & es & Hes & Hlen & Hcount).
  cbn [_master _ph MASTER_bound_history OBJECTIVE_history log] in *.
  assert (Hsense : _objective_sense (set_current_iteration 1 ph4) = _objective_sense ph).
  { simpl. congruence. }
  rewrite Hsense in Hes.
  assert (Hm1 : alpha_fixed m1 = alpha_fixed m /\
                bundle_alpha_index m1 = bundle_alpha_index m /\
                PYSP_BENDERS_CUT_BUNDLES m1 = PYSP_BENDERS_CUT_BUNDLES m /\
                PYSP_BUNDLE_AVERAGE_ALPHA_CUT m1 = PYSP_BUNDLE_AVERAGE_ALPHA_CUT m /\
                master_solves seed = [] /\ converged_at seed = [] /\ freed_at seed = [] /\
                incumbents seed = [] /\
                exists es0,
                  PYSP_BENDERS_CUTS m1 =
                    PYSP_BENDERS_CUTS m ++ map (sense_cut (_objective_sense ph)) es0 /\
                  length es0 = length (cuts_added seed) /\
                  length es0 = (if alpha_fixed m then 0 else 1)%nat).
  { destruct (alpha_fixed m) eqn:Hfixed.
    - destruct Hseed as (-> & -> & ->). rewrite Hfixed.
      repeat (split; [reflexivity|]). exists []. rewrite app_nil_r. auto.
    - destruct Hseed as (benders_cut & _ & Hadd & ->).
      apply add_cut_aggregate_inv in Hadd. destruct Hadd as (e & _ & ->). simpl.
      rewrite Hfixed. repeat (split; [reflexivity|]).
      exists [ESub e EAlpha]. simpl. rewrite Hs4, Hs3. auto. }
  destruct Hm1 as (Hf1 & Hi1 & Hb1 & Hl1 & Hsm & Hsc & Hsf & Hsi & es0 & Hes0 & Hlen0 & Hn0).
  exists ph1, seed, k, ext. split; [exact H1|].
  split; [rewrite Hlog; simpl; rewrite <- app_assoc; reflexivity|].
  split; [exact Hsm|]. split; [exact Hsc|]. split; [exact Hsf|]. split; [exact Hsi|].
  split; [rewrite <- Hlen0; exact Hn0|]. split; [exact Hkn|]. split; [exact Hms|].
  split.
  { destruct Hcv as [Hcv|(Hk1 & Hcv & Hpg)]; [left; exact Hcv|].
    right. split; [exact Hk1|]. split; [rewrite Hcv; f_equal; lia|exact Hpg]. }
  split; [rewrite Hfr, Hf1; reflexivity|].
  split; [rewrite Hkh; reflexivity|]. split; [rewrite Hko; reflexivity|].
  split; [rewrite Hg by lia; reflexivity|]. split; [rewrite Hg by lia; reflexivity|].
  split; [congruence|]. split; [congruence|]. split; [congruence|].
  exists (es0 ++ es). split; [rewrite Hes, Hes0, map_app, <- app_assoc; reflexivity|].
  unfold cuts_added in *. rewrite omap_app, !length_app, Hlen0, Hlen.
  split; [reflexivity|]. rewrite <- Hn0, <- Hlen0. lia.
Qed.


Lemma incumbents_sorted_step s i st st' c :
  benders_iteration i st = Some (st', c) ->
  incumbents_sorted s i st ->
  incumbents_sorted s (i + 1) st'.
Proof.
  intros H (Hs & Hk & Hsorted & Hlast).
  pose proof (benders_iteration_sense _ _ _ _ _ _ _ _ H) as Hs'.
  apply benders_iteration_step in H.
  destruct H as (cutinfo & cmb & cur & inc & ext & Hlog & _ & _ & _ & _ & Hrow & Hinc
                 & Hbest & _ & Ho & _).
  rewrite Hs in *.
  assert (Hfresh : ~ In i (keys (OBJECTIVE_history st))).
  { intros Hin. rewrite Forall_forall in Hk. apply list_elem_of_In, Hk in Hin. lia. }
  assert (Hrows : incumbents (log st') = incumbents (log st) ++ [inc]).
  { rewrite Hlog, incumbents_app, Hrow. reflexivity. }
  assert (Hall : Forall (fun b => no_worse_incumbent s b inc) (incumbents (log st))).
  { destruct (last (incumbents (log st))) as [inc0|] eqn:El.
    - destruct Hlast as (_ & Hb0 & Hall0).
      rewrite Ho, (best_incumbent_record _ _ _ _ _ Hfresh Hb0) in Hbest.
      injection Hbest as <-. eapply Forall_impl; [exact Hall0|]. simpl. intros b Hb.
      eapply no_worse_incumbent_trans; [exact Hb|].
      destruct s; simpl.
      + destruct (Qltb cur inc0) eqn:E; [apply Qlt_le_weak, Qltb_true_lt, E|apply Qle_refl].
      + destruct (Qltb inc0 cur) eqn:E; [apply Qlt_le_weak, Qltb_true_lt, E|apply Qle_refl].
    - apply last_None in El. rewrite El. constructor. }
  split; [exact Hs'|]. split.
  { rewrite Ho, keys_dict_set_fresh by exact Hfresh. apply Forall_app. split.
    - eapply Forall_impl; [exact Hk|]. simpl. intros; lia.
    - repeat constructor. lia. }
  rewrite Hrows, last_snoc. split; [apply StronglySorted_snoc; assumption|].
  split; [exact Hinc|]. split; [exact Hbest|].
  apply Forall_app. split; [exact Hall|].
  constructor; [apply no_worse_incumbent_refl|constructor].
Qed.

Lemma benders_loop_incumbents s n : forall i st st',
  benders_loop n i st = Some st' ->
  incumbents_sorted s i st ->
  exists j, incumbents_sorted s j st'.
Proof.
  induction n as [|n IH]; simpl; intros i st st' H Hinv.
  - injection H as <-. eauto.
  - destruct (benders_iteration i st) as [[st1 c]|] eqn:Hit; simpl in H; [|discriminate].
    pose proof (incumbents_sorted_step _ _ _ _ _ Hit Hinv) as Hinv'.
    destruct c.
    + injection H as <-. eauto.
    + eapply IH; eassumption.
Qed.


Lemma benders_loop_row_count n : forall i st st',
  benders_loop n i st = Some st' ->
  exists ext,
    log st' = log st ++ ext /\
    length (incumbents ext) = length (master_solves ext).
Proof.
  induction n as [|n IH]; simpl; intros i st st' H.
  - injection H as <-. exists []. rewrite app_nil_r. auto.
  - destruct (benders_iteration i st) as [[st1 c]|] eqn:Hit; simpl in H; [|discriminate].
    apply benders_iteration_step in Hit.
    destruct Hit as (cutinfo & cmb & cur & inc & ext1 & Hlog1 & Hms1 & _ & _ & _ & Hrow1 & _).
    destruct c.
    + injection H as <-. exists ext1. rewrite Hms1, Hrow1. auto.
    + apply IH in H. destruct H as (ext & Hlog & Hlen).
      exists (ext1 ++ ext). split; [rewrite Hlog, Hlog1, <- app_assoc; reflexivity|].
      unfold incumbents, master_solves in *.
      rewrite !omap_app, !length_app, Hms1, Hrow1, Hlen. reflexivity.
Qed.

(** C3, as the code has it.  When alpha does not start fixed, the run first
    generates one cut from the root node's initial trial point (the
    scenario averages) and appends its aggregate inequality to the cut
    pool, before any master solve.  When alpha starts fixed no seed cut is
    generated and the pool is left alone: the run goes straight to the
    first master solve and frees alpha right after it, before any cut is
    generated or added; the first cut appended to the pool is the one of
    that first iteration, unless the iteration converged, in which case the
    pool ends as it started. *)
Theorem seed_cut_when_alpha_free m ph final :
  solve m ph = Some final ->
  exists ph1 tb,
    solve_subproblems (set_relax_integrality true ph) = Some ph1 /\
    if alpha_fixed m
    then ((max_iterations options <= 0)%Z /\
          log final = [EvTrivialBound tb; EvRestore] /\
          PYSP_BENDERS_CUTS (_master final) = PYSP_BENDERS_CUTS m) \/
         ((0 < max_iterations options)%Z /\
          alpha_fixed (_master final) = false /\
          exists xbars1 cmb best inc,
            (log final = [EvTrivialBound tb; EvSolveMaster 1; EvFreeAlpha 1;
                          EvGenerateCut xbars1; EvCacheSolutions 1;
                          EvRow 1 cmb best inc (gap best inc); EvConverged 1; EvRestore] /\
             PYSP_BENDERS_CUTS (_master final) = PYSP_BENDERS_CUTS m) \/
            (exists cutinfo ph' e rest es,
                log final = EvTrivialBound tb :: EvSolveMaster 1 :: EvFreeAlpha 1
                              :: EvGenerateCut xbars1 :: EvCacheSolutions 1
                              :: EvRow 1 cmb best inc (gap best inc)
                              :: EvAddCut cutinfo :: rest /\
                cut_xbars cutinfo = xbars1 /\
                _scenario_tree ph' = _scenario_tree ph /\
                cut_expression_loop ph' cutinfo (scenario_names (_scenario_tree ph'))
                  (EConst 0) = Some e /\
                PYSP_BENDERS_CUTS (_master final) =
                  PYSP_BENDERS_CUTS m
                    ++ sense_cut (_objective_sense ph) (ESub e EAlpha)
                    :: map (sense_cut (_objective_sense ph)) es))
    else exists ph3 ph4 benders_cut e rest es,
        _scenario_tree ph3 = _scenario_tree ph /\
        generate_cut ph3 (scenario_average (solution ph1)) = Some (benders_cut, ph4) /\
        cut_xbars benders_cut = scenario_average (solution ph1) /\
        cut_expression_loop ph4 benders_cut (scenario_names (_scenario_tree ph4))
          (EConst 0) = Some e /\
        log final = EvTrivialBound tb
                      :: EvGenerateCut (scenario_average (solution ph1))
                      :: EvAddCut benders_cut :: rest /\
        PYSP_BENDERS_CUTS (_master final) =
          PYSP_BENDERS_CUTS m
            ++ sense_cut (_objective_sense ph) (ESub e EAlpha)
            :: map (sense_cut (_objective_sense ph)) es.
Proof.
  intros H. apply solve_unfold in H.
  destruct H as (ph1 & ph3 & m1 & ph4 & seed & st & H1 & _ & Hs3 & Ht1 & Hsame & Hseed
                 & Hloop & ->).
  destruct Hsame as (Ht3 & _ & _ & Hx3). simpl in Ht3, Hx3.
  exists ph1, (trivial_bound_of ph1). split; [exact H1|].
  pose proof (seed_cut_inv _ _ _ _ _ _ Hseed) as (Hs4 & _ & Hcase).
  set (st0 := mkState m1 _ _ _ _ _) in Hloop.
  assert (Hst0 : _master st0 = m1 /\
                 _objective_sense (_ph st0) = _objective_sense ph /\
                 _scenario_tree (_ph st0) = _scenario_tree ph4 /\
                 incumbent_objective st0
                 = (if sense_eqb (_objective_sense ph) minimize then PosInf else NegInf) /\
                 log st0 = EvTrivialBound (trivial_bound_of ph1) :: seed /\
                 Forall (fun k => (k < 1)%Z) (keys (MASTER_bound_history st0)) /\
                 Forall (fun k => (k < 1)%Z) (keys (OBJECTIVE_history st0))).
  { subst st0. simpl. split; [reflexivity|]. split; [congruence|].
    split; [reflexivity|]. split; [reflexivity|]. split; [reflexivity|].
    split; [repeat constructor; lia|constructor]. }
  destruct Hst0 as (Hm0 & Hsense0 & Htree0 & Hinc0 & Hlog0 & Hk0 & Ho0). clearbody st0.
  destruct (alpha_fixed m) eqn:Hfixed.
  - destruct Hcase as (-> & -> & ->).
    destruct (Z.to_nat (max_iterations options)) as [|n] eqn:Hn.
    + left. simpl in Hloop. injection Hloop as <-. split; [lia|].
      cbn [log _master]. rewrite Hlog0, Hm0. split; reflexivity.
    + right. split; [lia|].
      pose proof (benders_loop_first _ _ _ _ _ _ _ _ Hloop) as (Hfree & _).
      split; [exact Hfree|]. simpl in Hloop.
      destruct (benders_iteration 1 st0) as [[st1 c]|] eqn:Hit; simpl in Hloop; [|discriminate].
      pose proof (benders_iteration_sense _ _ _ _ _ _ _ _ Hit) as Hsense1.
      pose proof (benders_iteration_inv _ _ _ _ _ _ _ _ Hit)
        as (res & master1 & log1 & cutinfo & php & recourse & best & inc & Hinv).
      cbv zeta in Hinv.
      destruct Hinv as (_ & Hpre & Hgen & _ & _ & _ & Hc & Hh & Ho & _ & Hph & Hlog & Hm).
      rewrite Hm0, Hfixed in Hpre. destruct Hpre as (_ & -> & ->).
      rewrite Hsense0, Hinc0 in Hlog, Hph, Hm.
      change (if sense_eqb ?s minimize then xltb (Fin ?i) ?p else xltb ?p (Fin ?i))
        with (improves s i p) in Hlog, Hph, Hm.
      rewrite improves_start in Hlog, Hph, Hm. rewrite Hlog0 in Hlog.
      pose proof (generate_cut_static _ _ _ _ _ Hgen) as (Htp & Hsp & Hxp).
      simpl in Hsp. rewrite Hsense0 in Hsp.
      eexists _, _, best, inc. destruct c.
      * left. injection Hloop as <-. cbn [log _master]. rewrite Hlog, Hm. split; reflexivity.
      * right. apply add_cut_aggregate_inv in Hm. destruct Hm as (e & He & Hm).
        apply benders_loop_run in Hloop.
        -- destruct Hloop as (k & ext & _ & Hext & _ & _ & _ & _ & _ & _ & _ & _ & _ & _ & _
                              & _ & es & Hes & _).
           exists cutinfo, (cacheSolutions php), e, (ext ++ [EvRestore]), es.
           cbn [log _master]. split; [rewrite Hext, Hlog; reflexivity|].
           split; [exact Hxp|]. split; [simpl; rewrite Htp; simpl; congruence|].
           split; [exact He|].
           rewrite Hes, Hm, Hsense1, Hsense0. simpl. rewrite Hsp, <- app_assoc. reflexivity.
        -- rewrite Hh. apply keys_dict_set; [lia|].
           eapply Forall_impl; [exact Hk0|]. simpl. intros; lia.
        -- rewrite Ho. apply keys_dict_set; [lia|].
           eapply Forall_impl; [exact Ho0|]. simpl. intros; lia.
  - destruct Hcase as (benders_cut & Hgen & Hadd & ->). rewrite Hx3 in Hgen.
    pose proof (generate_cut_static _ _ _ _ _ Hgen) as (_ & _ & Hx).
    apply add_cut_aggregate_inv in Hadd. destruct Hadd as (e & He & Hm1).
    apply benders_loop_run in Hloop; [|exact Hk0|exact Ho0].
    destruct Hloop as (k & ext & _ & Hext & _ & _ & _ & _ & _ & _ & _ & _ & _ & _ & _
                       & _ & es & Hes & _).
    exists ph3, ph4, benders_cut, e, (ext ++ [EvRestore]), es.
    cbn [log _master]. split; [congruence|]. split; [exact Hgen|]. split; [exact Hx|].
    split; [exact He|]. split; [rewrite Hext, Hlog0, Hx3; reflexivity|].
    rewrite Hes, Hm0, Hm1, Hsense0, Hs4, Hs3. simpl. rewrite <- app_assoc. reflexivity.
Qed.

(** X12.  The iterations of a run are numbered 1, 2, ..., [k] with [k] at most
    [max_iterations]; convergence is logged at most once, for the last
    iteration [k] and only under a non-negative tolerance; a run that does
    not converge uses all [max_iterations] iterations. *)
Theorem iterations_numbered_until_convergence m ph final :
  solve m ph = Some final ->
  exists k,
    (k <= Z.to_nat (max_iterations options))%nat /\
    master_solves (log final) = iterations 1 k /\
    (converged_at (log final) = [] /\ k = Z.to_nat (max_iterations options) \/
     (1 <= k)%nat /\ converged_at (log final) = [Z.of_nat k]
     /\ 0 <= percent_gap options).
Proof.
  intros H. apply solve_run in H.
  destruct H as (ph1 & seed & k & ext & _ & Hlog & Hsm & Hsc & _ & _ & _ & Hk & Hms & Hcv & _).
  exists k. split; [exact Hk|].
  assert (Hm : master_solves (log final) = master_solves ext).
  { rewrite Hlog. unfold master_solves in *. simpl.
    rewrite !omap_app, Hsm. simpl. rewrite app_nil_r. reflexivity. }
  assert (Hc : converged_at (log final) = converged_at ext).
  { rewrite Hlog. unfold converged_at in *. simpl.
    rewrite !omap_app, Hsc. simpl. rewrite app_nil_r. reflexivity. }
  rewrite Hm, Hc. split; [exact Hms|exact Hcv].
Qed.

(** X13.  Under a negative tolerance no iteration converges: the run solves the
    master [max_iterations] times. *)
Theorem negative_tolerance_runs_all_iterations m ph final :
  percent_gap options < 0 ->
  solve m ph = Some final ->
  converged_at (log final) = [] /\
  master_solves (log final) = iterations 1 (Z.to_nat (max_iterations options)).
Proof.
  intros Hneg H. apply solve_run in H.
  destruct H as (ph1 & seed & k & ext & _ & Hlog & Hsm & Hsc & _ & _ & _ & _ & Hms & Hcv & _).
  assert (Hm : master_solves (log final) = master_solves ext).
  { rewrite Hlog. unfold master_solves in *. simpl.
    rewrite !omap_app, Hsm. simpl. rewrite app_nil_r. reflexivity. }
  assert (Hc : converged_at (log final) = converged_at ext).
  { rewrite Hlog. unfold converged_at in *. simpl.
    rewrite !omap_app, Hsc. simpl. rewrite app_nil_r. reflexivity. }
  rewrite Hm, Hc. destruct Hcv as [(Hnone & ->)|(_ & _ & Hpos)].
  - split; [exact Hnone|exact Hms].
  - exfalso. apply (Qlt_not_le _ _ Hneg). exact Hpos.
Qed.

(** X14.  A run only appends to the cut pool, one one-sided inequality for every
    cut handed to [add_cut]: one per iteration except the converging one,
    and the seed cut when alpha did not start fixed.  The bundles and the
    constraint linking their alphas are as [initialize] left them. *)
Theorem cut_pool_grows_by_one_per_iteration m ph final :
  solve m ph = Some final ->
  bundle_alpha_index (_master final) = bundle_alpha_index m /\
  PYSP_BENDERS_CUT_BUNDLES (_master final) = PYSP_BENDERS_CUT_BUNDLES m /\
  PYSP_BUNDLE_AVERAGE_ALPHA_CUT (_master final) = PYSP_BUNDLE_AVERAGE_ALPHA_CUT m /\
  exists es,
    PYSP_BENDERS_CUTS (_master final) =
      PYSP_BENDERS_CUTS m ++ map (sense_cut (_objective_sense ph)) es /\
    length es = length (cuts_added (log final)) /\
    (length es + length (converged_at (log final))
     = length (master_solves (log final)) + (if alpha_fixed m then 0 else 1))%nat.
Proof.
  intros H. apply solve_run in H.
  destruct H as (ph1 & seed & k & ext & _ & Hlog & Hsm & Hsc & _ & _ & _ & _ & Hms & _ & _
                 & _ & _ & _ & _ & Hi & Hb & Hl & es & Hes & Hlen & Hcount).
  split; [exact Hi|]. split; [exact Hb|]. split; [exact Hl|].
  exists es. split; [exact Hes|].
  assert (Hm : master_solves (log final) = master_solves ext).
  { rewrite Hlog. unfold master_solves in *. simpl.
    rewrite !omap_app, Hsm. simpl. rewrite app_nil_r. reflexivity. }
  assert (Hc : converged_at (log final) = converged_at ext).
  { rewrite Hlog. unfold converged_at in *. simpl.
    rewrite !omap_app, Hsc. simpl. rewrite app_nil_r. reflexivity. }
  assert (Ha : cuts_added (log final) = cuts_added (seed ++ ext)).
  { rewrite Hlog. unfold cuts_added. simpl.
    rewrite !omap_app. simpl. rewrite app_nil_r. reflexivity. }
  rewrite Hm, Hc, Ha, Hms. split; [exact Hlen|].
  unfold iterations. rewrite length_map, length_seq. exact Hcount.
Qed.

(** X15.  The bound history of a run holds the trivial bound under key 0, the
    user bound (an infinite bound when there is none) under key -1, and
    after them one entry per iteration in the order the iterations ran;
    the objective history holds exactly the iterations.  The two seeded
    entries are never overwritten. *)
Theorem histories_keyed_by_iteration m ph final :
  solve m ph = Some final ->
  exists tb rest,
    log final = EvTrivialBound tb :: rest /\
    keys (MASTER_bound_history final) = 0%Z :: (-1)%Z :: master_solves (log final) /\
    keys (OBJECTIVE_history final) = master_solves (log final) /\
    dict_get 0 (MASTER_bound_history final) = Some (Fin tb) /\
    dict_get (-1) (MASTER_bound_history final) =
      Some (match user_bound options with
            | Some u => Fin u
            | None => if sense_eqb (_objective_sense ph) minimize then NegInf else PosInf
            end).
Proof.
  intros H. apply solve_run in H.
  destruct H as (ph1 & seed & k & ext & _ & Hlog & Hsm & _ & _ & _ & _ & _ & Hms & _ & _
                 & Hkh & Hko & H0 & Hu & _).
  exists (trivial_bound_of ph1), (seed ++ ext ++ [EvRestore]).
  assert (Hm : master_solves (log final) = master_solves ext).
  { rewrite Hlog. unfold master_solves in *. simpl.
    rewrite !omap_app, Hsm. simpl. rewrite app_nil_r. reflexivity. }
  rewrite Hm, Hms. auto.
Qed.

(** X16.  A run on a tree with at least one scenario completes only when the
    tree has exactly two stages. *)
Theorem solve_requires_two_stages m ph final :
  solve m ph = Some final ->
  _scenarios (_scenario_tree ph) <> [] ->
  length (_stages (_scenario_tree ph)) = 2%nat.
Proof.
  intros H Hne. apply solve_unfold in H.
  destruct H as (ph1 & ph3 & m1 & ph4 & seed & st & _ & (pa & Ha) & _ & Ht & _).
  unfold initialize_for_benders in Ha. simpl in Ha. rewrite Ht in Ha.
  eapply for_scenarios_asserts in Ha; [|..|exact Hne].
  - simpl in Ha. rewrite Ht in Ha. exact Ha.
  - unfold EXTERNAL_initialize_for_benders. intros a s b Hab.
    destruct (benders_asserts a s) eqn:E; [|discriminate]. injection Hab as <-. auto.
Qed.

Lemma seed_log_rows m ph m1 ph1 seed_log :
  seed_cut m ph = Some (m1, ph1, seed_log) ->
  incumbents seed_log = [] /\ cached_at seed_log = [] /\ master_solves seed_log = [] /\
  rows seed_log = [].
Proof.
  intros H. apply seed_cut_inv in H. destruct H as (_ & _ & H).
  destruct (alpha_fixed m).
  - destruct H as (_ & _ & ->). auto.
  - destruct H as (benders_cut & _ & _ & ->). auto.
Qed.

Lemma solve_incumbents m ph final :
  solve m ph = Some final ->
  exists st j,
    incumbents_sorted (_objective_sense ph) j st /\
    length (incumbents (log st)) = length (master_solves (log st)) /\
    final = mkState (_master st) (restoreCachedSolutions (_ph st))
                    (MASTER_bound_history st) (OBJECTIVE_history st)
                    (incumbent_objective st) (log st ++ [EvRestore]).
Proof.
  intros H. apply solve_unfold in H.
  destruct H as (ph1 & ph3 & m1 & ph4 & seed & st & _ & _ & Hs3 & _ & _ & Hseed & Hloop & ->).
  pose proof (seed_cut_inv _ _ _ _ _ _ Hseed) as (Hs4 & _ & _).
  pose proof (seed_log_rows _ _ _ _ _ Hseed) as (Hi & _ & Hms & _).
  pose proof (benders_loop_row_count _ _ _ _ Hloop) as (ext & Hlog & Hcount).
  assert (Hi0 : incumbents (EvTrivialBound (trivial_bound_of ph1) :: seed) = [])
    by exact Hi.
  assert (Hms0 : master_solves (EvTrivialBound (trivial_bound_of ph1) :: seed) = [])
    by exact Hms.
  eapply benders_loop_incumbents with (s := _objective_sense ph) in Hloop.
  - destruct Hloop as (j & Hinv). exists st, j.
    split; [exact Hinv|]. split; [|reflexivity].
    rewrite Hlog. cbn [log]. unfold incumbents, master_solves in *.
    rewrite !omap_app, !length_app, Hi0, Hms0, Hcount. reflexivity.
  - split; [simpl; congruence|]. split; [constructor|]. cbn [log].
    rewrite Hi0. split; [constructor|]. simpl. auto.
Qed.

(** X17.  Along a run the incumbents of successive rows never get worse: they
    are non-increasing under minimize and non-decreasing under maximize.
    There is one row per master solve, and the incumbent the run ends with
    is that of the last row, the best entry of the objective history. *)
Theorem incumbent_never_worsens m ph final :
  solve m ph = Some final ->
  StronglySorted (no_worse_incumbent (_objective_sense ph)) (incumbents (log final)) /\
  length (incumbents (log final)) = length (master_solves (log final)) /\
  match last (incumbents (log final)) with
  | Some inc =>
      incumbent_objective final = Fin inc /\
      best_incumbent (_objective_sense ph) (OBJECTIVE_history final) = Some inc
  | None =>
      incumbent_objective final
      = (if sense_eqb (_objective_sense ph) minimize then PosInf else NegInf)
  end.
Proof.
  intros H. apply solve_incumbents in H.
  destruct H as (st & j & (_ & _ & Hsorted & Hlast) & Hcount & ->). cbn [log].
  assert (Hi : incumbents (log st ++ [EvRestore]) = incumbents (log st)).
  { rewrite incumbents_app. apply app_nil_r. }
  assert (Hm : master_solves (log st ++ [EvRestore]) = master_solves (log st)).
  { unfold master_solves. rewrite omap_app. apply app_nil_r. }
  rewrite Hi, Hm. split; [exact Hsorted|]. split; [exact Hcount|].
  cbn [incumbent_objective OBJECTIVE_history].
  destruct (last (incumbents (log st))).
  - destruct Hlast as (Ha & Hb & _). auto.
  - apply Hlast.
Qed.


End LoopFacts.

Lemma initialize_in_range options ph m :
  initialize options ph = Some m ->
  (1 <= multicuts options <= Z.of_nat (length (_scenarios (_scenario_tree ph))))%Z /\
  bundle_alpha_index m = Z.to_nat (multicuts options).
Proof.
  unfold initialize. intros H.
  destruct (make_bundles _ _) as [bundles|] eqn:Hmk; simpl in H; [|discriminate].
  injection H as <-. simpl. split; [|reflexivity].
  unfold make_bundles, scenario_names in Hmk. rewrite length_map in Hmk.
  destruct (1 <=? multicuts options)%Z eqn:E1; [|discriminate].
  destruct (multicuts options <=? _)%Z eqn:E2; [|discriminate]. lia.
Qed.

Section RunnerFacts.
Variable acquire_servers : Z -> option Q -> bool.
Variable ph_solve_subproblems : ProgressiveHedging -> option SubSolution.
Variable master_solver_solve : Master -> bool -> option MasterResult.
Variable warm_start_capable : bool.

Abbreviation run_benders :=
  (exec_runbenders acquire_servers ph_solve_subproblems master_solver_solve
                   warm_start_capable).

(** X19.  With a PHPyro manager the runner asks for workers first and releases
    them last on every path, also when the acquisition, [initialize] or
    [solve] raises; without one it neither acquires nor releases.  It
    solves only after [initialize] returned, and a failed acquisition ends
    the run before anything is initialized. *)
Theorem workers_released_on_every_path options phpyro ph :
  (phpyro = true ->
   head (run_benders options phpyro ph).2
   = Some (RunAcquireServers (collect_servers (_scenario_tree ph) options).1
                             (collect_servers (_scenario_tree ph) options).2) /\
   last (run_benders options phpyro ph).2 = Some RunReleaseServers) /\
  (phpyro = false ->
   forall e, In e (run_benders options phpyro ph).2 ->
             e = RunInitialize \/ e = RunSolve) /\
  (is_Some (run_benders options phpyro ph).1 ->
   In RunSolve (run_benders options phpyro ph).2) /\
  (In RunSolve (run_benders options phpyro ph).2 ->
   In RunInitialize (run_benders options phpyro ph).2 /\
   is_Some (initialize options ph)) /\
  (phpyro = true ->
   acquire_servers (collect_servers (_scenario_tree ph) options).1
                   (collect_servers (_scenario_tree ph) options).2 = false ->
   run_benders options phpyro ph
   = (None, [RunAcquireServers (collect_servers (_scenario_tree ph) options).1
                               (collect_servers (_scenario_tree ph) options).2;
             RunReleaseServers])).
Proof.
  unfold exec_runbenders.
  destruct (collect_servers (_scenario_tree ph) options) as [n t] eqn:Hc.
  destruct phpyro; cbn [fst snd].
  - destruct (acquire_servers n t) eqn:Ha.
    + destruct (initialize options ph) as [m|] eqn:Hi; cbn [fst snd app].
      * split; [intros _; split; reflexivity|]. split; [discriminate|].
        split; [intros _; simpl; tauto|]. split; [|discriminate].
        intros _. split; [simpl; tauto|eauto].
      * split; [intros _; split; reflexivity|]. split; [discriminate|].
        split; [intros [x Hx]; discriminate|]. split; [|discriminate].
        simpl. intros [H|[H|[H|[]]]]; discriminate.
    + cbn [fst snd app].
      split; [intros _; split; reflexivity|]. split; [discriminate|].
      split; [intros [x Hx]; discriminate|]. split; [|reflexivity].
      simpl. intros [H|[H|[]]]; discriminate.
  - destruct (initialize options ph) as [m|] eqn:Hi; cbn [fst snd app].
    + split; [discriminate|]. split; [intros _ e; simpl; intuition auto|].
      split; [intros _; simpl; tauto|]. split; [|discriminate].
      intros _. split; [simpl; tauto|eauto].
    + split; [discriminate|]. split; [intros _ e; simpl; intuition auto|].
      split; [intros [x Hx]; discriminate|]. split; [|discriminate].
      simpl. intros [H|[]]; discriminate.
Qed.

(** X20.  A run of the runner without PHPyro that returns a result had
    [multicuts] within 1 and the number of scenarios and a tree of exactly
    two stages.  Its master never has alpha fixed, so alpha is never freed;
    the cut pool starts empty and ends with one inequality for the seed cut
    and one for every iteration but the converging one, whatever the number
    of bundles. *)
Theorem completed_run_shape options ph final :
  (run_benders options false ph).1 = Some final ->
  (1 <= multicuts options <= Z.of_nat (length (_scenarios (_scenario_tree ph))))%Z /\
  length (_stages (_scenario_tree ph)) = 2%nat /\
  freed_at (log final) = [] /\
  bundle_alpha_index (_master final) = Z.to_nat (multicuts options) /\
  length (PYSP_BENDERS_CUT_BUNDLES (_master final)) = Z.to_nat (multicuts options) /\
  (length (PYSP_BENDERS_CUTS (_master final)) + length (converged_at (log final))
   = length (master_solves (log final)) + 1)%nat.
Proof.
  unfold exec_runbenders.
  destruct (collect_servers (_scenario_tree ph) options) as [n t].
  assert (Hmain : forall m,
             initialize options ph = Some m ->
             solve ph_solve_subproblems master_solver_solve warm_start_capable options m ph
             = Some final ->
             (1 <= multicuts options
              <= Z.of_nat (length (_scenarios (_scenario_tree ph))))%Z /\
             length (_stages (_scenario_tree ph)) = 2%nat /\
             freed_at (log final) = [] /\
             bundle_alpha_index (_master final) = Z.to_nat (multicuts options) /\
             length (PYSP_BENDERS_CUT_BUNDLES (_master final))
             = Z.to_nat (multicuts options) /\
             (length (PYSP_BENDERS_CUTS (_master final))
              + length (converged_at (log final))
              = length (master_solves (log final)) + 1)%nat).
  { intros m Hi Hs.
    pose proof (initialize_in_range _ _ _ Hi) as (Hrange & Hidx).
    pose proof (initialize_spec _ _ _ Hi) as (Hfix & Hpool & Hlen & _).
    split; [exact Hrange|]. split.
    { pose proof (solve_unfold _ _ _ _ _ _ _ Hs)
        as (ph1 & ph3 & m1 & ph4 & seed & st & _ & (pa & Ha) & _ & Ht & _).
      unfold initialize_for_benders in Ha. simpl in Ha. rewrite Ht in Ha.
      eapply for_scenarios_asserts in Ha.
      - simpl in Ha. rewrite Ht in Ha. exact Ha.
      - unfold EXTERNAL_initialize_for_benders. intros a s b Hab.
        destruct (benders_asserts a s) eqn:E; [|discriminate]. injection Hab as <-. auto.
      - intros Hnil. rewrite Hnil in Hrange. simpl in Hrange. lia. }
    apply solve_run in Hs.
    destruct Hs as (ph1 & seed & k & ext & _ & Hlog & Hsm & Hsc & Hsf & _ & _ & _ & Hms & _
                    & Hfr & _ & _ & _ & _ & Hi' & Hb' & _ & es & Hes & _ & Hcount).
    rewrite Hfix in Hfr, Hcount. simpl in Hfr.
    assert (Hm : master_solves (log final) = master_solves ext).
    { rewrite Hlog. unfold master_solves in *. simpl.
      rewrite !omap_app, Hsm. simpl. rewrite app_nil_r. reflexivity. }
    assert (Hc : converged_at (log final) = converged_at ext).
    { rewrite Hlog. unfold converged_at in *. simpl.
      rewrite !omap_app, Hsc. simpl. rewrite app_nil_r. reflexivity. }
    assert (Hf : freed_at (log final) = []).
    { rewrite Hlog. unfold freed_at in *. simpl.
      rewrite !omap_app, Hsf, Hfr. reflexivity. }
    split; [exact Hf|]. split; [congruence|]. split; [congruence|].
    rewrite Hes, Hpool, Hm, Hc, Hms. simpl. rewrite length_map.
    unfold iterations. rewrite length_map, length_seq. exact Hcount. }
  destruct (initialize options ph) as [m|] eqn:Hi; [|discriminate].
  cbn [fst]. apply Hmain. reflexivity.
Qed.

End RunnerFacts.

(** The assertions of an [EXTERNAL_] function have the same outcome for
    every scenario of the tree the loop runs over. *)
Lemma benders_asserts_in_loop ph (s : Scenario) :
  s ∈ _scenarios (_scenario_tree ph) ->
  benders_asserts ph s = Nat.eqb (length (_stages (_scenario_tree ph))) 2.
Proof.
  intros Hin. unfold benders_asserts. rewrite bool_decide_eq_true_2 by exact Hin.
  apply andb_true_r.
Qed.

Lemma for_scenarios_flag (f : ProgressiveHedging -> Scenario -> option ProgressiveHedging)
    (g : ProgressiveHedging -> ProgressiveHedging) :
  (forall ph s, f ph s = if benders_asserts ph s then Some (g ph) else None) ->
  (forall ph, _scenario_tree (g ph) = _scenario_tree ph) ->
  (forall ph, g (g ph) = g ph) ->
  forall (scs : list Scenario) ph,
    Forall (fun s => s ∈ _scenarios (_scenario_tree ph)) scs ->
    for_scenarios f scs ph =
    match scs with
    | [] => Some ph
    | _ :: _ => if Nat.eqb (length (_stages (_scenario_tree ph))) 2
                then Some (g ph) else None
    end.
Proof.
  intros Hf Ht Hg. induction scs as [|s scs IH]; intros ph Hall; [reflexivity|].
  inversion Hall as [|? ? Hs Hrest]; subst. cbn [for_scenarios].
  rewrite Hf, (benders_asserts_in_loop _ _ Hs).
  destruct (Nat.eqb _ 2) eqn:E; [|reflexivity]. cbn [mbind option_bind].
  rewrite IH by (rewrite Ht; exact Hrest). rewrite Ht, E, Hg.
  destruct scs; reflexivity.
Qed.

Lemma Forall_elem_of_self {A} (l : list A) : Forall (fun x => x ∈ l) l.
Proof. apply Forall_forall. auto. Qed.

Lemma activate_fix_constraints_eq ph :
  activate_fix_constraints ph =
  match _scenarios (_scenario_tree ph) with
  | [] => Some ph
  | _ :: _ =>
      if Nat.eqb (length (_stages (_scenario_tree ph))) 2
      then Some (mkPH (_scenario_tree ph) (_objective_sense ph) (solution ph) (root_xbars ph)
                      (relax_integrality ph) (firststage_cost_active ph)
                      (initialized_for_benders ph) true (fix_values ph)
                      (_current_iteration ph) (incumbent_cache ph))
      else None
  end.
Proof.
  unfold activate_fix_constraints.
  apply (for_scenarios_flag EXTERNAL_activate_fix_constraints
           (fun ph => mkPH (_scenario_tree ph) (_objective_sense ph) (solution ph)
                           (root_xbars ph) (relax_integrality ph)
                           (firststage_cost_active ph) (initialized_for_benders ph)
                           true (fix_values ph) (_current_iteration ph)
                           (incumbent_cache ph))); try reflexivity.
  apply Forall_elem_of_self.
Qed.

Lemma deactivate_fix_constraints_eq ph :
  deactivate_fix_constraints ph =
  match _scenarios (_scenario_tree ph) with
  | [] => Some ph
  | _ :: _ =>
      if Nat.eqb (length (_stages (_scenario_tree ph))) 2
      then Some (mkPH (_scenario_tree ph) (_objective_sense ph) (solution ph) (root_xbars ph)
                      (relax_integrality ph) (firststage_cost_active ph)
                      (initialized_for_benders ph) false (fix_values ph)
                      (_current_iteration ph) (incumbent_cache ph))
      else None
  end.
Proof.
  unfold deactivate_fix_constraints.
  apply (for_scenarios_flag EXTERNAL_deactivate_fix_constraints
           (fun ph => mkPH (_scenario_tree ph) (_objective_sense ph) (solution ph)
                           (root_xbars ph) (relax_integrality ph)
                           (firststage_cost_active ph) (initialized_for_benders ph)
                           false (fix_values ph) (_current_iteration ph)
                           (incumbent_cache ph))); try reflexivity.
  apply Forall_elem_of_self.
Qed.

(** X21.  On subproblems initialized for Benders, [activate_fix_constraints]
    raises, at the first scenario and before changing anything, exactly
    when the tree has a scenario and not two stages.  After it returned,
    [deactivate_fix_constraints] does not raise and gives what it gives
    without the activation: the fixing constraints are inactive (when
    there is a scenario), while the tree, the solution, the trial point
    and the values of the fixing parameters are those from before the
    activation. *)
Theorem fix_constraints_round_trip ph :
  initialized_for_benders ph = true ->
  (activate_fix_constraints ph = None <->
   _scenarios (_scenario_tree ph) <> [] /\
   length (_stages (_scenario_tree ph)) <> 2%nat) /\
  (forall pa,
      activate_fix_constraints ph = Some pa ->
      initialized_for_benders pa = true /\
      (_scenarios (_scenario_tree ph) <> [] -> fix_constraints_active pa = true) /\
      deactivate_fix_constraints pa = deactivate_fix_constraints ph /\
      exists pb,
        deactivate_fix_constraints pa = Some pb /\
        (_scenarios (_scenario_tree ph) <> [] -> fix_constraints_active pb = false) /\
        same_problem pb ph /\
        fix_values pb = fix_values ph /\
        firststage_cost_active pb = firststage_cost_active ph /\
        initialized_for_benders pb = true).
Proof.
  intros Hinit. split.
  { rewrite activate_fix_constraints_eq.
    destruct (_scenarios (_scenario_tree ph)) as [|s r].
    - split; [discriminate|]. intros (Hne & _). congruence.
    - destruct (Nat.eqb _ 2) eqn:E.
      + apply Nat.eqb_eq in E. split; [discriminate|]. intros (_ & Hne). congruence.
      + apply Nat.eqb_neq in E. split; [|reflexivity]. intros _.
        split; [discriminate|exact E]. }
  intros pa H. rewrite activate_fix_constraints_eq in H.
  rewrite (deactivate_fix_constraints_eq pa), (deactivate_fix_constraints_eq ph).
  destruct (_scenarios (_scenario_tree ph)) as [|s r] eqn:Es.
  - injection H as <-. rewrite Es. split; [exact Hinit|]. split; [congruence|].
    split; [reflexivity|]. exists ph. split; [reflexivity|]. split; [congruence|].
    split; [apply same_problem_refl|]. auto.
  - destruct (Nat.eqb (length (_stages (_scenario_tree ph))) 2) eqn:E; [|discriminate].
    injection H as <-. cbn [_scenario_tree _objective_sense solution root_xbars
      relax_integrality firststage_cost_active initialized_for_benders fix_values
      fix_constraints_active _current_iteration incumbent_cache]. rewrite Es, E.
    split; [exact Hinit|]. split; [reflexivity|]. split; [reflexivity|].
    eexists. split; [reflexivity|]. simpl. split; [reflexivity|].
    split; [repeat split|]. auto.
Qed.

(** ** The definitions at work on the small instance *)

Import Example.

Lemma recorded_bound_subtracts_reported_gap_witness :
  benders_iteration sub_solver master_solver true options2 1 state0
    = Some (iteration1, false) /\
  dict_get 1 (MASTER_bound_history iteration1) = Some (Fin (4 - (1 # 4))).
Proof.
  split; [vm_compute; reflexivity|].
  apply (recorded_bound_subtracts_reported_gap sub_solver master_solver true options2
           1 state0 iteration1 false master_result); vm_compute; reflexivity.
Defined.

Lemma cut_added_unless_converged_witness :
  benders_iteration sub_solver master_solver true options2 1 state0
    = Some (iteration1, false) /\
  exists c, PYSP_BENDERS_CUTS (_master iteration1)
            = PYSP_BENDERS_CUTS (_master state0) ++ [c].
Proof.
  split; [vm_compute; reflexivity|].
  destruct (cut_added_unless_converged sub_solver master_solver true options2
              1 state0 iteration1 false)
    as (best & inc & _ & _ & _ & _ & res & cutinfo & ph1 & e & _ & _ & _ & Hcuts);
    [vm_compute; reflexivity|].
  eexists. exact Hcuts.
Defined.

Lemma best_bound_monotone_witness :
  solve sub_solver master_solver true options2 master ph = Some run_free /\
  StronglySorted (no_worse minimize) (best_bounds (log run_free)).
Proof.
  split; [vm_compute; reflexivity|].
  apply (best_bound_monotone sub_solver master_solver true options2 master ph run_free).
  vm_compute; reflexivity.
Defined.

Lemma seed_cut_when_alpha_free_witness :
  solve sub_solver master_solver true options2 fixed_master ph = Some run_fixed /\
  exists tb rest,
    log run_fixed = EvTrivialBound tb :: EvSolveMaster 1 :: EvFreeAlpha 1 :: rest.
Proof.
  split; [vm_compute; reflexivity|].
  destruct (seed_cut_when_alpha_free sub_solver master_solver true options2
              fixed_master ph run_fixed)
    as (ph1 & tb & H1
        & [(Hle & _)
          |(_ & _ & xbars1 & cmb & best & inc
            & [(Hlog & _)|(cutinfo & ph' & e & rest & es & Hlog & _)])]);
    [vm_compute; reflexivity|exfalso; apply Hle; reflexivity| |];
    exists tb; eexists; exact Hlog.
Defined.

(** C3: on this run alpha starts fixed, yet the first master solve and the
    freeing of alpha come before any cut is generated; and when alpha starts
    free, a seed cut is generated and added. *)
Lemma seed_cut_claim_counterexample :
  alpha_fixed fixed_master = true /\
  seed_cut sub_solver fixed_master ph = Some (fixed_master, ph, []) /\
  solve sub_solver master_solver true options2 fixed_master ph = Some run_fixed /\
  take 3 (log run_fixed) = [EvTrivialBound (12 # 4); EvSolveMaster 1; EvFreeAlpha 1] /\
  alpha_fixed master = false /\
  solve sub_solver master_solver true options2 master ph = Some run_free /\
  exists benders_cut,
    take 3 (log run_free) =
      [EvTrivialBound (12 # 4); EvGenerateCut {[ 1%positive := 5 ]}; EvAddCut benders_cut].
Proof.
  split; [reflexivity|]. split; [reflexivity|].
  split; [vm_compute; reflexivity|]. split; [vm_compute; reflexivity|].
  split; [reflexivity|]. split; [vm_compute; reflexivity|].
  eexists. vm_compute. reflexivity.
Qed.

(** C9: with the worker count set by the user the call carries no timeout. *)
Lemma acquisition_timeout_counterexample :
  phpyro_required_workers options4 = Some 4%Z /\
  phpyro_workers_timeout options4 = 30 /\
  collect_servers tree options4 = (4%Z, None) /\
  snd (collect_servers tree options4) <> Some (phpyro_workers_timeout options4) /\
  snd (exec_runbenders (fun _ _ => true) sub_solver master_solver true options4 true ph)
    = [RunAcquireServers 4 None; RunInitialize; RunSolve; RunReleaseServers].
Proof.
  split; [reflexivity|]. split; [reflexivity|]. split; [reflexivity|].
  split; [discriminate|]. vm_compute. reflexivity.
Qed.

Lemma add_cut_appends_optimality_cut_witness :
  cut_definedb tree cut (scenario_names tree) = true /\
  cut_definedb tree cut (concat (PYSP_BENDERS_CUT_BUNDLES master2)) = true /\
  (length (PYSP_BENDERS_CUT_BUNDLES master2) <= bundle_alpha_index master2)%nat /\
  exists m' es,
    add_cut master2 ph cut true = Some m' /\
    PYSP_BENDERS_CUTS m' = map (sense_cut minimize) es /\
    length es = 2%nat.
Proof.
  split; [vm_compute; reflexivity|]. split; [vm_compute; reflexivity|].
  split; [vm_compute; lia|].
  destruct (add_cut_appends_optimality_cut master2 ph cut)
    as (_ & (m' & es & H1 & H2 & H3 & _) & _);
    [vm_compute; reflexivity|vm_compute; reflexivity|vm_compute; lia|].
  exists m', es. split; [exact H1|]. split; [exact H2|exact H3].
Defined.

Lemma collect_cut_data_scales_duals_witness :
  benders_asserts bundled_ph s1 = true /\
  ~ scenario_probability s1 == 0 /\
  dual_source bundled_ph s1
    = Some (fun v => bundle_dual sol "b1" !! ("s1"%string, v), 1) /\
  exists res r,
    EXTERNAL_collect_cut_data bundled_ph s1 = Some res /\
    duals res !! 1%positive = Some r /\
    r == 2 * (1 / (1 # 2)).
Proof.
  split; [vm_compute; reflexivity|]. split; [discriminate|]. split; [reflexivity|].
  destruct (collect_cut_data_scales_duals bundled_ph s1
              (fun v => bundle_dual sol "b1" !! ("s1"%string, v)) 1)
    as (res & Hres & _ & Hduals & _);
    [vm_compute; reflexivity|discriminate|reflexivity
    |repeat constructor; eexists; reflexivity|].
  destruct (Hduals 1%positive) as (d & r & Hd & Hr & Hscale & _);
    [apply list_elem_of_singleton; reflexivity|].
  exists res, r. split; [exact Hres|]. split; [exact Hr|].
  vm_compute in Hd. injection Hd as <-. exact Hscale.
Defined.

Lemma round_robin_partition_witness :
  (1 <= 2 <= Z.of_nat (length ["s1"; "s2"; "s3"]%string))%Z /\
  NoDup ["s1"; "s2"; "s3"]%string /\
  exists bundles,
    make_bundles 2 ["s1"; "s2"; "s3"]%string = Some bundles /\
    length bundles = 2%nat /\
    concat bundles ≡ₚ ["s1"; "s2"; "s3"]%string.
Proof.
  assert (Hnd : NoDup ["s1"; "s2"; "s3"]%string).
  { apply (bool_decide_unpack _). vm_compute. reflexivity. }
  split; [simpl; lia|]. split; [exact Hnd|].
  destruct (round_robin_partition 2 ["s1"; "s2"; "s3"]%string)
    as (bundles & H1 & H2 & _ & _ & _ & H3); [simpl; lia|exact Hnd|].
  exists bundles. split; [exact H1|]. split; [exact H2|exact H3].
Defined.

Lemma bundle_cuts_sum_to_aggregate_witness :
  initialize options2 ph = Some master2 /\
  cut_definedb tree cut (scenario_names tree) = true /\
  exists e es,
    length es = 2%nat /\
    bundle_total point es == value point e + val_alpha point.
Proof.
  split; [vm_compute; reflexivity|]. split; [vm_compute; reflexivity|].
  destruct (bundle_cuts_sum_to_aggregate options2 master2 master2 ph cut)
    as (m1 & e & m2 & es & _ & _ & _ & _ & Hlen & Hsum);
    [vm_compute; reflexivity|reflexivity|reflexivity|vm_compute; reflexivity|].
  exists e, es. split; [exact Hlen|apply Hsum].
Defined.

(** With a loose tolerance the first iteration converges: the loop stops
    there, whatever the number of iterations left, and the pool is as it
    was. *)
Example converged_iteration_leaves_pool :
  benders_iteration sub_solver master_solver true loose_options 1 state0
    = Some (converged1, true) /\
  benders_loop sub_solver master_solver true loose_options 5 1 state0 = Some converged1 /\
  PYSP_BENDERS_CUTS (_master converged1) = PYSP_BENDERS_CUTS (_master state0).
Proof. repeat split; vm_compute; reflexivity. Qed.

(** ** The further properties on the instances *)

Import Cases.

Lemma add_cut_only_appends_witness :
  exists m',
    add_cut master2 ph cut true = Some m' /\
    bundle_alpha_index m' = 2%nat /\
    length (PYSP_BENDERS_CUTS m') = 2%nat.
Proof.
  destruct (add_cut master2 ph cut true) as [m'|] eqn:E; [|vm_compute in E; discriminate].
  exists m'. split; [reflexivity|].
  destruct (add_cut_only_appends master2 ph cut true m' E)
    as (_ & Hi & _ & _ & es & Hes & Hlen).
  split; [exact Hi|]. rewrite Hes. simpl. rewrite length_map. exact Hlen.
Defined.

Lemma collect_cut_data_needs_one_bundle_witness :
  contains_bundles (_scenario_tree ready_bundled_ph) = true /\
  initialized_for_benders ready_bundled_ph = true /\
  (is_Some (dual_source ready_bundled_ph s1) <->
   bundles_holding (_scenario_tree ready_bundled_ph) (scenario_name s1) = 1%nat).
Proof.
  split; [reflexivity|]. split; [reflexivity|].
  apply (collect_cut_data_needs_one_bundle ready_bundled_ph s1); reflexivity.
Defined.

Lemma collect_cut_data_keys_witness :
  exists res,
    EXTERNAL_collect_cut_data ph s1 = Some res /\
    dom (duals res) = list_to_set (root_variable_ids (_scenario_tree ph)) /\
    SSC res = 1.
Proof.
  destruct (EXTERNAL_collect_cut_data ph s1) as [res|] eqn:E;
    [|vm_compute in E; discriminate].
  exists res. split; [reflexivity|].
  destruct (collect_cut_data_keys ph s1 res E) as (Hd & Hs & _).
  split; [exact Hd|]. rewrite Hs. reflexivity.
Defined.

Lemma collect_cut_data_zero_probability_witness :
  scenario_probability zero_scenario == 0 /\
  EXTERNAL_collect_cut_data zero_ph zero_scenario = None.
Proof.
  split; [reflexivity|].
  apply (collect_cut_data_zero_probability zero_ph zero_scenario);
    [reflexivity|discriminate].
Defined.

Lemma collect_cut_data_order_independent_witness :
  NoDup (map scenario_name [s1; s2]) /\
  collect_cut_data_loop ph [s1; s2] ∅ = collect_cut_data_loop ph [s2; s1] ∅.
Proof.
  assert (Hnd : NoDup (map scenario_name [s1; s2])).
  { apply (bool_decide_unpack _). vm_compute. reflexivity. }
  split; [exact Hnd|].
  apply (collect_cut_data_order_independent ph [s1; s2] [s2; s1] Hnd).
  apply perm_swap.
Defined.

Lemma generate_cut_shape_witness :
  exists benders_cut ph',
    generate_cut sub_solver ph trial_point = Some (benders_cut, ph') /\
    cut_xbars benders_cut = trial_point /\
    cut_ssc benders_cut !! "s1"%string = Some (scenario_stage_cost (solution ph') "s1").
Proof.
  destruct (generate_cut sub_solver ph trial_point) as [[benders_cut ph']|] eqn:E;
    [|vm_compute in E; discriminate].
  exists benders_cut, ph'. split; [reflexivity|].
  destruct (generate_cut_shape sub_solver ph trial_point benders_cut ph' E)
    as (Hx & _ & _ & _ & _ & Hssc).
  split; [exact Hx|]. apply Hssc. apply (bool_decide_unpack _). vm_compute. reflexivity.
Defined.

Lemma generated_cut_is_accepted_witness :
  exists benders_cut ph',
    generate_cut sub_solver ph trial_point = Some (benders_cut, ph') /\
    is_Some (add_cut master ph' benders_cut false).
Proof.
  destruct (generate_cut sub_solver ph trial_point) as [[benders_cut ph']|] eqn:E;
    [|vm_compute in E; discriminate].
  exists benders_cut, ph'. split; [reflexivity|].
  apply (generated_cut_is_accepted sub_solver ph trial_point benders_cut ph' master E).
  repeat constructor. eexists. reflexivity.
Defined.

Lemma round_robin_bundles_balanced_witness :
  exists bundles,
    make_bundles 2 ["s1"; "s2"; "s3"]%string = Some bundles /\
    forall b, b ∈ bundles -> b <> [].
Proof.
  destruct (make_bundles 2 ["s1"; "s2"; "s3"]%string) as [bundles|] eqn:E;
    [|vm_compute in E; discriminate].
  exists bundles. split; [reflexivity|].
  apply (round_robin_bundles_balanced 2 ["s1"; "s2"; "s3"]%string bundles E).
Defined.

Lemma iterations_numbered_until_convergence_witness :
  solve sub_solver master_solver true options2 master ph = Some run_free /\
  exists k, master_solves (log run_free) = iterations 1 k.
Proof.
  split; [vm_compute; reflexivity|].
  destruct (iterations_numbered_until_convergence sub_solver master_solver true options2
              master ph run_free) as (k & _ & Hk & _); [vm_compute; reflexivity|].
  exists k. exact Hk.
Defined.

Lemma negative_tolerance_runs_all_iterations_witness :
  percent_gap negative_options < 0 /\
  exists final,
    solve sub_solver master_solver true negative_options master ph = Some final /\
    master_solves (log final) = [1; 2; 3]%Z.
Proof.
  split; [reflexivity|].
  destruct (solve sub_solver master_solver true negative_options master ph)
    as [final|] eqn:E; [|vm_compute in E; discriminate].
  exists final. split; [reflexivity|].
  destruct (negative_tolerance_runs_all_iterations sub_solver master_solver true
              negative_options master ph final) as (_ & H); [reflexivity|exact E|].
  exact H.
Defined.

Lemma cut_pool_grows_by_one_per_iteration_witness :
  solve sub_solver master_solver true options2 master ph = Some run_free /\
  bundle_alpha_index (_master run_free) = bundle_alpha_index master.
Proof.
  split; [vm_compute; reflexivity|].
  apply (cut_pool_grows_by_one_per_iteration sub_solver master_solver true options2
           master ph run_free).
  vm_compute; reflexivity.
Defined.

Lemma histories_keyed_by_iteration_witness :
  solve sub_solver master_solver true options2 master ph = Some run_free /\
  keys (OBJECTIVE_history run_free) = master_solves (log run_free).
Proof.
  split; [vm_compute; reflexivity|].
  destruct (histories_keyed_by_iteration sub_solver master_solver true options2
              master ph run_free) as (tb & rest & _ & _ & H & _);
    [vm_compute; reflexivity|].
  exact H.
Defined.

Lemma solve_requires_two_stages_witness :
  solve sub_solver master_solver true options2 master ph = Some run_free /\
  length (_stages (_scenario_tree ph)) = 2%nat.
Proof.
  split; [vm_compute; reflexivity|].
  apply (solve_requires_two_stages sub_solver master_solver true options2
           master ph run_free); [vm_compute; reflexivity|discriminate].
Defined.

Lemma incumbent_never_worsens_witness :
  solve sub_solver master_solver true options2 master ph = Some run_free /\
  StronglySorted (no_worse_incumbent minimize) (incumbents (log run_free)).
Proof.
  split; [vm_compute; reflexivity|].
  apply (incumbent_never_worsens sub_solver master_solver true options2
           master ph run_free).
  vm_compute; reflexivity.
Defined.


Lemma completed_run_shape_witness :
  exists final,
    (exec_runbenders (fun _ _ => true) sub_solver master_solver true options2 false ph).1
      = Some final /\
    freed_at (log final) = [].
Proof.
  destruct (exec_runbenders (fun _ _ => true) sub_solver master_solver true
              options2 false ph).1 as [final|] eqn:E; [|vm_compute in E; discriminate].
  exists final. split; [reflexivity|].
  apply (completed_run_shape (fun _ _ => true) sub_solver master_solver true
           options2 ph final E).
Defined.

Lemma fix_constraints_round_trip_witness :
  initialized_for_benders ready_ph = true /\
  (activate_fix_constraints ready_ph = None <->
   _scenarios (_scenario_tree ready_ph) <> [] /\
   length (_stages (_scenario_tree ready_ph)) <> 2%nat).
Proof.
  split; [reflexivity|].
  apply (fix_constraints_round_trip ready_ph). reflexivity.
Defined.
